(** * MHNfs building blocks ([mhnfs/modules.py]): a shallow embedding

    The Python module defines the encoder, the context (memory retrieval)
    module, the layer-normalising block, the cross-attention module and the
    similarity scorer of the MHNfs few-shot model.  Tensors are embedded as
    nested lists; a tensor of shape [[B, P, D]] is a list of [B] rows, each
    a list of [P] vectors, each a list of [D] entries.  Python exceptions
    are results of a small error monad.  Library modules whose code is not
    part of [modules.py] (the Hopfield layer, the transformer encoder, the
    weight initialiser) are fields or arguments of the embedded modules.

    Two embeddings of the entries are used.  Statements about shapes,
    layout, the order of lookups and the choice of branches are made on
    tensors of reals ([R]): they do not depend on how an entry is rounded.
    Statements about the values the similarity scorer computes (its
    normalisation guard, its masking by multiplication and its stabilised
    scaling) are made on tensors of IEEE 754 binary32 values, in module
    [Float32].

    The tensor operations are total: where torch rejects operands whose
    shapes do not fit, the embedded operation works on their common prefix.
    The statements are about inputs of the shapes given in the docstrings
    of [modules.py], on which the two agree. *)

From Stdlib Require Import Reals Lra Lia ZArith.
From Stdlib Require Import Floats.SpecFloat.
From stdpp Require Import base list gmap strings.

Open Scope R_scope.

(* ===================================================================== *)
(** * Part I: definitions *)
(* ===================================================================== *)

(** ** Python results *)

Inductive exn : Type :=
| KeyError (key : string)
| AttributeError (name : string).

Inductive pyresult (A : Type) : Type :=
| Ret (a : A)
| Raise (e : exn).

Arguments Ret {A} a.
Arguments Raise {A} e.

Definition pybind {A B : Type} (m : pyresult A) (k : A → pyresult B) : pyresult B :=
  match m with
  | Ret a => k a
  | Raise e => Raise e
  end.

Notation "x ←! m ; k" := (pybind m (λ x, k))
  (at level 100, m at next level, right associativity,
   format "x  ←!  m ;  '/' k").

(** [d[key]] on a Python dict with string keys. *)
Definition py_getitem {V : Type} (d : gmap string V) (key : string) : pyresult V :=
  match d !! key with
  | Some v => Ret v
  | None => Raise (KeyError key)
  end.

(** ** Tensors as nested lists *)

Abbreviation tensor1 := (list R).
Abbreviation tensor2 := (list (list R)).
Abbreviation tensor3 := (list (list (list R))).

(** [t.shape[1]] and [t.shape[2]], read off the first row.  A tensor with an
    empty leading axis does not record its trailing sizes in this
    representation; they read as [0] there. *)
Definition shape1 {A : Type} (t : list (list A)) : nat := length (hd [] t).
Definition shape2 {A : Type} (t : list (list (list A))) : nat :=
  length (hd [] (hd [] t)).

(** The shape predicates used by the statements. *)
Definition has_shape2 {A : Type} (t : list (list A)) (B P : nat) : Prop :=
  length t = B ∧ Forall (λ row, length row = P) t.
Definition has_shape3 {A : Type} (t : list (list (list A))) (B P D : nat) : Prop :=
  length t = B ∧
  Forall (λ row, length row = P ∧ Forall (λ v : list A, length v = D) row) t.

(** Shape of a rank-2 value, as the list [torch] prints. *)
Definition shape_of2 {A : Type} (t : list (list A)) : list nat :=
  [length t; shape1 t].

(** [torch.cat((x, y), dim=1)] and [torch.cat([x, y], dim=2)]. *)
Definition cat_dim1 {A : Type} (x y : list (list A)) : list (list A) :=
  zip_with app x y.
Definition cat_dim2 {A : Type} (x y : list (list (list A))) : list (list (list A)) :=
  zip_with (zip_with app) x y.

(** [t[:, :, :w]]. *)
Definition slice_dim2_to {A : Type} (w : nat) (t : list (list (list A))) :
  list (list (list A)) :=
  (λ row : list (list A), take w <$> row) <$> t.

Definition map3 (f : R → R) (t : tensor3) : tensor3 :=
  (λ row : tensor2, (λ v : tensor1, f <$> v) <$> row) <$> t.
Definition zeros_like (t : tensor3) : tensor3 := map3 (λ _, 0) t.
Definition ones_like (t : tensor3) : tensor3 := map3 (λ _, 1) t.
Definition scalar_mul (c : R) (t : tensor3) : tensor3 := map3 (Rmult c) t.

(** Elementwise [x + y] on equal shapes. *)
Definition vadd (u v : tensor1) : tensor1 := zip_with Rplus u v.
Definition add3 (x y : tensor3) : tensor3 := zip_with (zip_with vadd) x y.

(** [torch.unsqueeze(t, 1)] of a rank-2 value, [t[:, 0, :]] of a rank-3 one. *)
Definition unsqueeze1 {A : Type} (t : list A) : list (list A) := (λ v, [v]) <$> t.
Definition index_dim1 {A : Type} (k : nat) (t : list (list (list A))) : list (list A) :=
  (λ row : list (list A), nth k row []) <$> t.

(** [torch.transpose(t, 0, 1)] of a rank-3 tensor, and of a matrix. *)
Definition transpose {A : Type} (d : A) (t : list (list A)) : list (list A) :=
  (λ j : nat, (λ row : list A, nth j row d) <$> t) <$> seq 0 (shape1 t).
Definition transpose01 (t : tensor3) : tensor3 := transpose [] t.
Definition transpose12 (t : tensor3) : tensor3 := transpose 0 <$> t.

(** [t.reshape(d0, d1, D)] where [D] is the feature width of [t]: the row
    vectors, in row-major order, are regrouped into [d0] rows of [d1]. *)
Fixpoint unflatten {A : Type} (d0 d1 : nat) (l : list A) : list (list A) :=
  match d0 with
  | O => []
  | S d0' => take d1 l :: unflatten d0' d1 (drop d1 l)
  end.
Definition reshape_rows {A : Type} (d0 d1 : nat) (t : list (list A)) : list (list A) :=
  unflatten d0 d1 (concat t).

Definition rsum (v : tensor1) : R := foldr Rplus 0 v.
Definition dot (u v : tensor1) : R := rsum (zip_with Rmult u v).

(** [x @ y] on matrices, and batched on rank-3 tensors of equal batch size. *)
Definition matmul (x y : tensor2) : tensor2 :=
  (λ u : tensor1, dot u <$> transpose 0 y) <$> x.
Definition bmm (x y : tensor3) : tensor3 := zip_with matmul x y.

(** ** Configuration ([cfg.model...]) *)

Record EncoderCfg : Type := {
  activation : string;
  input_dim : nat;
  number_hidden_neurons : nat;
  number_hidden_layers : nat;
  input_dropout : R;
  dropout : R
}.

Record LayerNormBlockCfg : Type := {
  usage : bool;
  affine : bool
}.

Record TransformerCfg : Type := {
  activity_embedding_dim : nat;
  number_heads : nat;
  dim_forward : nat;
  num_layers : nat;
  transformer_dropout : R
}.

Record SimilarityModuleCfg : Type := {
  l2Norm : bool;
  scaling : string
}.

Record Config : Type := {
  encoder : EncoderCfg;
  associationSpace_dim : nat;
  layerNormBlock : LayerNormBlockCfg;
  transformer_cfg : TransformerCfg;
  similarityModule : SimilarityModuleCfg
}.

(** ** Mappings *)

Inductive Activation : Type := ReLU | SELU | Sigmoid.
Inductive DropoutClass : Type := Dropout | AlphaDropout.

Definition activation_function_mapping : gmap string Activation :=
  {[ "relu" := ReLU; "selu" := SELU; "sigmoid" := Sigmoid ]}.

Definition dropout_mapping : gmap string DropoutClass :=
  {[ "relu" := Dropout; "selu" := AlphaDropout ]}.

(** ** EncoderBlock *)

Record Linear : Type := {
  in_features : nat;
  out_features : nat
}.

Record DropoutLayer : Type := {
  dropout_class : DropoutClass;
  p : R
}.

Record EncoderBlock : Type := {
  enc_dropout : DropoutLayer;
  enc_fc : Linear;
  enc_act : Activation;
  hidden_dropout_layers : list DropoutLayer;
  hidden_linear_layers : list Linear;
  hidden_activations : list Activation;
  dropout_o : DropoutLayer;
  fc_o : Linear;
  act_o : Activation
}.

(** The body of the [for _ in range(number_hidden_layers)] loop, run [n]
    times: one dropout, one linear layer and one activation per round. *)
Fixpoint hidden_layers (e : EncoderCfg) (n : nat) :
  pyresult (list DropoutLayer * list Linear * list Activation) :=
  match n with
  | O => Ret ([], [], [])
  | S n' =>
      d ←! py_getitem dropout_mapping (activation e);
      a ←! py_getitem activation_function_mapping (activation e);
      rest ←! hidden_layers e n';
      Ret ({| dropout_class := d; p := dropout e |} :: rest.1.1,
           {| in_features := number_hidden_neurons e;
              out_features := number_hidden_neurons e |} :: rest.1.2,
           a :: rest.2)
  end.

(** [EncoderBlock.__init__].  [init_weights] is the initialiser imported
    from [mhnfs.initialization]; only whether its call for the activation
    name returns is visible here, the weights themselves are not modelled. *)
Definition EncoderBlock_init (init_weights : string → pyresult ()) (cfg : Config) :
  pyresult EncoderBlock :=
  let e := encoder cfg in
  d_in ←! py_getitem dropout_mapping (activation e);
  a_in ←! py_getitem activation_function_mapping (activation e);
  hidden ←! hidden_layers e (number_hidden_layers e);
  d_out ←! py_getitem dropout_mapping (activation e);
  a_out ←! py_getitem activation_function_mapping (activation e);
  _ ←! init_weights (activation e);
  Ret {| enc_dropout := {| dropout_class := d_in; p := input_dropout e |};
         enc_fc := {| in_features := input_dim e;
                      out_features := number_hidden_neurons e |};
         enc_act := a_in;
         hidden_dropout_layers := hidden.1.1;
         hidden_linear_layers := hidden.1.2;
         hidden_activations := hidden.2;
         dropout_o := {| dropout_class := d_out; p := dropout e |};
         fc_o := {| in_features := number_hidden_neurons e;
                    out_features := associationSpace_dim cfg |};
         act_o := a_out |}.

(** ** ContextModule *)

(** [t[:, lo:hi, :]] and [t[:, lo:, :]]. *)
Definition slice_dim1 {A : Type} (lo hi : nat) (t : list (list A)) : list (list A) :=
  (λ row : list A, take (hi - lo) (drop lo row)) <$> t.
Definition slice_dim1_from {A : Type} (lo : nat) (t : list (list A)) : list (list A) :=
  (λ row : list A, drop lo row) <$> t.

(** The module owns a Hopfield layer ([mhnfs.hopfield.modules.Hopfield]),
    called on the triple (stored pattern, state pattern, pattern
    projection). *)
Record ContextModule : Type := {
  hopfield : tensor3 * tensor3 * tensor3 → tensor3
}.

(** "Stack embeddings together": [torch.cat((q, a, i), dim=1)], then the
    flattening [s.reshape(1, s.shape[0] * s.shape[1], s.shape[2])]. *)
Definition ContextModule_stack (query_embedding support_actives_embedding
    support_inactives_embedding : tensor3) : tensor3 :=
  cat_dim1 (cat_dim1 query_embedding support_actives_embedding)
           support_inactives_embedding.
Definition ContextModule_flatten (s : tensor3) : tensor3 :=
  reshape_rows 1 (length s * shape1 s) s.

Definition ContextModule_forward (self : ContextModule)
    (query_embedding support_actives_embedding support_inactives_embedding
     context_set_embedding : tensor3) : tensor3 * tensor3 * tensor3 :=
  let s := ContextModule_stack query_embedding support_actives_embedding
                               support_inactives_embedding in
  let s_flattend := ContextModule_flatten s in
  let s_h := hopfield self (context_set_embedding, s_flattend, context_set_embedding) in
  let s_updated := add3 s_flattend s_h in
  let s_updated_inputShape := reshape_rows (length s) (shape1 s) s_updated in
  let query_embedding := unsqueeze1 (index_dim1 0 s_updated_inputShape) in
  let padding_size_actives := shape1 support_actives_embedding in
  let support_actives_embedding :=
    slice_dim1 1 (padding_size_actives + 1) s_updated_inputShape in
  let support_inactives_embedding :=
    slice_dim1_from (padding_size_actives + 1) s_updated_inputShape in
  (query_embedding, support_actives_embedding, support_inactives_embedding).

(** ** LayerNormalizingBlock *)

(** [nn.LayerNorm(normalized_shape, elementwise_affine=...)] over the last
    axis, with the biased variance and [eps = 1e-5]; the affine weight and
    bias start as ones and zeros. *)
Record LayerNorm : Type := {
  normalized_shape : nat;
  ln_eps : R;
  ln_affine : option (tensor1 * tensor1)
}.

Definition LayerNorm_init (dim : nat) (elementwise_affine : bool) : LayerNorm :=
  {| normalized_shape := dim;
     ln_eps := 1e-5;
     ln_affine := if elementwise_affine
                  then Some (replicate dim 1, replicate dim 0) else None |}.

Definition layer_norm_vec (ln : LayerNorm) (v : tensor1) : tensor1 :=
  let n := INR (length v) in
  let mean := rsum v / n in
  let var := rsum ((λ x, (x - mean) ^ 2) <$> v) / n in
  let y := (λ x, (x - mean) / sqrt (var + ln_eps ln)) <$> v in
  match ln_affine ln with
  | Some (weight, bias) => zip_with Rplus (zip_with Rmult y weight) bias
  | None => y
  end.

Definition LayerNorm_forward (ln : LayerNorm) (t : tensor3) : tensor3 :=
  (λ row : tensor2, layer_norm_vec ln <$> row) <$> t.

(** The three normalisation layers are attributes that exist only when
    [__init__] ran with [usage] set. *)
Record LayerNormalizingBlock : Type := {
  lnb_cfg : Config;
  layernorm_query : option LayerNorm;
  layernorm_support_actives : option LayerNorm;
  layernorm_support_inactives : option LayerNorm
}.

Definition LayerNormalizingBlock_init (cfg : Config) : LayerNormalizingBlock :=
  if usage (layerNormBlock cfg) then
    let mk := LayerNorm_init (associationSpace_dim cfg) (affine (layerNormBlock cfg)) in
    {| lnb_cfg := cfg;
       layernorm_query := Some mk;
       layernorm_support_actives := Some mk;
       layernorm_support_inactives := Some mk |}
  else
    {| lnb_cfg := cfg;
       layernorm_query := None;
       layernorm_support_actives := None;
       layernorm_support_inactives := None |}.

Definition py_getattr {X : Type} (name : string) (attr : option X) : pyresult X :=
  match attr with
  | Some x => Ret x
  | None => Raise (AttributeError name)
  end.

(** [support_inactives_embedding] may be [None]. *)
Definition LayerNormalizingBlock_forward (self : LayerNormalizingBlock)
    (query_embedding support_actives_embedding : tensor3)
    (support_inactives_embedding : option tensor3) :
    pyresult (tensor3 * tensor3 * option tensor3) :=
  if usage (layerNormBlock (lnb_cfg self)) then
    lq ←! py_getattr "layernorm_query" (layernorm_query self);
    let query_embedding := LayerNorm_forward lq query_embedding in
    la ←! py_getattr "layernorm_support_actives" (layernorm_support_actives self);
    let support_actives_embedding := LayerNorm_forward la support_actives_embedding in
    match support_inactives_embedding with
    | Some inactives =>
        li ←! py_getattr "layernorm_support_inactives"
                         (layernorm_support_inactives self);
        Ret (query_embedding, support_actives_embedding,
             Some (LayerNorm_forward li inactives))
    | None => Ret (query_embedding, support_actives_embedding, None)
    end
  else Ret (query_embedding, support_actives_embedding, support_inactives_embedding).

(** ** CrossAttentionModule *)

(** Arguments of [torch.nn.TransformerEncoderLayer] / [TransformerEncoder]. *)
Record TransformerEncoderArgs : Type := {
  d_model : nat;
  nhead : nat;
  dim_feedforward : nat;
  te_dropout : R;
  te_num_layers : nat
}.

(** The module owns a transformer encoder, called as
    [transformer(src, src_key_padding_mask=mask)] on a sequence-first
    [src] of shape [[S, B, E]] and a mask of shape [[B, S]]. *)
Record CrossAttentionModule : Type := {
  cam_cfg : Config;
  transformer : tensor3 → list (list bool) → tensor3
}.

Definition CrossAttentionModule_init
    (TransformerEncoder : TransformerEncoderArgs → tensor3 → list (list bool) → tensor3)
    (cfg : Config) : CrossAttentionModule :=
  {| cam_cfg := cfg;
     transformer := TransformerEncoder
       {| d_model := associationSpace_dim cfg
                     + activity_embedding_dim (transformer_cfg cfg);
          nhead := number_heads (transformer_cfg cfg);
          dim_feedforward := dim_forward (transformer_cfg cfg);
          te_dropout := transformer_dropout (transformer_cfg cfg);
          te_num_layers := num_layers (transformer_cfg cfg) |} |}.

(** "Add activity encoding to representations": the three embeddings with
    the encoding block appended along the feature axis. *)
Definition query_with_encoding (cfg : Config) (query_embedding : tensor3) : tensor3 :=
  cat_dim2 query_embedding
    (zeros_like (slice_dim2_to (activity_embedding_dim (transformer_cfg cfg))
                               query_embedding)).
Definition actives_with_encoding (cfg : Config) (support_actives_embedding : tensor3) :
  tensor3 :=
  cat_dim2 support_actives_embedding
    (ones_like (slice_dim2_to (activity_embedding_dim (transformer_cfg cfg))
                              support_actives_embedding)).
Definition inactives_with_encoding (cfg : Config) (support_inactives_embedding : tensor3) :
  tensor3 :=
  cat_dim2 support_inactives_embedding
    (scalar_mul (-1.0)
       (ones_like (slice_dim2_to (activity_embedding_dim (transformer_cfg cfg))
                                 support_inactives_embedding))).

(** "Concatenate query and support set molecules": the sequence [s] handed
    to the transformer (before the transposition). *)
Definition CrossAttention_sequence (cfg : Config)
    (query_embedding support_actives_embedding support_inactives_embedding : tensor3) :
  tensor3 :=
  cat_dim1 (cat_dim1 (query_with_encoding cfg query_embedding)
                     (actives_with_encoding cfg support_actives_embedding))
           (inactives_with_encoding cfg support_inactives_embedding).

(** "Create padding mask": a [False] column for the query, then the two
    input masks as they are. *)
Definition CrossAttention_padding_mask
    (support_actives_mask support_inactives_mask : list (list bool)) : list (list bool) :=
  cat_dim1
    (cat_dim1 ((λ x : bool, [x]) <$> replicate (length support_actives_mask) false)
              support_actives_mask)
    support_inactives_mask.

Definition CrossAttentionModule_forward (self : CrossAttentionModule)
    (query_embedding support_actives_embedding support_inactives_embedding : tensor3)
    (support_actives_mask support_inactives_mask : list (list bool)) :
    tensor3 * tensor3 * tensor3 :=
  let embedding_dim := shape2 support_actives_embedding in
  let support_actives_embedding1 :=
    actives_with_encoding (cam_cfg self) support_actives_embedding in
  let s := CrossAttention_sequence (cam_cfg self) query_embedding
             support_actives_embedding support_inactives_embedding in
  let padding_mask :=
    CrossAttention_padding_mask support_actives_mask support_inactives_mask in
  let s := transpose01 s in
  let s_h := transformer self s padding_mask in
  let s := transpose01 s in
  let s_h := transpose01 s_h in
  let s_updated := add3 s s_h in
  let query_embedding :=
    unsqueeze1 ((λ v : tensor1, take embedding_dim v) <$> index_dim1 0 s_updated) in
  let support_actives_embedding2 :=
    slice_dim2_to embedding_dim
      (slice_dim1 1 (shape1 support_actives_embedding1 + 1) s_updated) in
  let support_inactives_embedding :=
    slice_dim2_to embedding_dim
      (slice_dim1_from (shape1 support_actives_embedding2 + 1) s_updated) in
  (query_embedding, support_actives_embedding2, support_inactives_embedding).

(** Entry [[b, j]] of a rank-2 value. *)
Definition at2 {A : Type} (t : list (list A)) (b j : nat) : option A :=
  t !! b ≫= (λ row : list A, row !! j).

(** Reading of the two kinds of mask.  For [src_key_padding_mask], [True]
    means that the key is ignored by attention.  For the padding masks of
    the data model, as the similarity scorer reads them, [True] is a real
    molecule and [False] is padding. *)
Definition key_ignored (key_padding_mask : list (list bool)) (b j : nat) : Prop :=
  at2 key_padding_mask b j = Some true.
Definition key_attendable (key_padding_mask : list (list bool)) (b j : nat) : Prop :=
  at2 key_padding_mask b j = Some false.
Definition marks_padding (support_mask : list (list bool)) (b k : nat) : Prop :=
  at2 support_mask b k = Some false.
Definition marks_real (support_mask : list (list bool)) (b k : nat) : Prop :=
  at2 support_mask b k = Some true.

(** What [src_key_padding_mask] promises of a transformer encoder called on
    a sequence-first [src] of shape [[S, B, E]]: the result has the shape of
    [src], and its entry for position [i] of task [b] is determined by the
    entry of [src] at [(i, b)] and by the entries of task [b] at the keys
    that the mask leaves attendable. *)
Definition respects_key_padding (T : tensor3 → list (list bool) → tensor3) : Prop :=
  ∀ (src src' : tensor3) (mask : list (list bool)) (L B : nat),
    has_shape2 src L B → has_shape2 src' L B → has_shape2 mask B L →
    has_shape2 (T src mask) L B ∧
    ∀ i b,
      (∀ j, key_attendable mask b j → at2 src j b = at2 src' j b) →
      at2 src i b = at2 src' i b →
      at2 (T src mask) i b = at2 (T src' mask) i b.

(** *** A reference attention layer

    Single-head softmax attention whose query and key projections are zero
    and whose value and output projections are the identity: all scores
    are equal, so every position receives the mean of the keys that the
    key-padding mask leaves attendable. *)
Definition attendable_keys (keys : tensor2) (mask_row : list bool) : tensor2 :=
  fst <$> List.filter (λ km : tensor1 * bool, negb km.2) (zip keys mask_row).

Definition vsum (vs : tensor2) : tensor1 :=
  match vs with
  | [] => []
  | v :: rest => foldl vadd v rest
  end.

Definition vmean (vs : tensor2) : tensor1 :=
  (λ x, x / INR (length vs)) <$> vsum vs.

Definition uniform_attention (src : tensor3) (key_padding_mask : list (list bool)) :
  tensor3 :=
  let context :=
    zip_with (λ keys mask_row, vmean (attendable_keys keys mask_row))
             (transpose01 src) key_padding_mask in
  (λ _ : tensor2, context) <$> src.

(** ** SimilarityModule *)

(** [t.pow(2).sum(dim=2).sqrt()], [torch.unsqueeze(t, 2)],
    [t[t == 0] = c], and [t / d] with [d] broadcast along a last axis of
    size one. *)
Definition euclidean_norm (v : tensor1) : R := sqrt (rsum ((λ x, x ^ 2) <$> v)).
Definition norm_dim2 (t : tensor3) : tensor2 :=
  (λ row : tensor2, euclidean_norm <$> row) <$> t.
Definition unsqueeze2 (t : tensor2) : tensor3 :=
  (λ row : tensor1, (λ x, [x]) <$> row) <$> t.
Definition fill_where_zero (c : R) (t : tensor3) : tensor3 :=
  map3 (λ x, if Req_dec_T x 0 then c else x) t.
Definition div_last (v d : tensor1) : tensor1 :=
  match d with
  | [c] => (λ x, x / c) <$> v
  | _ => zip_with Rdiv v d
  end.
Definition div3 (t d : tensor3) : tensor3 := zip_with (zip_with div_last) t d.

(** The optional L2 normalisation of one operand. *)
Definition l2_div (embedding : tensor3) : tensor3 :=
  fill_where_zero 1 (unsqueeze2 (norm_dim2 embedding)).
Definition l2_normalize (embedding : tensor3) : tensor3 :=
  div3 embedding (l2_div embedding).

Definition mask_float (padding_mask : list (list bool)) : tensor2 :=
  (λ row : list bool, (λ m : bool, if m then 1 else 0) <$> row) <$> padding_mask.
Definition mul3 (x y : tensor3) : tensor3 :=
  zip_with (zip_with (zip_with Rmult)) x y.
Definition mul2 (x y : tensor2) : tensor2 := zip_with (zip_with Rmult) x y.
Definition sum_dim2 (t : tensor3) : tensor2 := (λ row : tensor2, rsum <$> row) <$> t.

Definition stabilizer : R := 1e-8.

(** [support_set_size.reshape(-1, 1)], as floats. *)
Definition size_column (support_set_size : list nat) : tensor2 :=
  (λ n : nat, [INR n]) <$> support_set_size.

Definition SimilarityModule
    (query_embedding support_set_embeddings : tensor3)
    (padding_mask : list (list bool)) (support_set_size : list nat)
    (cfg : Config) : pyresult tensor2 :=
  let query_embedding :=
    if l2Norm (similarityModule cfg) then l2_normalize query_embedding
    else query_embedding in
  let support_set_embeddings :=
    if l2Norm (similarityModule cfg) then l2_normalize support_set_embeddings
    else support_set_embeddings in
  let similarities := bmm query_embedding (transpose12 support_set_embeddings) in
  let mask := unsqueeze1 (mask_float padding_mask) in
  let similarities := mul3 similarities mask in
  let similarity_sums := sum_dim2 similarities in
  let similarity_sums :=
    if String.eqb (scaling (similarityModule cfg)) "1/N" then
      mul2 ((λ row : tensor1, (λ n, 1 / (2.0 * n + stabilizer)) <$> row)
              <$> size_column support_set_size)
           similarity_sums
    else similarity_sums in
  let similarity_sums :=
    if String.eqb (scaling (similarityModule cfg)) "1/sqrt(N)" then
      mul2 ((λ row : tensor1, (λ n, 1 / (2.0 * sqrt n + stabilizer)) <$> row)
              <$> size_column support_set_size)
           similarity_sums
    else similarity_sums in
  Ret similarity_sums.

(** The operands of the similarity product, and the masked sums before the
    scaling step. *)
Definition similarity_operand (cfg : Config) (embedding : tensor3) : tensor3 :=
  if l2Norm (similarityModule cfg) then l2_normalize embedding else embedding.
Definition unscaled_similarity_sums (cfg : Config) (query_embedding
    support_set_embeddings : tensor3) (padding_mask : list (list bool)) : tensor2 :=
  sum_dim2 (mul3 (bmm (similarity_operand cfg query_embedding)
                      (transpose12 (similarity_operand cfg support_set_embeddings)))
                 (unsqueeze1 (mask_float padding_mask))).

(** The divisor the L2 step uses for one embedding vector. *)
Definition l2_divisor (v : tensor1) : R :=
  if Req_dec_T (euclidean_norm v) 0 then 1 else euclidean_norm v.

Definition without_l2Norm (cfg : Config) : Config :=
  {| encoder := encoder cfg;
     associationSpace_dim := associationSpace_dim cfg;
     layerNormBlock := layerNormBlock cfg;
     transformer_cfg := transformer_cfg cfg;
     similarityModule := {| l2Norm := false;
                            scaling := scaling (similarityModule cfg) |} |}.

(** The shape of the returned value, when there is one. *)
Definition result_shape (r : pyresult tensor2) : option (list nat) :=
  match r with
  | Ret t => Some (shape_of2 t)
  | Raise _ => None
  end.

(** A vector followed by [min w (length v)] copies of the constant [c]: what
    appending [c * ones_like(v[:w])] produces. *)
Definition append_encoding (w : nat) (c : R) (v : tensor1) : tensor1 :=
  v ++ replicate (min w (length v)) c.

(** ** Concrete configurations and inputs used below *)

Definition sigmoid_cfg : Config :=
  {| encoder := {| activation := "sigmoid"; input_dim := 2248;
                   number_hidden_neurons := 1024; number_hidden_layers := 0;
                   input_dropout := 0.1; dropout := 0.5 |};
     associationSpace_dim := 1024;
     layerNormBlock := {| usage := true; affine := false |};
     transformer_cfg := {| activity_embedding_dim := 64; number_heads := 8;
                           dim_forward := 567; num_layers := 1;
                           transformer_dropout := 0.5 |};
     similarityModule := {| l2Norm := true; scaling := "1/N" |} |}.

(** A configuration with association-space dimension [D], activity
    encoding width [w], and the given similarity settings. *)
Definition small_cfg (D w : nat) (l2 : bool) (policy : string) : Config :=
  {| encoder := {| activation := "relu"; input_dim := 4;
                   number_hidden_neurons := 3; number_hidden_layers := 2;
                   input_dropout := 0.1; dropout := 0.5 |};
     associationSpace_dim := D;
     layerNormBlock := {| usage := false; affine := false |};
     transformer_cfg := {| activity_embedding_dim := w; number_heads := 1;
                           dim_forward := 4; num_layers := 1;
                           transformer_dropout := 0 |};
     similarityModule := {| l2Norm := l2; scaling := policy |} |}.

(** An encoder configuration whose activation name is in neither table. *)
Definition tanh_cfg : Config :=
  {| encoder := {| activation := "tanh"; input_dim := 4;
                   number_hidden_neurons := 3; number_hidden_layers := 2;
                   input_dropout := 0.1; dropout := 0.5 |};
     associationSpace_dim := 2;
     layerNormBlock := {| usage := false; affine := false |};
     transformer_cfg := {| activity_embedding_dim := 1; number_heads := 1;
                           dim_forward := 4; num_layers := 1;
                           transformer_dropout := 0 |};
     similarityModule := {| l2Norm := false; scaling := "1/N" |} |}.

(** Evaluation of a tensor expression down to its real entries. *)
Ltac eval_tensor :=
  cbv -[Rplus Rmult Rdiv Rinv Rminus Ropp IZR INR sqrt Req_dec_T];
  simpl INR.

(** ** EncoderBlock.forward (evaluation mode)

    The learned parameters of a [nn.Linear] layer: a weight matrix with one
    row per output feature, and a bias.  In evaluation mode [nn.Dropout] and
    [nn.AlphaDropout] return their input. *)
Record LinearWeights : Type := {
  weight : tensor2;
  bias : tensor1
}.

(** [x @ weight.T + bias] on a batch of rows: output feature [j] is the dot
    product of the input row with row [j] of the weight, plus [bias[j]]. *)
Definition Linear_forward (w : LinearWeights) (x : tensor2) : tensor2 :=
  (λ row : tensor1, zip_with Rplus ((λ wrow : tensor1, dot row wrow) <$> weight w)
                             (bias w)) <$> x.

Definition selu_alpha : R := 1.6732632423543772848170429916717.
Definition selu_scale : R := 1.0507009873554804934193349852946.

(** [nn.ReLU], [nn.SELU] and [nn.Sigmoid] on one entry. *)
Definition activation_apply (a : Activation) (x : R) : R :=
  match a with
  | ReLU => Rmax 0 x
  | SELU => selu_scale * (Rmax 0 x + Rmin 0 (selu_alpha * (exp x - 1)))
  | Sigmoid => 1 / (1 + exp (- x))
  end.

Definition Activation_forward (a : Activation) (x : tensor2) : tensor2 :=
  (λ row : tensor1, activation_apply a <$> row) <$> x.

Definition Dropout_forward_eval (d : DropoutLayer) (x : tensor2) : tensor2 := x.

(** The parameters of [fc], of the layers of [hidden_linear_layers] (in
    order) and of [fc_o]. *)
Record EncoderWeights : Type := {
  w_fc : LinearWeights;
  w_hidden : list LinearWeights;
  w_fc_o : LinearWeights
}.

(** One round of the loop over [zip(hidden_dropout_layers,
    hidden_linear_layers, hidden_activations)]. *)
Definition hidden_round (x : tensor2)
    (layer : DropoutLayer * LinearWeights * Activation) : tensor2 :=
  let x := Dropout_forward_eval layer.1.1 x in
  let x := Linear_forward layer.1.2 x in
  Activation_forward layer.2 x.

Definition EncoderBlock_forward_eval (self : EncoderBlock) (weights : EncoderWeights)
    (molecule_representation : tensor2) : tensor2 :=
  let x := Dropout_forward_eval (enc_dropout self) molecule_representation in
  let x := Linear_forward (w_fc weights) x in
  let x := Activation_forward (enc_act self) x in
  let x := foldl hidden_round x
             (zip (zip (hidden_dropout_layers self) (w_hidden weights))
                  (hidden_activations self)) in
  let x := Dropout_forward_eval (dropout_o self) x in
  let x := Linear_forward (w_fc_o weights) x in
  Activation_forward (act_o self) x.

(** The weights have the sizes the layers were declared with. *)
Definition Linear_fits (l : Linear) (w : LinearWeights) : Prop :=
  has_shape2 (weight w) (out_features l) (in_features l) ∧
  length (bias w) = out_features l.
Definition weights_fit (self : EncoderBlock) (weights : EncoderWeights) : Prop :=
  Linear_fits (enc_fc self) (w_fc weights) ∧
  Forall2 Linear_fits (hidden_linear_layers self) (w_hidden weights) ∧
  Linear_fits (fc_o self) (w_fc_o weights).

(** A configuration with the given encoder activation and hidden-layer
    count, and fixed small sizes. *)
Definition encoder_cfg (act : string) (layers : nat) : Config :=
  {| encoder := {| activation := act; input_dim := 2;
                   number_hidden_neurons := 2; number_hidden_layers := layers;
                   input_dropout := 0.1; dropout := 0.5 |};
     associationSpace_dim := 1;
     layerNormBlock := {| usage := true; affine := true |};
     transformer_cfg := {| activity_embedding_dim := 1; number_heads := 1;
                           dim_forward := 4; num_layers := 1;
                           transformer_dropout := 0 |};
     similarityModule := {| l2Norm := true; scaling := "1/N" |} |}.

(** Weights for an encoder with the sizes of [encoder_cfg _ 1]. *)
Definition small_encoder_weights : EncoderWeights :=
  {| w_fc := {| weight := [[1; 0]; [0; 1]]; bias := [0; 0] |};
     w_hidden := [{| weight := [[1; 1]; [1; -1]]; bias := [0; 1] |}];
     w_fc_o := {| weight := [[1; -1]]; bias := [0] |} |}.

(** What the block built by [__init__] applies to each of its inputs. *)
Definition block_normalisation (cfg : Config) (t : tensor3) : tensor3 :=
  if usage (layerNormBlock cfg)
  then LayerNorm_forward
         (LayerNorm_init (associationSpace_dim cfg) (affine (layerNormBlock cfg))) t
  else t.

(** ** SimilarityModule in binary32 arithmetic

    [torch] tensors are [float32] unless told otherwise: the scorer's
    arithmetic is IEEE 754 binary32, with rounding to nearest even, signed
    zeros, infinities and NaN.  The embedding below repeats the scorer over
    the Standard Library's executable specification of that arithmetic
    ([spec_float], precision 24, infinities at exponent 128).

    Sums and dot products accumulate in index order from [+0]; [torch] fixes
    no accumulation order, and a statement below that names a sum means the
    sum in this order.  On the concrete inputs evaluated below every sum is
    exact, so that every order gives the same value.  Support-set sizes
    enter as natural numbers and are converted to binary32. *)

Module Float32.

Definition prec : Z := 24.
Definition emax : Z := 128.

Abbreviation tensor1 := (list spec_float).
Abbreviation tensor2 := (list (list spec_float)).
Abbreviation tensor3 := (list (list (list spec_float))).

Definition add : spec_float → spec_float → spec_float := SFadd prec emax.
Definition mul : spec_float → spec_float → spec_float := SFmul prec emax.
Definition div : spec_float → spec_float → spec_float := SFdiv prec emax.
Definition sqrt : spec_float → spec_float := SFsqrt prec emax.

(** [x == y] on floats: false as soon as one side is NaN, true on zeros of
    either sign. *)
Definition eqb : spec_float → spec_float → bool := SFeqb.

(** An integer as the nearest binary32 value. *)
Definition of_Z (z : Z) : spec_float := binary_normalize prec emax z 0 false.
Definition of_nat (n : nat) : spec_float := of_Z (Z.of_nat n).

Definition zero : spec_float := S754_zero false.
Definition one : spec_float := of_Z 1.
Definition two : spec_float := of_Z 2.

(** A Python float is a binary64 value; [torch.tensor(x)] and [.float()]
    round it to binary32. *)
Definition double_of_Z (z : Z) : spec_float := binary_normalize 53 1024 z 0 false.
Definition of_double (x : spec_float) : spec_float :=
  match x with
  | S754_finite s m e => binary_round prec emax s m e
  | _ => x
  end.

(** The Python literal [1e-8]: the binary64 value nearest to [1/10^8]. *)
Definition literal_1e_8 : spec_float :=
  SFdiv 53 1024 (double_of_Z 1) (double_of_Z 100000000).

Definition is_nan (x : spec_float) : bool :=
  match x with S754_nan => true | _ => false end.
Definition is_zero (x : spec_float) : bool :=
  match x with S754_zero _ => true | _ => false end.
(** [torch.isfinite]. *)
Definition is_finite (x : spec_float) : bool :=
  match x with S754_zero _ | S754_finite _ _ _ => true | _ => false end.
(** Plus zero, a positive finite value or plus infinity. *)
Definition is_nonneg (x : spec_float) : bool :=
  match x with
  | S754_zero false | S754_infinity false | S754_finite false _ _ => true
  | _ => false
  end.
(** The value is one a binary32 tensor can hold. *)
Definition representable (x : spec_float) : bool := valid_binary prec emax x.

Definition fsum (v : tensor1) : spec_float := foldl add zero v.
Definition dot (u v : tensor1) : spec_float := fsum (zip_with mul u v).

Definition matmul (x y : tensor2) : tensor2 :=
  (λ u : tensor1, dot u <$> transpose zero y) <$> x.
Definition bmm (x y : tensor3) : tensor3 := zip_with matmul x y.
Definition transpose12 (t : tensor3) : tensor3 := transpose zero <$> t.

Definition map3 (f : spec_float → spec_float) (t : tensor3) : tensor3 :=
  (λ row : tensor2, (λ v : tensor1, f <$> v) <$> row) <$> t.

(** [t.pow(2).sum(dim=2).sqrt()], [torch.unsqueeze(t, 2)],
    [t[t == 0] = c], and [t / d] with [d] broadcast along a last axis of
    size one. *)
Definition euclidean_norm (v : tensor1) : spec_float :=
  sqrt (fsum ((λ x, mul x x) <$> v)).
Definition norm_dim2 (t : tensor3) : tensor2 :=
  (λ row : tensor2, euclidean_norm <$> row) <$> t.
Definition unsqueeze2 (t : tensor2) : tensor3 :=
  (λ row : tensor1, (λ x, [x]) <$> row) <$> t.
Definition fill_where_zero (c : spec_float) (t : tensor3) : tensor3 :=
  map3 (λ x, if eqb x zero then c else x) t.
Definition div_last (v d : tensor1) : tensor1 :=
  match d with
  | [c] => (λ x, div x c) <$> v
  | _ => zip_with div v d
  end.
Definition div3 (t d : tensor3) : tensor3 := zip_with (zip_with div_last) t d.

(** The optional L2 normalisation of one operand. *)
Definition l2_div (embedding : tensor3) : tensor3 :=
  fill_where_zero one (unsqueeze2 (norm_dim2 embedding)).
Definition l2_normalize (embedding : tensor3) : tensor3 :=
  div3 embedding (l2_div embedding).

(** [padding_mask.bool().float()]. *)
Definition mask_float (padding_mask : list (list bool)) : tensor2 :=
  (λ row : list bool, (λ m : bool, if m then one else zero) <$> row) <$> padding_mask.
Definition mul3 (x y : tensor3) : tensor3 :=
  zip_with (zip_with (zip_with mul)) x y.
Definition mul2 (x y : tensor2) : tensor2 := zip_with (zip_with mul) x y.
Definition sum_dim2 (t : tensor3) : tensor2 := (λ row : tensor2, fsum <$> row) <$> t.

(** [torch.tensor(1e-8).float()]. *)
Definition stabilizer : spec_float := of_double literal_1e_8.

(** [support_set_size.reshape(-1, 1)], the sizes as binary32 values. *)
Definition size_column (support_set_size : list nat) : tensor2 :=
  (λ n : nat, [of_nat n]) <$> support_set_size.

Definition SimilarityModule
    (query_embedding support_set_embeddings : tensor3)
    (padding_mask : list (list bool)) (support_set_size : list nat)
    (cfg : Config) : pyresult tensor2 :=
  let query_embedding :=
    if l2Norm (similarityModule cfg) then l2_normalize query_embedding
    else query_embedding in
  let support_set_embeddings :=
    if l2Norm (similarityModule cfg) then l2_normalize support_set_embeddings
    else support_set_embeddings in
  let similarities := bmm query_embedding (transpose12 support_set_embeddings) in
  let mask := unsqueeze1 (mask_float padding_mask) in
  let similarities := mul3 similarities mask in
  let similarity_sums := sum_dim2 similarities in
  let similarity_sums :=
    if String.eqb (scaling (similarityModule cfg)) "1/N" then
      mul2 ((λ row : tensor1, (λ n, div one (add (mul two n) stabilizer)) <$> row)
              <$> size_column support_set_size)
           similarity_sums
    else similarity_sums in
  let similarity_sums :=
    if String.eqb (scaling (similarityModule cfg)) "1/sqrt(N)" then
      mul2 ((λ row : tensor1,
               (λ n, div one (add (mul two (sqrt n)) stabilizer)) <$> row)
              <$> size_column support_set_size)
           similarity_sums
    else similarity_sums in
  Ret similarity_sums.

(** The operands of the similarity product. *)
Definition similarity_operand (cfg : Config) (embedding : tensor3) : tensor3 :=
  if l2Norm (similarityModule cfg) then l2_normalize embedding else embedding.

(** The masked sums before the scaling step. *)
Definition unscaled_similarity_sums (cfg : Config) (query_embedding
    support_set_embeddings : tensor3) (padding_mask : list (list bool)) : tensor2 :=
  sum_dim2 (mul3 (bmm (similarity_operand cfg query_embedding)
                      (transpose12 (similarity_operand cfg support_set_embeddings)))
                 (unsqueeze1 (mask_float padding_mask))).

(** The similarities of one query with the support vectors of its task, the
    mask of the task as floats, and the sum the scorer forms from the two. *)
Definition similarities (query : tensor1) (support : tensor2) : tensor1 :=
  dot query <$> support.
Definition mask_values (mask_row : list bool) : tensor1 :=
  (λ m : bool, if m then one else zero) <$> mask_row.
Definition masked_similarity_sum (query : tensor1) (support : tensor2)
    (mask_row : list bool) : spec_float :=
  fsum (zip_with mul (similarities query support) (mask_values mask_row)).

(** The sum of the similarities at the slots the padding mask keeps. *)
Definition unmasked_similarity_sum (query : tensor1) (support : tensor2)
    (mask_row : list bool) : spec_float :=
  fsum (fst <$> List.filter (λ sm : spec_float * bool, sm.2)
                            (zip (similarities query support) mask_row)).

(** The factors of the two scaling policies for a support set of size [N]. *)
Definition scale_N (N : nat) : spec_float :=
  div one (add (mul two (of_nat N)) stabilizer).
Definition scale_sqrtN (N : nat) : spec_float :=
  div one (add (mul two (sqrt (of_nat N))) stabilizer).

(** Equal, or zeros that differ in sign at most. *)
Definition same_value (x y : spec_float) : Prop :=
  x = y ∨ (is_zero x = true ∧ is_zero y = true).

(** Every entry is a value a binary32 tensor can hold. *)
Definition representable3 (t : tensor3) : Prop :=
  Forall (Forall (Forall (λ x, representable x = true))) t.

(** Every similarity at a padded slot is finite. *)
Definition finite_where_padded (sims : tensor1) (mask_row : list bool) : Prop :=
  Forall (λ sm : spec_float * bool, sm.2 = false → is_finite sm.1 = true)
         (zip sims mask_row).

End Float32.

(* ===================================================================== *)
(** * Part II: properties *)
(* ===================================================================== *)

Close Scope R_scope.

(** ** Lists, rows and shapes *)

Lemma const_fmap_replicate {A B : Type} (c : B) (l : list A) :
  (λ _, c) <$> l = replicate (length l) c.
Proof. induction l as [|x l IH]; simpl; [done|]. f_equal. exact IH. Qed.

Lemma zip_with_fmap_same {A B C : Type} (f : A → B → C) (g : A → B) (l : list A) :
  zip_with f l (g <$> l) = (λ x, f x (g x)) <$> l.
Proof. induction l as [|x l IH]; simpl; [done|]. f_equal. exact IH. Qed.

Lemma fmap_seq_lookup {A : Type} (d : A) (l : list A) :
  (λ j, nth j l d) <$> seq 0 (length l) = l.
Proof.
  apply list_eq. intros j. rewrite list_lookup_fmap.
  destruct (decide (j < length l)) as [Hj|Hj].
  - rewrite lookup_seq_lt by done. simpl. rewrite nth_lookup.
    destruct (lookup_lt_is_Some_2 l j Hj) as [x Hx]. by rewrite Hx.
  - rewrite lookup_seq_ge, lookup_ge_None_2 by lia. done.
Qed.

Lemma lookup_cat_dim1 {A : Type} (x y : list (list A)) (b : nat) rx ry :
  x !! b = Some rx → y !! b = Some ry → cat_dim1 x y !! b = Some (rx ++ ry).
Proof.
  intros Hx Hy. unfold cat_dim1. rewrite lookup_zip_with, Hx. simpl.
  rewrite Hy. reflexivity.
Qed.

Lemma length_cat_dim1 {A : Type} (x y : list (list A)) :
  length (cat_dim1 x y) = min (length x) (length y).
Proof. apply length_zip_with. Qed.

Lemma has_shape2_lookup {A : Type} (t : list (list A)) B P b :
  has_shape2 t B P → b < B → ∃ row, t !! b = Some row ∧ length row = P.
Proof.
  intros [Hlen Hrows] Hb.
  destruct (lookup_lt_is_Some_2 t b) as [row Hrow]; [lia|].
  exists row. split; [done|]. eapply (Forall_lookup_1 _ _ _ _ Hrows Hrow).
Qed.

Lemma has_shape3_lookup {A : Type} (t : list (list (list A))) B P D b :
  has_shape3 t B P D → b < B →
  ∃ row, t !! b = Some row ∧ length row = P ∧ Forall (λ v, length v = D) row.
Proof.
  intros [Hlen Hrows] Hb.
  destruct (lookup_lt_is_Some_2 t b) as [row Hrow]; [lia|].
  exists row. split; [done|]. apply (Forall_lookup_1 _ _ _ _ Hrows Hrow).
Qed.

Lemma has_shape2_intro {A : Type} (t : list (list A)) B P :
  length t = B → (∀ b row, t !! b = Some row → length row = P) → has_shape2 t B P.
Proof. intros Hlen Hrows. split; [done|]. apply Forall_lookup_2, Hrows. Qed.

Lemma has_shape3_intro {A : Type} (t : list (list (list A))) B P D :
  length t = B →
  (∀ b row, t !! b = Some row → length row = P ∧ Forall (λ v, length v = D) row) →
  has_shape3 t B P D.
Proof. intros Hlen Hrows. split; [done|]. apply Forall_lookup_2, Hrows. Qed.

Lemma has_shape3_outer {A : Type} (t : list (list (list A))) B P D :
  has_shape3 t B P D → has_shape2 t B P.
Proof.
  intros [Hlen Hrows]. split; [done|].
  eapply Forall_impl; [exact Hrows|]. by intros row [Hrow _].
Qed.

Lemma shape1_nonempty {A : Type} (t : list (list A)) B P :
  has_shape2 t (S B) P → shape1 t = P.
Proof.
  intros [Hlen Hrows]. destruct t as [|row t]; [done|].
  unfold shape1. simpl. by inversion Hrows.
Qed.

Lemma at2_lt {A : Type} (t : list (list A)) B P b k v :
  has_shape2 t B P → at2 t b k = Some v → b < B ∧ k < P.
Proof.
  intros [Hlen Hrows] Hv. unfold at2 in Hv.
  destruct (t !! b) as [row|] eqn:Hrow; [|done]. simpl in Hv. split.
  - apply lookup_lt_Some in Hrow. lia.
  - apply lookup_lt_Some in Hv.
    by rewrite (Forall_lookup_1 _ _ _ _ Hrows Hrow) in Hv.
Qed.

Lemma at2_ge_None {A : Type} (t : list (list A)) R C i j :
  has_shape2 t R C → R ≤ i ∨ C ≤ j → at2 t i j = None.
Proof.
  intros [Hlen Hrows] Hout. unfold at2.
  destruct (t !! i) as [row|] eqn:Hrow; [|done]. simpl.
  apply lookup_ge_None_2. rewrite (Forall_lookup_1 _ _ _ _ Hrows Hrow).
  apply lookup_lt_Some in Hrow. lia.
Qed.

Lemma at2_cat3 {A : Type} (x y z : list (list A)) B Py Pz b :
  has_shape2 x B 1 → has_shape2 y B Py → has_shape2 z B Pz → b < B →
  let c := cat_dim1 (cat_dim1 x y) z in
  at2 c b 0 = at2 x b 0 ∧
  (∀ k, k < Py → at2 c b (1 + k) = at2 y b k) ∧
  (∀ k, k < Pz → at2 c b (1 + Py + k) = at2 z b k).
Proof.
  intros Hx Hy Hz Hb c.
  destruct (has_shape2_lookup _ _ _ _ Hx Hb) as (rx & Hrx & Hlx).
  destruct (has_shape2_lookup _ _ _ _ Hy Hb) as (ry & Hry & Hly).
  destruct (has_shape2_lookup _ _ _ _ Hz Hb) as (rz & Hrz & Hlz).
  assert (c !! b = Some ((rx ++ ry) ++ rz)) as Hc.
  { by apply lookup_cat_dim1; [apply lookup_cat_dim1|]. }
  unfold at2. rewrite Hc, Hrx, Hry, Hrz. simpl.
  destruct rx as [|x0 [|? ?]]; try done. simpl.
  split; [done|]. split; intros k Hk.
  - apply lookup_app_l. lia.
  - rewrite lookup_app_r by lia. f_equal. lia.
Qed.

Lemma has_shape2_fmap_rows {A C : Type} (g : list A → list C) t B P P' :
  (∀ row, length row = P → length (g row) = P') →
  has_shape2 t B P → has_shape2 (g <$> t) B P'.
Proof.
  intros Hg [Hlen Hrows]. split; [by rewrite length_fmap|].
  apply Forall_fmap. eapply Forall_impl; [exact Hrows|]. exact Hg.
Qed.

Lemma has_shape2_zip_with_rows {A C E : Type} (f : list A → list C → list E)
    x y B P1 P2 P3 :
  (∀ r r', length r = P1 → length r' = P2 → length (f r r') = P3) →
  has_shape2 x B P1 → has_shape2 y B P2 → has_shape2 (zip_with f x y) B P3.
Proof.
  intros Hf [Hlx Hx] [Hly Hy]. apply has_shape2_intro.
  - rewrite length_zip_with. lia.
  - intros b row Hrow. apply lookup_zip_with_Some in Hrow as (r & r' & -> & Hr & Hr').
    apply Hf.
    + apply (Forall_lookup_1 _ _ _ _ Hx Hr).
    + apply (Forall_lookup_1 _ _ _ _ Hy Hr').
Qed.

Lemma has_shape2_zip_with_l {A C E : Type} (f : list A → C → list E) x y B P P' :
  (∀ r r', length r = P → length (f r r') = P') →
  has_shape2 x B P → length y = B → has_shape2 (zip_with f x y) B P'.
Proof.
  intros Hf [Hlx Hx] Hly. apply has_shape2_intro.
  - rewrite length_zip_with. lia.
  - intros b row Hrow. apply lookup_zip_with_Some in Hrow as (r & r' & -> & Hr & Hr').
    apply Hf, (Forall_lookup_1 _ _ _ _ Hx Hr).
Qed.

Lemma has_shape3_add3 (x y : tensor3) B P D :
  has_shape3 x B P D → has_shape3 y B P D → has_shape3 (add3 x y) B P D.
Proof.
  intros [Hlx Hx] [Hly Hy]. apply has_shape3_intro.
  - unfold add3. rewrite length_zip_with. lia.
  - intros b row Hrow. unfold add3 in Hrow.
    apply lookup_zip_with_Some in Hrow as (r & r' & -> & Hr & Hr').
    destruct (Forall_lookup_1 _ _ _ _ Hx Hr) as [Hlr Hvr].
    destruct (Forall_lookup_1 _ _ _ _ Hy Hr') as [Hlr' Hvr'].
    split; [rewrite length_zip_with; lia|].
    apply Forall_lookup_2. intros j v Hv.
    apply lookup_zip_with_Some in Hv as (u & u' & -> & Hu & Hu').
    unfold vadd. rewrite length_zip_with.
    rewrite (Forall_lookup_1 _ _ _ _ Hvr Hu), (Forall_lookup_1 _ _ _ _ Hvr' Hu'). lia.
Qed.

Lemma at2_add3 (x y : tensor3) (b j : nat) u v :
  at2 x b j = Some u → at2 y b j = Some v → at2 (add3 x y) b j = Some (vadd u v).
Proof.
  unfold at2, add3. intros Hu Hv. rewrite lookup_zip_with.
  destruct (x !! b) as [rx|]; [|done]. destruct (y !! b) as [ry|]; [|done].
  simpl in *. rewrite lookup_zip_with, Hu. simpl. by rewrite Hv.
Qed.

Lemma at2_add3_bind (x y : tensor3) (b j : nat) :
  at2 (add3 x y) b j
  = at2 x b j ≫= λ u, at2 y b j ≫= λ v, Some (vadd u v).
Proof.
  unfold at2, add3. rewrite lookup_zip_with.
  destruct (x !! b) as [rx|]; [|done]. simpl.
  destruct (y !! b) as [ry|]; simpl.
  - by rewrite lookup_zip_with.
  - by destruct (rx !! j).
Qed.

Lemma at2_slice_dim2_to {A : Type} (w : nat) (t : list (list (list A))) (b k : nat) :
  at2 (slice_dim2_to w t) b k = take w <$> at2 t b k.
Proof.
  unfold at2, slice_dim2_to. rewrite list_lookup_fmap.
  destruct (t !! b) as [row|]; simpl; [|done]. by rewrite list_lookup_fmap.
Qed.

Lemma index_dim1_ext {A : Type} (k : nat) (t t' : list (list (list A))) :
  length t = length t' → (∀ b, at2 t b k = at2 t' b k) →
  index_dim1 k t = index_dim1 k t'.
Proof.
  intros Hlen Hat. unfold index_dim1. apply list_eq. intros b.
  rewrite !list_lookup_fmap. specialize (Hat b). unfold at2 in Hat.
  destruct (t !! b) as [row|] eqn:Hrow, (t' !! b) as [row'|] eqn:Hrow'; simpl in *.
  - by rewrite !nth_lookup, Hat.
  - apply lookup_lt_Some in Hrow. apply lookup_ge_None in Hrow'. lia.
  - apply lookup_lt_Some in Hrow'. apply lookup_ge_None in Hrow. lia.
  - done.
Qed.

Lemma shape2_eq {A : Type} (t t' : list (list (list A))) B P D :
  has_shape3 t B P D → has_shape3 t' B P D → shape2 t = shape2 t'.
Proof.
  intros [Hlen Hrows] [Hlen' Hrows']. unfold shape2.
  destruct t as [|row t], t' as [|row' t']; simpl in *; try lia.
  apply Forall_inv in Hrows as [Hrow Hvs]. apply Forall_inv in Hrows' as [Hrow' Hvs'].
  destruct row as [|v row], row' as [|v' row']; simpl in *; try lia.
  apply Forall_inv in Hvs. apply Forall_inv in Hvs'. lia.
Qed.

Lemma at2_slice_dim1 {A : Type} (lo hi : nat) (t : list (list A)) (b k : nat) :
  k < hi - lo → at2 (slice_dim1 lo hi t) b k = at2 t b (lo + k).
Proof.
  intros Hk. unfold at2, slice_dim1. rewrite list_lookup_fmap.
  destruct (t !! b) as [row|]; simpl; [|done].
  rewrite lookup_take_lt by done. apply lookup_drop.
Qed.

Lemma at2_slice_dim1_from {A : Type} (lo : nat) (t : list (list A)) (b k : nat) :
  at2 (slice_dim1_from lo t) b k = at2 t b (lo + k).
Proof.
  unfold at2, slice_dim1_from. rewrite list_lookup_fmap.
  destruct (t !! b) as [row|]; simpl; [|done]. apply lookup_drop.
Qed.

Lemma at2_unsqueeze_index (t : tensor3) (b : nat) v :
  at2 t b 0 = Some v → at2 (unsqueeze1 (index_dim1 0 t)) b 0 = Some v.
Proof.
  unfold at2, unsqueeze1, index_dim1. rewrite !list_lookup_fmap.
  destruct (t !! b) as [row|]; simpl; [|done].
  destruct row as [|v' row]; simpl; congruence.
Qed.

Lemma has_shape3_unsqueeze_index (t : tensor3) B P D :
  has_shape3 t B (S P) D → has_shape3 (unsqueeze1 (index_dim1 0 t)) B 1 D.
Proof.
  intros [Hlen Hrows]. unfold unsqueeze1, index_dim1. split.
  - by rewrite !length_fmap.
  - apply Forall_fmap, Forall_fmap. eapply Forall_impl; [exact Hrows|].
    intros row [Hrow Hvs]. simpl. split; [done|].
    destruct row as [|v row]; [done|]. inversion Hvs. by repeat constructor.
Qed.

Lemma has_shape3_slice_dim1 {A : Type} (lo len : nat) (t : list (list (list A))) B P D :
  lo + len ≤ P → has_shape3 t B P D → has_shape3 (slice_dim1 lo (len + lo) t) B len D.
Proof.
  intros Hle [Hlen Hrows]. unfold slice_dim1. split; [by rewrite length_fmap|].
  apply Forall_fmap. eapply Forall_impl; [exact Hrows|].
  intros row [Hrow Hvs]. simpl. split.
  - rewrite length_take, length_drop. lia.
  - by apply Forall_take, Forall_drop.
Qed.

Lemma has_shape3_slice_dim1_from {A : Type} (lo : nat) (t : list (list (list A))) B P D :
  has_shape3 t B (lo + P) D → has_shape3 (slice_dim1_from lo t) B P D.
Proof.
  intros [Hlen Hrows]. unfold slice_dim1_from. split; [by rewrite length_fmap|].
  apply Forall_fmap. eapply Forall_impl; [exact Hrows|].
  intros row [Hrow Hvs]. simpl. split.
  - rewrite length_drop. lia.
  - by apply Forall_drop.
Qed.

(** ** Flattening, unflattening and transposition *)

Lemma unflatten_concat {A : Type} (t : list (list A)) (n : nat) :
  Forall (λ row, length row = n) t → unflatten (length t) n (concat t) = t.
Proof.
  induction 1 as [|row t Hrow _ IH]; simpl; [done|].
  rewrite (take_app_length' row), (drop_app_length' row) by exact (eq_sym Hrow).
  by rewrite IH.
Qed.

Lemma length_concat_rows {A : Type} (t : list (list A)) (n : nat) :
  Forall (λ row, length row = n) t → length (concat t) = length t * n.
Proof.
  induction 1 as [|row t Hrow _ IH]; simpl; [done|].
  rewrite length_app, IH, Hrow. lia.
Qed.

Lemma unflatten_zip_with {A C E : Type} (f : A → C → E) (d0 d1 : nat) x y :
  unflatten d0 d1 (zip_with f x y)
  = zip_with (zip_with f) (unflatten d0 d1 x) (unflatten d0 d1 y).
Proof.
  revert x y. induction d0 as [|d0 IH]; intros x y; simpl; [done|].
  by rewrite zip_with_take, zip_with_drop, IH.
Qed.

Lemma lookup_unflatten {A : Type} (d0 d1 : nat) (l : list A) (b : nat) :
  b < d0 → unflatten d0 d1 l !! b = Some (take d1 (drop (b * d1) l)).
Proof.
  revert l b. induction d0 as [|d0 IH]; intros l b Hb; [lia|].
  destruct b as [|b]; simpl; [done|].
  rewrite IH by lia. rewrite drop_drop. reflexivity.
Qed.

Lemma length_unflatten {A : Type} (d0 d1 : nat) (l : list A) :
  length (unflatten d0 d1 l) = d0.
Proof. revert l. induction d0 as [|d0 IH]; intros l; simpl; [done|]. by rewrite IH. Qed.

Lemma at2_unflatten {A : Type} (d0 d1 : nat) (l : list A) (b j : nat) :
  b < d0 → j < d1 → at2 (unflatten d0 d1 l) b j = l !! (b * d1 + j).
Proof.
  intros Hb Hj. unfold at2. rewrite lookup_unflatten by done. simpl.
  rewrite lookup_take_lt by done. apply lookup_drop.
Qed.

Lemma has_shape3_unflatten {A : Type} (d0 d1 D : nat) (l : list (list A)) :
  length l = d0 * d1 → Forall (λ v, length v = D) l →
  has_shape3 (unflatten d0 d1 l) d0 d1 D.
Proof.
  intros Hlen Hvs. apply has_shape3_intro; [apply length_unflatten|].
  intros b row Hrow.
  assert (b < d0) as Hb.
  { apply lookup_lt_Some in Hrow. by rewrite length_unflatten in Hrow. }
  rewrite lookup_unflatten in Hrow by done. injection Hrow as <-. split.
  - rewrite length_take, length_drop. nia.
  - by apply Forall_take, Forall_drop.
Qed.

Lemma has_shape2_transpose {A : Type} (d : A) (t : list (list A)) R C :
  has_shape2 t (S R) C → has_shape2 (transpose d t) C (S R).
Proof.
  intros Ht. pose proof (shape1_nonempty t R C Ht) as Hw. destruct Ht as [Hlen _].
  unfold transpose. rewrite Hw. split; [by rewrite length_fmap, length_seq|].
  apply Forall_fmap, Forall_forall. intros j _. simpl. by rewrite length_fmap.
Qed.

Lemma lookup_transpose {A : Type} (d : A) (t : list (list A)) R C b :
  has_shape2 t (S R) C → b < C →
  transpose d t !! b = Some ((λ row : list A, nth b row d) <$> t).
Proof.
  intros Ht Hb. unfold transpose. rewrite (shape1_nonempty t R C Ht).
  by rewrite list_lookup_fmap, lookup_seq_lt.
Qed.

Lemma at2_transpose {A : Type} (d : A) (t : list (list A)) R C i j :
  has_shape2 t (S R) C → i < S R → j < C →
  at2 (transpose d t) j i = at2 t i j.
Proof.
  intros Ht Hi Hj. pose proof (shape1_nonempty t R C Ht) as Hw.
  destruct (has_shape2_lookup t (S R) C i Ht Hi) as (row & Hrow & Hlen).
  unfold at2, transpose. rewrite Hw, list_lookup_fmap, lookup_seq_lt by done.
  simpl. rewrite list_lookup_fmap, Hrow. simpl. rewrite nth_lookup.
  destruct (lookup_lt_is_Some_2 row j) as [x Hx]; [lia|]. by rewrite Hx.
Qed.

(** Transposing twice gives a rectangular matrix of positive width back. *)
Lemma transpose_transpose {A : Type} (d : A) (m : list (list A)) (D : nat) :
  Forall (λ v, length v = D) m → 0 < D → transpose d (transpose d m) = m.
Proof.
  intros Hrect HD. destruct m as [|r0 m0] eqn:Hm; [done|]. rewrite <- Hm in *.
  assert (shape1 m = D) as Hw.
  { subst m. unfold shape1. simpl. by inversion Hrect. }
  assert (shape1 (transpose d m) = length m) as Hh.
  { unfold transpose. rewrite Hw. destruct D as [|D]; [lia|].
    unfold shape1. simpl. by rewrite length_fmap. }
  unfold transpose at 1. rewrite Hh. clear Hm.
  apply list_eq. intros i. rewrite list_lookup_fmap.
  destruct (decide (i < length m)) as [Hi|Hi].
  - rewrite lookup_seq_lt by done. simpl.
    destruct (lookup_lt_is_Some_2 m i Hi) as [ri Hri]. rewrite Hri. f_equal.
    unfold transpose. rewrite Hw, <- list_fmap_compose.
    transitivity ((λ j, nth j ri d) <$> seq 0 (length ri));
      [|apply fmap_seq_lookup].
    rewrite (Forall_lookup_1 _ _ _ _ Hrect Hri).
    apply list_fmap_ext. intros _ j _. simpl.
    rewrite (nth_lookup (_ <$> m)), list_lookup_fmap, Hri. done.
  - rewrite lookup_seq_ge, lookup_ge_None_2 by lia. done.
Qed.

(** ** The encoder and the two name mappings *)

Lemma dropout_mapping_lookup (name : string) :
  dropout_mapping !! name =
    if decide (name = "relu") then Some Dropout
    else if decide (name = "selu") then Some AlphaDropout
    else None.
Proof.
  unfold dropout_mapping.
  repeat case_decide; subst; simplify_map_eq; reflexivity.
Qed.

Lemma activation_function_mapping_None (name : string) :
  activation_function_mapping !! name = None ↔
  name ≠ "relu" ∧ name ≠ "selu" ∧ name ≠ "sigmoid".
Proof.
  unfold activation_function_mapping.
  rewrite !lookup_insert_None, lookup_singleton_None.
  intuition congruence.
Qed.

Lemma unknown_activation_not_in_dropout_mapping (name : string) :
  activation_function_mapping !! name = None → dropout_mapping !! name = None.
Proof.
  rewrite activation_function_mapping_None, dropout_mapping_lookup.
  intros (Hr & Hs & _). repeat case_decide; congruence.
Qed.

(** The first statement of [__init__] is the dropout lookup: when it has no
    entry for the activation name the constructor raises [KeyError]. *)
Lemma EncoderBlock_init_KeyError init_weights (cfg : Config) :
  dropout_mapping !! activation (encoder cfg) = None →
  EncoderBlock_init init_weights cfg = Raise (KeyError (activation (encoder cfg))).
Proof.
  intros Hnone. unfold EncoderBlock_init, py_getitem. rewrite Hnone. reflexivity.
Qed.

Lemma hidden_layers_relu (e : EncoderCfg) (n : nat) :
  activation e = "relu" →
  ∃ layers, hidden_layers e n = Ret layers ∧
            layers.1.1 = replicate n {| dropout_class := Dropout; p := dropout e |}.
Proof.
  intros Hact. induction n as [|n (layers & Hl & Hd)]; simpl.
  - eexists. split; reflexivity.
  - rewrite Hact. unfold py_getitem.
    replace (dropout_mapping !! "relu") with (Some Dropout) by reflexivity.
    replace (activation_function_mapping !! "relu") with (Some ReLU) by reflexivity.
    simpl. rewrite Hl. simpl. eexists. split; [reflexivity|].
    simpl. rewrite Hd. reflexivity.
Qed.

(** With the rectified-linear activation the constructor returns, and every
    regularisation layer is an ordinary dropout. *)
Lemma EncoderBlock_init_relu (cfg : Config) :
  activation (encoder cfg) = "relu" →
  ∃ blk, EncoderBlock_init (λ _, Ret ()) cfg = Ret blk ∧
         dropout_class (enc_dropout blk) = Dropout ∧
         dropout_class (dropout_o blk) = Dropout ∧
         enc_act blk = ReLU.
Proof.
  intros Hact. unfold EncoderBlock_init.
  destruct (hidden_layers_relu (encoder cfg) (number_hidden_layers (encoder cfg)) Hact)
    as (layers & Hl & _).
  rewrite Hl, Hact. unfold py_getitem.
  replace (dropout_mapping !! "relu") with (Some Dropout) by reflexivity.
  replace (activation_function_mapping !! "relu") with (Some ReLU) by reflexivity.
  simpl. eexists. repeat split.
Qed.

(** C4.  The activation table lists ["sigmoid"], the dropout table does not:
    constructing the encoder with the sigmoid activation stops at the first
    dropout lookup with [KeyError("sigmoid")], whatever the initialiser
    does; no encoder with a standard-dropout regularisation is built. *)
Theorem EncoderBlock_init_sigmoid_KeyError init_weights (cfg : Config) :
  activation (encoder cfg) = "sigmoid" →
  activation_function_mapping !! "sigmoid" = Some Sigmoid ∧
  dropout_mapping !! "sigmoid" = None ∧
  EncoderBlock_init init_weights cfg = Raise (KeyError "sigmoid").
Proof.
  intros Hact. split; [reflexivity|]. split; [reflexivity|].
  rewrite <- Hact. apply EncoderBlock_init_KeyError. rewrite Hact. reflexivity.
Qed.

Lemma EncoderBlock_init_sigmoid_KeyError_witness :
  EncoderBlock_init (λ _, Ret ()) sigmoid_cfg = Raise (KeyError "sigmoid").
Proof.
  apply (EncoderBlock_init_sigmoid_KeyError (λ _, Ret ()) sigmoid_cfg).
  reflexivity.
Defined.

(** ** The context module *)

Lemma ContextModule_stack_row (q a i : tensor3) b rq ra ri :
  q !! b = Some rq → a !! b = Some ra → i !! b = Some ri →
  ContextModule_stack q a i !! b = Some (rq ++ ra ++ ri).
Proof.
  intros Hq Ha Hi. unfold ContextModule_stack. rewrite app_assoc.
  by apply lookup_cat_dim1; [apply lookup_cat_dim1|].
Qed.

Lemma has_shape3_stack (q a i : tensor3) B Pa Pi D :
  has_shape3 q B 1 D → has_shape3 a B Pa D → has_shape3 i B Pi D →
  has_shape3 (ContextModule_stack q a i) B (1 + Pa + Pi) D.
Proof.
  intros Hq Ha Hi.
  assert (length (ContextModule_stack q a i) = B) as Hlen.
  { unfold ContextModule_stack. rewrite !length_cat_dim1.
    destruct Hq as [-> _], Ha as [-> _], Hi as [-> _]. lia. }
  apply has_shape3_intro; [done|]. intros b row Hrow.
  assert (b < B) as Hb by (apply lookup_lt_Some in Hrow; lia).
  destruct (has_shape3_lookup _ _ _ _ _ Hq Hb) as (rq & Hrq & Hlq & Hvq).
  destruct (has_shape3_lookup _ _ _ _ _ Ha Hb) as (ra & Hra & Hla & Hva).
  destruct (has_shape3_lookup _ _ _ _ _ Hi Hb) as (ri & Hri & Hli & Hvi).
  rewrite (ContextModule_stack_row _ _ _ _ _ _ _ Hrq Hra Hri) in Hrow.
  injection Hrow as <-. split.
  - rewrite !length_app. lia.
  - by rewrite !Forall_app.
Qed.

(** Flattening keeps the row vectors in row-major order, and unflattening
    to the input shape undoes it. *)
Lemma ContextModule_flatten_eq (s : tensor3) B N D :
  has_shape3 s B N D →
  length s * shape1 s = B * N ∧
  ContextModule_flatten s = [concat s] ∧
  reshape_rows B N (ContextModule_flatten s) = s.
Proof.
  intros Hs. pose proof (has_shape3_outer _ _ _ _ Hs) as [Hlen Hrows].
  assert (length s * shape1 s = B * N) as Hsize.
  { destruct B as [|B]; [rewrite Hlen; lia|].
    rewrite (shape1_nonempty s B N), Hlen; [done|by split]. }
  assert (ContextModule_flatten s = [concat s]) as Hflat.
  { unfold ContextModule_flatten, reshape_rows. simpl. f_equal.
    apply take_ge. rewrite (length_concat_rows _ N), Hsize, Hlen by done. lia. }
  repeat split; [done..|].
  rewrite Hflat. unfold reshape_rows. simpl. rewrite app_nil_r, <- Hlen.
  by apply unflatten_concat.
Qed.

(** The forward pass in terms of the retrieved rows [h]: the stacked input
    plus the retrieval regrouped per task, then split at the offsets [1]
    and [1 + P_a]. *)
Lemma ContextModule_forward_eq (self : ContextModule) (q a i ctx : tensor3)
    B Pa Pi D (h : tensor2) :
  has_shape3 q B 1 D → has_shape3 a B Pa D → has_shape3 i B Pi D →
  let s := ContextModule_stack q a i in
  hopfield self (ctx, ContextModule_flatten s, ctx) = [h] →
  let U := add3 s (unflatten B (1 + Pa + Pi) h) in
  ContextModule_forward self q a i ctx
  = (unsqueeze1 (index_dim1 0 U), slice_dim1 1 (Pa + 1) U, slice_dim1_from (Pa + 1) U).
Proof.
  intros Hq Ha Hi s Hh U.
  pose proof (has_shape3_stack q a i B Pa Pi D Hq Ha Hi) as Hs. fold s in Hs.
  destruct (ContextModule_flatten_eq s B _ D Hs) as (Hsize & Hflat & _).
  pose proof (has_shape3_outer _ _ _ _ Hs) as Hs2.
  assert (reshape_rows (length s) (shape1 s) (add3 (ContextModule_flatten s) [h]) = U)
    as HU.
  { rewrite Hflat. unfold add3, reshape_rows. simpl. rewrite app_nil_r.
    rewrite unflatten_zip_with. subst U. unfold add3.
    destruct B as [|B].
    - destruct Hs2 as [Hl _]. rewrite Hl. by destruct s.
    - rewrite (shape1_nonempty s B _ Hs2). destruct Hs2 as [Hl Hrows].
      rewrite (unflatten_concat s) by done. by rewrite Hl. }
  unfold ContextModule_forward. fold s. rewrite Hh, HU.
  destruct B as [|B].
  - assert (U = []) as ->; [|done].
    subst U. destruct Hs2 as [Hl _]. by destruct s.
  - by rewrite (shape1_nonempty a B Pa (has_shape3_outer _ _ _ _ Ha)).
Qed.

(** C5.  On inputs of the documented shapes, with a Hopfield layer that
    returns one retrieved vector per flattened position: the flattened
    sequence has shape [[1, B*(1+P_a+P_i), D]] and reshaping it back gives
    the stacked tensor again; the three returned tensors have the shapes
    [[B,1,D]], [[B,P_a,D]], [[B,P_i,D]] of the inputs; and the entry at every
    role-and-slot position is the input entry at that position plus the
    vector retrieved for its place [b*(1+P_a+P_i) + offset] in the
    flattened sequence. *)
Theorem ContextModule_forward_layout (self : ContextModule) (q a i ctx : tensor3)
    (B Pa Pi D : nat) :
  has_shape3 q B 1 D → has_shape3 a B Pa D → has_shape3 i B Pi D →
  let N := 1 + Pa + Pi in
  let s := ContextModule_stack q a i in
  let s_h := hopfield self (ctx, ContextModule_flatten s, ctx) in
  let out := ContextModule_forward self q a i ctx in
  has_shape3 s_h 1 (B * N) D →
  has_shape3 (ContextModule_flatten s) 1 (B * N) D ∧
  reshape_rows B N (ContextModule_flatten s) = s ∧
  has_shape3 out.1.1 B 1 D ∧ has_shape3 out.1.2 B Pa D ∧ has_shape3 out.2 B Pi D ∧
  (∀ b v r, at2 q b 0 = Some v → at2 s_h 0 (b * N) = Some r →
            at2 out.1.1 b 0 = Some (vadd v r)) ∧
  (∀ b k v r, at2 a b k = Some v → at2 s_h 0 (b * N + 1 + k) = Some r →
              at2 out.1.2 b k = Some (vadd v r)) ∧
  (∀ b k v r, at2 i b k = Some v → at2 s_h 0 (b * N + 1 + Pa + k) = Some r →
              at2 out.2 b k = Some (vadd v r)).
Proof.
  intros Hq Ha Hi N s s_h out Hsh.
  pose proof (has_shape3_stack q a i B Pa Pi D Hq Ha Hi) as Hs. fold s N in Hs.
  destruct (ContextModule_flatten_eq s B N D Hs) as (Hsize & Hflat & Hround).
  (* the retrieval is one row [h] of [B * N] vectors *)
  destruct Hsh as [Hl1 Hrow1].
  destruct s_h as [|h [|? ?]] eqn:Hh; try done.
  apply Forall_inv in Hrow1 as [Hlh Hvh]. subst s_h.
  pose proof (has_shape3_unflatten B N D h Hlh Hvh) as HH.
  pose proof (has_shape3_add3 _ _ _ _ _ Hs HH) as HU.
  set (U := add3 s (unflatten B N h)) in *.
  assert (out = (unsqueeze1 (index_dim1 0 U), slice_dim1 1 (Pa + 1) U,
                 slice_dim1_from (Pa + 1) U)) as ->.
  { subst out U. by apply (ContextModule_forward_eq self q a i ctx B Pa Pi D h). }
  simpl.
  (* entries of [U] *)
  assert (∀ b j u r, b < B → j < N → at2 s b j = Some u → h !! (b * N + j) = Some r →
                     at2 U b j = Some (vadd u r)) as HUat.
  { intros b j u r Hb Hj Hu Hr. apply at2_add3; [done|].
    by rewrite at2_unflatten. }
  pose proof (λ b Hb, at2_cat3 q a i B Pa Pi b (has_shape3_outer _ _ _ _ Hq)
                (has_shape3_outer _ _ _ _ Ha) (has_shape3_outer _ _ _ _ Hi) Hb)
    as Hcat. cbv zeta in Hcat. change (cat_dim1 (cat_dim1 q a) i) with s in Hcat.
  split.
  { rewrite Hflat. split; [done|]. repeat constructor.
    - rewrite (length_concat_rows s N); [by destruct Hs as [-> _]|].
      by destruct (has_shape3_outer _ _ _ _ Hs).
    - apply Forall_concat. destruct Hs as [_ Hs].
      eapply Forall_impl; [exact Hs|]. by intros row [_ Hrow]. }
  split; [done|].
  split; [by apply (has_shape3_unsqueeze_index U B (Pa + Pi) D)|].
  split; [apply (has_shape3_slice_dim1 1 Pa U B N D); [subst N; lia|done]|].
  split.
  { apply (has_shape3_slice_dim1_from (Pa + 1) U B Pi D).
    by replace (Pa + 1 + Pi) with N by (subst N; lia). }
  split; [|split].
  - intros b v r Hv Hr.
    destruct (at2_lt _ _ _ _ _ _ (has_shape3_outer _ _ _ _ Hq) Hv) as [Hb _].
    destruct (Hcat b Hb) as (Hcq & _ & _).
    apply at2_unsqueeze_index, HUat; [done|subst N; lia|by rewrite Hcq|].
    by rewrite Nat.add_0_r.
  - intros b k v r Hv Hr.
    destruct (at2_lt _ _ _ _ _ _ (has_shape3_outer _ _ _ _ Ha) Hv) as [Hb Hk].
    destruct (Hcat b Hb) as (_ & Hca & _).
    rewrite at2_slice_dim1 by lia.
    apply HUat; [done|subst N; lia|by rewrite Hca|].
    by rewrite Nat.add_assoc.
  - intros b k v r Hv Hr.
    destruct (at2_lt _ _ _ _ _ _ (has_shape3_outer _ _ _ _ Hi) Hv) as [Hb Hk].
    destruct (Hcat b Hb) as (_ & _ & Hci).
    rewrite at2_slice_dim1_from.
    replace (Pa + 1 + k) with (1 + Pa + k) by lia.
    apply HUat; [done|subst N; lia|by rewrite Hci|].
    by rewrite !Nat.add_assoc.
Qed.

Lemma ContextModule_forward_layout_witness :
  let self := {| hopfield := λ patterns, patterns.1.2 |} in
  let a := [[[5; 6]; [7; 8]]; [[9; 10]; [11; 12]]]%R in
  let out := ContextModule_forward self [[[1; 2]]; [[3; 4]]]%R a
               [[[13; 14]]; [[15; 16]]]%R [[[0; 1]; [1; 0]; [1; 1]]]%R in
  has_shape3 out.1.1 2 1 2 ∧ has_shape3 out.1.2 2 2 2 ∧ has_shape3 out.2 2 1 2 ∧
  at2 out.1.2 1 0 = Some (vadd [9; 10]%R [9; 10]%R).
Proof.
  intros self a out.
  destruct (ContextModule_forward_layout self [[[1; 2]]; [[3; 4]]]%R a
              [[[13; 14]]; [[15; 16]]]%R [[[0; 1]; [1; 0]; [1; 1]]]%R 2 2 1 2)
    as (_ & _ & Hq & Ha & Hi & _ & Hpos & _).
  - split; [reflexivity|]. repeat constructor.
  - split; [reflexivity|]. repeat constructor.
  - split; [reflexivity|]. repeat constructor.
  - split; [reflexivity|]. repeat constructor.
  - exact (conj Hq (conj Ha (conj Hi
             (Hpos 1 0 [9; 10]%R [9; 10]%R eq_refl eq_refl)))).
Defined.

(** ** The layer-normalising block *)

(** C10.  With the usage flag off, [forward] returns its three arguments
    unchanged (whether or not the inactive embedding is present, and
    whatever attributes the block has). *)
Theorem LayerNormalizingBlock_forward_disabled (self : LayerNormalizingBlock)
    (query_embedding support_actives_embedding : tensor3)
    (support_inactives_embedding : option tensor3) :
  usage (layerNormBlock (lnb_cfg self)) = false →
  LayerNormalizingBlock_forward self query_embedding support_actives_embedding
                                support_inactives_embedding
  = Ret (query_embedding, support_actives_embedding, support_inactives_embedding).
Proof.
  intros Hoff. unfold LayerNormalizingBlock_forward. rewrite Hoff. reflexivity.
Qed.

Lemma LayerNormalizingBlock_forward_disabled_witness :
  LayerNormalizingBlock_forward
    (LayerNormalizingBlock_init (small_cfg 2 1 false "1/N"))
    [[[1; 2]]]%R [[[3; 4]; [5; 6]]]%R (Some [[[7; 8]]]%R)
  = Ret ([[[1; 2]]], [[[3; 4]; [5; 6]]], Some [[[7; 8]]])%R.
Proof.
  apply (LayerNormalizingBlock_forward_disabled
           (LayerNormalizingBlock_init (small_cfg 2 1 false "1/N"))).
  reflexivity.
Defined.

(** The block built by [__init__] has its three layers exactly when the
    usage flag is set, so [forward] never misses an attribute on it. *)
Lemma LayerNormalizingBlock_forward_returns (cfg : Config) q a i :
  ∃ out, LayerNormalizingBlock_forward (LayerNormalizingBlock_init cfg) q a i = Ret out.
Proof.
  unfold LayerNormalizingBlock_forward, LayerNormalizingBlock_init.
  destruct (usage (layerNormBlock cfg)) eqn:Hu; simpl; rewrite Hu.
  - destruct i; simpl; eexists; reflexivity.
  - eexists; reflexivity.
Qed.

(** ** The cross-attention module: the activity encoding *)

Lemma cat_dim2_encoding (w : nat) (f : R → R) (c : R) (t : tensor3) :
  (∀ x, f x = c) →
  cat_dim2 t (map3 f (slice_dim2_to w t))
  = (λ row : tensor2, append_encoding w c <$> row) <$> t.
Proof.
  intros Hf. unfold cat_dim2, map3, slice_dim2_to.
  rewrite <- list_fmap_compose.
  rewrite (zip_with_fmap_same (zip_with app)).
  apply list_fmap_ext. intros _ row _. simpl.
  rewrite <- list_fmap_compose.
  rewrite (zip_with_fmap_same app).
  apply list_fmap_ext. intros _ v _. simpl.
  unfold append_encoding. f_equal.
  rewrite (list_fmap_ext f (λ _, c) (take w v)) by auto.
  rewrite const_fmap_replicate, length_take. reflexivity.
Qed.

Lemma query_with_encoding_rows (cfg : Config) (t : tensor3) :
  query_with_encoding cfg t =
  (λ row : tensor2,
     append_encoding (activity_embedding_dim (transformer_cfg cfg)) 0%R <$> row) <$> t.
Proof. apply cat_dim2_encoding. reflexivity. Qed.

Lemma actives_with_encoding_rows (cfg : Config) (t : tensor3) :
  actives_with_encoding cfg t =
  (λ row : tensor2,
     append_encoding (activity_embedding_dim (transformer_cfg cfg)) 1%R <$> row) <$> t.
Proof. apply cat_dim2_encoding. reflexivity. Qed.

Lemma inactives_with_encoding_rows (cfg : Config) (t : tensor3) :
  inactives_with_encoding cfg t =
  (λ row : tensor2,
     append_encoding (activity_embedding_dim (transformer_cfg cfg)) (-1)%R <$> row) <$> t.
Proof.
  unfold inactives_with_encoding, scalar_mul, ones_like.
  set (w := activity_embedding_dim (transformer_cfg cfg)).
  replace (map3 (Rmult (-1.0)) (map3 (λ _, 1%R) (slice_dim2_to w t)))
    with (map3 (λ _, (-1)%R) (slice_dim2_to w t)).
  { apply cat_dim2_encoding. reflexivity. }
  unfold map3. rewrite <- list_fmap_compose.
  apply list_fmap_ext. intros _ row _. simpl.
  rewrite <- list_fmap_compose.
  apply list_fmap_ext. intros _ v _. simpl.
  rewrite <- list_fmap_compose.
  apply list_fmap_ext. intros _ x _. simpl. lra.
Qed.

(** Row [b] of the sequence: the query, the actives and the inactives, each
    vector followed by its encoding block. *)
Lemma CrossAttention_sequence_row (cfg : Config) (q a i : tensor3) b rq ra ri :
  q !! b = Some rq → a !! b = Some ra → i !! b = Some ri →
  let w := activity_embedding_dim (transformer_cfg cfg) in
  CrossAttention_sequence cfg q a i !! b =
  Some ((append_encoding w 0%R <$> rq) ++ (append_encoding w 1%R <$> ra)
        ++ (append_encoding w (-1)%R <$> ri)).
Proof.
  intros Hq Ha Hi w. unfold CrossAttention_sequence.
  rewrite query_with_encoding_rows, actives_with_encoding_rows,
    inactives_with_encoding_rows.
  rewrite app_assoc.
  apply lookup_cat_dim1; [apply lookup_cat_dim1|];
    rewrite list_lookup_fmap; [rewrite Hq|rewrite Ha|rewrite Hi]; reflexivity.
Qed.

Lemma length_CrossAttention_sequence (cfg : Config) (q a i : tensor3) :
  length (CrossAttention_sequence cfg q a i)
  = min (min (length q) (length a)) (length i).
Proof.
  unfold CrossAttention_sequence, query_with_encoding, actives_with_encoding,
    inactives_with_encoding, cat_dim2, scalar_mul, ones_like, zeros_like, map3,
    slice_dim2_to.
  rewrite !length_cat_dim1, !length_zip_with, !length_fmap. lia.
Qed.

(** The feature width the sequence really has: [D + min w D].  It is the
    [D + w] that the transformer was built for exactly when [w <= D]. *)
Lemma CrossAttention_sequence_shape (cfg : Config) (q a i : tensor3) B Pa Pi D :
  has_shape3 q B 1 D → has_shape3 a B Pa D → has_shape3 i B Pi D →
  has_shape3 (CrossAttention_sequence cfg q a i) B (1 + Pa + Pi)
             (D + min (activity_embedding_dim (transformer_cfg cfg)) D).
Proof.
  intros Hq Ha Hi. apply has_shape3_intro.
  - rewrite length_CrossAttention_sequence.
    destruct Hq as [-> _], Ha as [-> _], Hi as [-> _]. lia.
  - intros b row Hrow.
    assert (b < B) as Hb.
    { apply lookup_lt_Some in Hrow. rewrite length_CrossAttention_sequence in Hrow.
      destruct Hq as [Hq _]. lia. }
    destruct (has_shape3_lookup _ _ _ _ _ Hq Hb) as (rq & Hrq & Hlq & Hvq).
    destruct (has_shape3_lookup _ _ _ _ _ Ha Hb) as (ra & Hra & Hla & Hva).
    destruct (has_shape3_lookup _ _ _ _ _ Hi Hb) as (ri & Hri & Hli & Hvi).
    rewrite (CrossAttention_sequence_row cfg _ _ _ _ _ _ _ Hrq Hra Hri) in Hrow.
    injection Hrow as <-. split.
    + rewrite !length_app, !length_fmap. lia.
    + rewrite !Forall_app, !Forall_fmap.
      repeat split; (eapply Forall_impl; [eassumption|]); simpl; intros v Hv;
        unfold append_encoding; rewrite length_app, length_replicate, Hv; lia.
Qed.

(** For every width that fits into the embedding the sequence has the
    feature width [D + w] announced to the transformer. *)
Lemma CrossAttention_sequence_shape_fitting (cfg : Config) (q a i : tensor3) B Pa Pi D :
  activity_embedding_dim (transformer_cfg cfg) ≤ D →
  has_shape3 q B 1 D → has_shape3 a B Pa D → has_shape3 i B Pi D →
  has_shape3 (CrossAttention_sequence cfg q a i) B (1 + Pa + Pi)
             (D + activity_embedding_dim (transformer_cfg cfg)).
Proof.
  intros Hw Hq Ha Hi.
  pose proof (CrossAttention_sequence_shape cfg q a i B Pa Pi D Hq Ha Hi) as Hs.
  rewrite Nat.min_l in Hs; assumption.
Qed.

(** C9.  The encoding block is cut out of the embedding itself
    ([zeros_like(x[:, :, :w])]), so it cannot be wider than the embedding.
    With [D = 1] and [activity_embedding_dim = 2] the transformer is built
    for [d_model = 3], but every position of the sequence has width 2: one
    embedding column and one encoding column. *)
Theorem activity_encoding_narrower_than_configured :
  let cfg := small_cfg 1 2 false "1/N" in
  (∀ TransformerEncoder x mask,
     transformer (CrossAttentionModule_init TransformerEncoder cfg) x mask
     = TransformerEncoder {| d_model := 3; nhead := 1; dim_feedforward := 4;
                             te_dropout := 0%R; te_num_layers := 1 |} x mask) ∧
  CrossAttention_sequence cfg [[[5]]]%R [[[6]]]%R [[[7]]]%R
  = [[[5; 0]; [6; 1]; [7; -1]]]%R ∧
  has_shape3 (CrossAttention_sequence cfg [[[5]]]%R [[[6]]]%R [[[7]]]%R) 1 3 2.
Proof.
  intros cfg. split; [reflexivity|]. split.
  - pose proof (CrossAttention_sequence_row cfg [[[5]]]%R [[[6]]]%R [[[7]]]%R 0
                  [[5]]%R [[6]]%R [[7]]%R eq_refl eq_refl eq_refl) as Hrow.
    apply list_eq. intros [|b].
    + rewrite Hrow. reflexivity.
    + apply lookup_ge_None_2. rewrite length_CrossAttention_sequence. simpl. lia.
  - apply (CrossAttention_sequence_shape cfg _ _ _ 1 1 1 1);
      (split; [reflexivity|]); repeat constructor.
Qed.

(** ** The cross-attention module: the key-padding mask *)

Lemma CrossAttention_padding_mask_row (am im : list (list bool)) b ra ri :
  am !! b = Some ra → im !! b = Some ri →
  CrossAttention_padding_mask am im !! b = Some (false :: ra ++ ri).
Proof.
  intros Ha Hi. unfold CrossAttention_padding_mask.
  apply (lookup_cat_dim1 _ _ _ (false :: ra) ri); [|done].
  apply (lookup_cat_dim1 _ _ _ [false] ra); [|done].
  rewrite list_lookup_fmap, lookup_replicate_2; [done|].
  eapply lookup_lt_Some, Ha.
Qed.

Lemma CrossAttention_padding_mask_shape (am im : list (list bool)) B Pa Pi :
  has_shape2 am B Pa → has_shape2 im B Pi →
  has_shape2 (CrossAttention_padding_mask am im) B (1 + Pa + Pi).
Proof.
  intros Ha Hi. apply has_shape2_intro.
  - unfold CrossAttention_padding_mask.
    rewrite !length_cat_dim1, length_fmap, length_replicate.
    destruct Ha as [-> _], Hi as [-> _]. lia.
  - intros b row Hrow.
    assert (b < B) as Hb.
    { apply lookup_lt_Some in Hrow. unfold CrossAttention_padding_mask in Hrow.
      rewrite !length_cat_dim1 in Hrow. destruct Hi as [Hi _]. lia. }
    destruct (has_shape2_lookup _ _ _ _ Ha Hb) as (ra & Hra & Hla).
    destruct (has_shape2_lookup _ _ _ _ Hi Hb) as (ri & Hri & Hli).
    rewrite (CrossAttention_padding_mask_row _ _ _ _ _ Hra Hri) in Hrow.
    injection Hrow as <-. simpl. rewrite length_app. lia.
Qed.

(** What the construction does at each position: the query key is never
    ignored, and a support key is ignored exactly when its input mask
    entry is [True]. *)
Lemma CrossAttention_padding_mask_entries (am im : list (list bool)) B Pa Pi b :
  has_shape2 am B Pa → has_shape2 im B Pi → b < B →
  let mask := CrossAttention_padding_mask am im in
  key_attendable mask b 0 ∧
  (∀ k, k < Pa → at2 mask b (1 + k) = at2 am b k) ∧
  (∀ k, k < Pi → at2 mask b (1 + Pa + k) = at2 im b k).
Proof.
  intros Ha Hi Hb mask.
  destruct (has_shape2_lookup _ _ _ _ Ha Hb) as (ra & Hra & Hla).
  destruct (has_shape2_lookup _ _ _ _ Hi Hb) as (ri & Hri & Hli).
  pose proof (CrossAttention_padding_mask_row _ _ _ _ _ Hra Hri) as Hrow.
  unfold key_attendable, at2. subst mask. rewrite Hrow, Hra, Hri. simpl.
  split; [done|]. split; intros k Hk.
  - apply lookup_app_l. lia.
  - rewrite lookup_app_r by lia. f_equal. lia.
Qed.

(** In the vocabulary of the data model: a support key is ignored by
    attention exactly when its slot is marked as a real molecule, and is
    attendable exactly when its slot is marked as padding. *)
Lemma CrossAttention_padding_mask_ignores_real (am im : list (list bool)) B Pa Pi b :
  has_shape2 am B Pa → has_shape2 im B Pi → b < B →
  let mask := CrossAttention_padding_mask am im in
  (∀ k, k < Pa →
     (key_ignored mask b (1 + k) ↔ marks_real am b k) ∧
     (key_attendable mask b (1 + k) ↔ marks_padding am b k)) ∧
  (∀ k, k < Pi →
     (key_ignored mask b (1 + Pa + k) ↔ marks_real im b k) ∧
     (key_attendable mask b (1 + Pa + k) ↔ marks_padding im b k)).
Proof.
  intros Ha Hi Hb mask.
  destruct (CrossAttention_padding_mask_entries am im B Pa Pi b Ha Hi Hb)
    as (_ & Hma & Hmi). fold mask in Hma, Hmi.
  unfold key_ignored, key_attendable, marks_real, marks_padding.
  split; intros k Hk; [rewrite (Hma k Hk)|rewrite (Hmi k Hk)]; done.
Qed.

(** C1.  The two input masks are copied into the key-padding mask without
    negation.  With one real active molecule (mask [True]) and one padded
    inactive slot (mask [False]), the key-padding mask is
    [[False, True, False]]: the query is attendable, the real active
    molecule is ignored by attention and the padded slot is attended to. *)
Theorem CrossAttention_padding_mask_polarity :
  let mask := CrossAttention_padding_mask [[true]] [[false]] in
  mask = [[false; true; false]] ∧
  key_attendable mask 0 0 ∧
  marks_real [[true]] 0 0 ∧ key_ignored mask 0 1 ∧
  marks_padding [[false]] 0 0 ∧ key_attendable mask 0 2.
Proof. repeat split. Qed.

(** ** The cross-attention module: padded slots and the output *)

(** Entries of the sequence handed to the transformer. *)
Lemma CrossAttention_sequence_at (cfg : Config) (q a i : tensor3) B Pa Pi D b :
  has_shape3 q B 1 D → has_shape3 a B Pa D → has_shape3 i B Pi D → b < B →
  let s := CrossAttention_sequence cfg q a i in
  let w := activity_embedding_dim (transformer_cfg cfg) in
  at2 s b 0 = append_encoding w 0%R <$> at2 q b 0 ∧
  (∀ k, k < Pa → at2 s b (1 + k) = append_encoding w 1%R <$> at2 a b k) ∧
  (∀ k, k < Pi → at2 s b (1 + Pa + k) = append_encoding w (-1)%R <$> at2 i b k).
Proof.
  intros Hq Ha Hi Hb s w.
  destruct (has_shape3_lookup _ _ _ _ _ Hq Hb) as (rq & Hrq & Hlq & _).
  destruct (has_shape3_lookup _ _ _ _ _ Ha Hb) as (ra & Hra & Hla & _).
  destruct (has_shape3_lookup _ _ _ _ _ Hi Hb) as (ri & Hri & Hli & _).
  pose proof (CrossAttention_sequence_row cfg q a i b rq ra ri Hrq Hra Hri) as Hrow.
  cbv zeta in Hrow. fold s w in Hrow.
  unfold at2. rewrite Hrow, Hrq, Hra, Hri. simpl.
  destruct rq as [|vq [|? ?]]; try done. simpl.
  split; [done|]. split; intros k Hk.
  - rewrite lookup_app_l by (rewrite length_fmap; lia). apply list_lookup_fmap.
  - rewrite lookup_app_r by (rewrite length_fmap; lia).
    rewrite length_fmap, <- list_lookup_fmap. f_equal. lia.
Qed.

(** What the code guarantees for a transformer that respects the
    key-padding mask: two calls whose support embeddings agree at every
    slot with mask entry [False] give the same output at the query and at
    every such slot.  The slots whose content is irrelevant are those with
    mask entry [True]. *)
Lemma CrossAttentionModule_forward_ignores_True_slots (self : CrossAttentionModule)
    (q a a' i i' : tensor3) (am im : list (list bool)) (B Pa Pi D : nat) :
  respects_key_padding (transformer self) →
  has_shape3 q B 1 D →
  has_shape3 a B Pa D → has_shape3 a' B Pa D →
  has_shape3 i B Pi D → has_shape3 i' B Pi D →
  has_shape2 am B Pa → has_shape2 im B Pi →
  (∀ b k, at2 am b k = Some false → at2 a b k = at2 a' b k) →
  (∀ b k, at2 im b k = Some false → at2 i b k = at2 i' b k) →
  let out := CrossAttentionModule_forward self q a i am im in
  let out' := CrossAttentionModule_forward self q a' i' am im in
  out.1.1 = out'.1.1 ∧
  (∀ b k, at2 am b k = Some false → at2 out.1.2 b k = at2 out'.1.2 b k) ∧
  (∀ b k, at2 im b k = Some false → at2 out.2 b k = at2 out'.2 b k).
Proof.
  intros HT Hq Ha Ha' Hi Hi' Ham Him Haa Hii.
  destruct B as [|B].
  { destruct Ha as [Ha _], Ha' as [Ha' _], Hi as [Hi _], Hi' as [Hi' _].
    destruct a, a', i, i'; try done. }
  set (cfg := cam_cfg self). set (w := activity_embedding_dim (transformer_cfg cfg)).
  set (N := 1 + Pa + Pi). set (E := D + min w D).
  set (s := CrossAttention_sequence cfg q a i).
  set (s' := CrossAttention_sequence cfg q a' i').
  set (pm := CrossAttention_padding_mask am im).
  pose proof (CrossAttention_sequence_shape cfg q a i _ _ _ _ Hq Ha Hi) as Hs.
  pose proof (CrossAttention_sequence_shape cfg q a' i' _ _ _ _ Hq Ha' Hi') as Hs'.
  fold s w N E in Hs. fold s' w N E in Hs'.
  pose proof (has_shape3_outer _ _ _ _ Hs) as Hs2.
  pose proof (has_shape3_outer _ _ _ _ Hs') as Hs2'.
  pose proof (CrossAttention_padding_mask_shape am im _ _ _ Ham Him) as Hpm.
  fold pm N in Hpm.
  (* the two sequences agree at the query and at the slots with mask [False] *)
  assert (∀ b j, key_attendable pm b j → at2 s b j = at2 s' b j) as Hagree.
  { intros b j Hatt. destruct (at2_lt _ _ _ _ _ _ Hpm Hatt) as [Hb Hj].
    destruct (CrossAttention_padding_mask_entries am im _ _ _ b Ham Him Hb)
      as (_ & Hma & Hmi). fold pm in Hma, Hmi.
    destruct (CrossAttention_sequence_at cfg q a i _ _ _ _ b Hq Ha Hi Hb)
      as (Hs0 & Hsa & Hsi).
    destruct (CrossAttention_sequence_at cfg q a' i' _ _ _ _ b Hq Ha' Hi' Hb)
      as (Hs0' & Hsa' & Hsi').
    fold s w in Hs0, Hsa, Hsi. fold s' w in Hs0', Hsa', Hsi'.
    destruct (decide (j = 0)) as [->|Hj0]; [by rewrite Hs0, Hs0'|].
    destruct (decide (j < 1 + Pa)) as [Hja|Hja].
    - replace j with (1 + (j - 1)) in * by lia.
      rewrite Hsa, Hsa' by lia. f_equal. apply Haa.
      rewrite <- Hma by lia. exact Hatt.
    - replace j with (1 + Pa + (j - 1 - Pa)) in * by lia.
      rewrite Hsi, Hsi' by (subst N; lia). f_equal. apply Hii.
      rewrite <- Hmi by (subst N; lia). exact Hatt. }
  (* the transformer on the transposed sequences *)
  pose proof (has_shape2_transpose [] s B N Hs2) as Hst.
  pose proof (has_shape2_transpose [] s' B N Hs2') as Hst'.
  fold (transpose01 s) in Hst. fold (transpose01 s') in Hst'.
  destruct (HT (transpose01 s) (transpose01 s') pm N (S B) Hst Hst' Hpm)
    as [Hth Hpoint].
  destruct (HT (transpose01 s') (transpose01 s) pm N (S B) Hst' Hst Hpm)
    as [Hth' _].
  set (t := transformer self (transpose01 s) pm) in *.
  set (t' := transformer self (transpose01 s') pm) in *.
  assert (∀ b j, b < S B → j < N → at2 s b j = at2 s' b j → at2 t j b = at2 t' j b)
    as Ht.
  { intros b j Hb Hj Hsame. apply Hpoint.
    - intros j' Hatt. destruct (at2_lt _ _ _ _ _ _ Hpm Hatt) as [_ Hj'].
      unfold transpose01. rewrite !(at2_transpose [] _ B N) by done.
      by apply Hagree.
    - unfold transpose01. by rewrite !(at2_transpose [] _ B N). }
  (* the updated sequences *)
  set (U := add3 (transpose01 (transpose01 s)) (transpose01 t)).
  set (U' := add3 (transpose01 (transpose01 s')) (transpose01 t')).
  assert (∀ b j, b < S B → j < N → at2 s b j = at2 s' b j → at2 U b j = at2 U' b j)
    as HU.
  { intros b j Hb Hj Hsame. subst U U'. rewrite !at2_add3_bind. unfold transpose01.
    rewrite (transpose_transpose [] s N), (transpose_transpose [] s' N);
      [|by destruct Hs2'|subst N; lia|by destruct Hs2|subst N; lia].
    rewrite Hsame. unfold N in Hth, Hth'.
    rewrite (at2_transpose [] t (Pa + Pi) (S B)), (at2_transpose [] t' (Pa + Pi) (S B))
      by done.
    by rewrite (Ht b j Hb Hj Hsame). }
  assert (has_shape2 U (S B) N ∧ has_shape2 U' (S B) N) as [HUs HUs'].
  { subst U U'. unfold transpose01.
    rewrite (transpose_transpose [] s N), (transpose_transpose [] s' N);
      [|by destruct Hs2'|subst N; lia|by destruct Hs2|subst N; lia].
    unfold N in Hth, Hth'.
    split; (apply (has_shape2_zip_with_rows _ _ _ (S B) N N N);
      [intros r r' Hr Hr'; rewrite length_zip_with; lia|done|]);
      by apply (has_shape2_transpose [] _ (Pa + Pi) (S B)). }
  assert (∀ b, at2 U b 0 = at2 U' b 0) as HU0.
  { intros b. destruct (decide (b < S B)) as [Hb|Hb].
    - apply HU; [done|subst N; lia|]. apply Hagree.
      by destruct (CrossAttention_padding_mask_entries am im _ _ _ b Ham Him Hb).
    - rewrite (at2_ge_None U (S B) N), (at2_ge_None U' (S B) N) by (done || lia).
      done. }
  (* the three outputs *)
  assert (shape2 a = shape2 a') as Hed by apply (shape2_eq a a' _ _ _ Ha Ha').
  assert (∀ x, has_shape3 x (S B) Pa D →
               shape1 (actives_with_encoding cfg x) = Pa) as Hpa.
  { intros x Hx. apply (shape1_nonempty _ B). rewrite actives_with_encoding_rows.
    apply (has_shape2_fmap_rows _ _ _ Pa); [intros; by rewrite length_fmap|].
    by apply (has_shape3_outer _ _ _ D). }
  assert (∀ V : tensor3, has_shape2 V (S B) N →
               shape1 (slice_dim2_to (shape2 a') (slice_dim1 1 (Pa + 1) V)) = Pa)
    as Hpa2.
  { intros V [HVl HVr]. apply (shape1_nonempty _ B).
    unfold slice_dim2_to, slice_dim1. split; [by rewrite !length_fmap|].
    apply Forall_fmap, Forall_fmap. eapply Forall_impl; [exact HVr|].
    intros row Hrow. unfold compose.
    rewrite length_fmap, length_take, length_drop, Hrow. subst N. lia. }
  intros out out'. subst out out'. unfold CrossAttentionModule_forward.
  fold cfg s s' pm t t' U U'. rewrite Hed, (Hpa a Ha), (Hpa a' Ha').
  rewrite (Hpa2 U HUs), (Hpa2 U' HUs'). simpl.
  split; [|split].
  - f_equal. f_equal. apply index_dim1_ext; [|exact HU0].
    destruct HUs as [-> _], HUs' as [-> _]. done.
  - intros b k Hpad. destruct (at2_lt _ _ _ _ _ _ Ham Hpad) as [Hb Hk].
    rewrite !at2_slice_dim2_to, !at2_slice_dim1 by lia. f_equal.
    apply HU; [done|subst N; lia|]. apply Hagree.
    destruct (CrossAttention_padding_mask_entries am im _ _ _ b Ham Him Hb)
      as (_ & Hma & _).
    unfold key_attendable. fold pm in Hma. by rewrite Hma.
  - intros b k Hpad. destruct (at2_lt _ _ _ _ _ _ Him Hpad) as [Hb Hk].
    rewrite !at2_slice_dim2_to, !at2_slice_dim1_from.
    replace (Pa + 1 + k) with (1 + Pa + k) by lia. f_equal.
    apply HU; [done|subst N; lia|]. apply Hagree.
    destruct (CrossAttention_padding_mask_entries am im _ _ _ b Ham Him Hb)
      as (_ & _ & Hmi).
    unfold key_attendable. fold pm in Hmi. by rewrite Hmi.
Qed.

(** The reference layer follows the key-padding convention: the keys whose
    mask entry is [True] do not enter the attention context. *)
Lemma attendable_keys_ignores_masked (keys keys' : tensor2) (mask_row : list bool) :
  length keys = length keys' →
  (∀ j, mask_row !! j = Some false → keys !! j = keys' !! j) →
  attendable_keys keys mask_row = attendable_keys keys' mask_row.
Proof.
  revert keys keys'. induction mask_row as [|m mask_row IH];
    intros [|k keys] [|k' keys'] Hlen Hagree; try done.
  assert (attendable_keys keys mask_row = attendable_keys keys' mask_row) as Htail.
  { apply IH; [by injection Hlen|]. intros j Hj. apply (Hagree (S j)), Hj. }
  destruct m.
  - exact Htail.
  - specialize (Hagree 0 eq_refl). injection Hagree as ->.
    change (k' :: attendable_keys keys mask_row
            = k' :: attendable_keys keys' mask_row).
    by rewrite Htail.
Qed.

Lemma uniform_attention_respects_key_padding : respects_key_padding uniform_attention.
Proof.
  intros src src' mask L B Hsrc Hsrc' Hmask.
  destruct L as [|L].
  { destruct Hsrc as [Hl _], Hsrc' as [Hl' _]. by destruct src, src'. }
  assert (∀ x : tensor3, has_shape2 x (S L) B →
     length (zip_with (λ keys mask_row, vmean (attendable_keys keys mask_row))
                      (transpose01 x) mask) = B) as Hctx.
  { intros x Hx. rewrite length_zip_with.
    destruct (has_shape2_transpose [] x L B Hx) as [Hl _]. unfold transpose01.
    rewrite Hl. destruct Hmask as [-> _]. lia. }
  split.
  - unfold uniform_attention. destruct Hsrc as [Hl Hrows]. split.
    + by rewrite length_fmap.
    + apply Forall_fmap, Forall_forall. intros row _. simpl.
      apply Hctx. by split.
  - intros i b Hagree Hi. unfold at2, uniform_attention. rewrite !list_lookup_fmap.
    destruct (decide (i < S L)) as [Hlt|Hge].
    2:{ destruct Hsrc as [Hl _], Hsrc' as [Hl' _].
        by rewrite !lookup_ge_None_2 by lia. }
    destruct (has_shape2_lookup _ _ _ i Hsrc Hlt) as (row & Hrow & _).
    destruct (has_shape2_lookup _ _ _ i Hsrc' Hlt) as (row' & Hrow' & _).
    rewrite Hrow, Hrow'. simpl. rewrite !lookup_zip_with.
    destruct (decide (b < B)) as [Hb|Hb].
    2:{ destruct Hmask as [Hl _]. rewrite (lookup_ge_None_2 mask) by lia.
        by destruct (transpose01 src !! b), (transpose01 src' !! b). }
    destruct (has_shape2_lookup _ _ _ b Hmask Hb) as (mrow & Hmrow & Hlm).
    unfold transpose01.
    rewrite (lookup_transpose [] src L B b), (lookup_transpose [] src' L B b)
      by done.
    simpl. rewrite Hmrow. simpl. do 2 f_equal.
    apply attendable_keys_ignores_masked.
    + rewrite !length_fmap. destruct Hsrc as [-> _], Hsrc' as [-> _]. done.
    + intros j Hj. rewrite !list_lookup_fmap.
      assert (j < S L) as HjL by (apply lookup_lt_Some in Hj; lia).
      assert (key_attendable mask b j) as Hatt.
      { unfold key_attendable, at2. by rewrite Hmrow. }
      specialize (Hagree j Hatt). unfold at2 in Hagree.
      destruct (has_shape2_lookup _ _ _ j Hsrc HjL) as (rj & Hrj & _).
      destruct (has_shape2_lookup _ _ _ j Hsrc' HjL) as (rj' & Hrj' & _).
      rewrite Hrj, Hrj' in *. simpl in *. by rewrite !nth_lookup, Hagree.
Qed.

(** C2.  One task, one real active molecule, one padded inactive slot, and
    the reference attention layer as transformer.  Since the key-padding
    mask leaves the padded slot attendable, its content reaches the query:
    changing the padded embedding from [0] to [4] changes the query output
    from [3/2] to [7/2]. *)
Theorem padded_slot_changes_query_output :
  let self := {| cam_cfg := small_cfg 1 1 false "1/N";
                 transformer := uniform_attention |} in
  let forward inactives :=
    CrossAttentionModule_forward self [[[1]]]%R [[[2]]]%R inactives
                                 [[true]] [[false]] in
  marks_real [[true]] 0 0 ∧ marks_padding [[false]] 0 0 ∧
  (forward [[[0]]]%R).1.1 = [[[3 / 2]]]%R ∧
  (forward [[[4]]]%R).1.1 = [[[7 / 2]]]%R ∧
  (forward [[[0]]]%R).1.1 ≠ (forward [[[4]]]%R).1.1.
Proof.
  intros self forward.
  assert ((forward [[[0]]]%R).1.1 = [[[3 / 2]]]%R) as H0.
  { subst forward self. eval_tensor. repeat f_equal. lra. }
  assert ((forward [[[4]]]%R).1.1 = [[[7 / 2]]]%R) as H4.
  { subst forward self. eval_tensor. repeat f_equal. lra. }
  repeat split; try assumption.
  rewrite H0, H4. intros Heq. injection Heq as Heq. lra.
Qed.

(** ** The similarity scorer: L2 normalisation *)

(** The L2 step, vector by vector. *)
Lemma l2_normalize_rows (t : tensor3) :
  l2_normalize t
  = (λ row : tensor2, (λ v : tensor1, (λ x, x / l2_divisor v)%R <$> v) <$> row) <$> t.
Proof.
  unfold l2_normalize, div3, l2_div, fill_where_zero, map3, unsqueeze2, norm_dim2.
  rewrite <- !list_fmap_compose.
  rewrite (zip_with_fmap_same (zip_with div_last)).
  apply list_fmap_ext. intros _ row _. simpl.
  rewrite <- !list_fmap_compose.
  rewrite (zip_with_fmap_same div_last).
  apply list_fmap_ext. intros _ v _. reflexivity.
Qed.

(** ** The similarity scorer: shapes and the scaling step *)

Lemma has_shape3_l2_normalize (t : tensor3) B P D :
  has_shape3 t B P D → has_shape3 (l2_normalize t) B P D.
Proof.
  intros [Hlen Hrows]. rewrite l2_normalize_rows. split; [by rewrite length_fmap|].
  apply Forall_fmap. eapply Forall_impl; [exact Hrows|].
  intros row [Hrow Hvs]. simpl. split; [by rewrite length_fmap|].
  apply Forall_fmap. eapply Forall_impl; [exact Hvs|].
  intros v Hv. simpl. by rewrite length_fmap.
Qed.

Lemma has_shape3_similarity_operand (cfg : Config) (t : tensor3) B P D :
  has_shape3 t B P D → has_shape3 (similarity_operand cfg t) B P D.
Proof.
  intros Ht. unfold similarity_operand.
  destruct (l2Norm (similarityModule cfg)); [by apply has_shape3_l2_normalize|done].
Qed.

Lemma has_shape2_unscaled_similarity_sums (cfg : Config) (q s : tensor3)
    (m : list (list bool)) B P D :
  has_shape3 q B 1 D → has_shape3 s B P D → has_shape2 m B P →
  has_shape2 (unscaled_similarity_sums cfg q s m) B 1.
Proof.
  intros Hq Hs Hm. unfold unscaled_similarity_sums, sum_dim2, mul3, bmm.
  apply (has_shape2_fmap_rows _ _ B 1 1); [intros row Hrow; by rewrite length_fmap|].
  apply (has_shape2_zip_with_rows _ _ _ B 1 1 1).
  - intros r r' Hr Hr'. rewrite length_zip_with. lia.
  - apply (has_shape2_zip_with_l _ _ _ B 1 1).
    + intros r r' Hr. unfold matmul. by rewrite length_fmap.
    + apply (has_shape3_outer _ B 1 D), has_shape3_similarity_operand, Hq.
    + unfold transpose12. rewrite length_fmap.
      apply (has_shape3_similarity_operand cfg) in Hs. by destruct Hs.
  - unfold unsqueeze1, mask_float. destruct Hm as [Hlen _]. split.
    + by rewrite !length_fmap.
    + apply Forall_fmap, Forall_fmap, Forall_forall. by intros.
Qed.

Lemma SimilarityModule_other_policy (q s : tensor3) m n (cfg : Config) :
  scaling (similarityModule cfg) ≠ "1/N" →
  scaling (similarityModule cfg) ≠ "1/sqrt(N)" →
  SimilarityModule q s m n cfg = Ret (unscaled_similarity_sums cfg q s m).
Proof.
  intros H1 H2. unfold SimilarityModule.
  apply String.eqb_neq in H1, H2. rewrite H1, H2. reflexivity.
Qed.

Lemma SimilarityModule_policy_N (q s : tensor3) m n (cfg : Config) :
  scaling (similarityModule cfg) = "1/N" →
  SimilarityModule q s m n cfg
  = Ret (mul2 ((λ row : tensor1, (λ x, 1 / (2.0 * x + stabilizer))%R <$> row)
                 <$> size_column n)
              (unscaled_similarity_sums cfg q s m)).
Proof. intros Hp. unfold SimilarityModule. rewrite Hp. reflexivity. Qed.

Lemma SimilarityModule_policy_sqrtN (q s : tensor3) m n (cfg : Config) :
  scaling (similarityModule cfg) = "1/sqrt(N)" →
  SimilarityModule q s m n cfg
  = Ret (mul2 ((λ row : tensor1, (λ x, 1 / (2.0 * sqrt x + stabilizer))%R <$> row)
                 <$> size_column n)
              (unscaled_similarity_sums cfg q s m)).
Proof. intros Hp. unfold SimilarityModule. rewrite Hp. reflexivity. Qed.

Lemma has_shape2_scaled (f : R → R) (n : list nat) (sums : tensor2) B :
  length n = B → has_shape2 sums B 1 →
  has_shape2 (mul2 ((λ row : tensor1, f <$> row) <$> size_column n) sums) B 1.
Proof.
  intros Hn Hs. unfold mul2.
  apply (has_shape2_zip_with_rows _ _ _ B 1 1 1); [| |exact Hs].
  - intros r r' Hr Hr'. rewrite length_zip_with. lia.
  - unfold size_column. split; [by rewrite !length_fmap|].
    apply Forall_fmap, Forall_fmap, Forall_forall. by intros.
Qed.

(** C7, as the code has it.  On inputs of the documented shapes the scorer
    returns, and its result has shape [[B, 1]]: the sum over the support
    axis keeps the query axis of length one, and the scaling factor is
    reshaped to [[B, 1]] to match. *)
Theorem SimilarityModule_shape (q s : tensor3) (m : list (list bool)) (n : list nat)
    (cfg : Config) (B P D : nat) :
  has_shape3 q B 1 D → has_shape3 s B P D → has_shape2 m B P → length n = B →
  ∃ out, SimilarityModule q s m n cfg = Ret out ∧ has_shape2 out B 1.
Proof.
  intros Hq Hs Hm Hn.
  pose proof (has_shape2_unscaled_similarity_sums cfg q s m B P D Hq Hs Hm) as Hu.
  destruct (decide (scaling (similarityModule cfg) = "1/N")) as [HN|HN].
  { rewrite (SimilarityModule_policy_N _ _ _ _ _ HN). eexists. split; [reflexivity|].
    by apply has_shape2_scaled. }
  destruct (decide (scaling (similarityModule cfg) = "1/sqrt(N)")) as [HS|HS].
  { rewrite (SimilarityModule_policy_sqrtN _ _ _ _ _ HS). eexists. split; [reflexivity|].
    by apply has_shape2_scaled. }
  rewrite (SimilarityModule_other_policy _ _ _ _ _ HN HS). eauto.
Qed.

Lemma SimilarityModule_shape_witness :
  ∃ out, SimilarityModule [[[1; 2]]; [[0; 1]]]%R
           [[[3; 4]; [5; 6]]; [[1; 1]; [0; 0]]]%R
           [[true; true]; [true; false]] [2; 1] (small_cfg 2 1 false "1/N")
         = Ret out ∧ has_shape2 out 2 1.
Proof.
  apply (SimilarityModule_shape _ _ _ _ _ 2 2 2);
    repeat (split || constructor || reflexivity).
Defined.

(** C7, as stated, fails: for a batch of one task the result has shape
    [[1, 1]], not [[1]]. *)
Lemma SimilarityModule_shape_not_B :
  result_shape (SimilarityModule [[[1; 2]]]%R [[[3; 4]; [5; 6]]]%R
                  [[true; false]] [1] (small_cfg 2 1 false "1/N"))
  = Some [1; 1] ∧
  result_shape (SimilarityModule [[[1; 2]]]%R [[[3; 4]; [5; 6]]]%R
                  [[true; false]] [1] (small_cfg 2 1 false "1/N"))
  ≠ Some [1].
Proof.
  assert (result_shape (SimilarityModule [[[1; 2]]]%R [[[3; 4]; [5; 6]]]%R
                          [[true; false]] [1] (small_cfg 2 1 false "1/N"))
          = Some [1; 1]) as Hshape by reflexivity.
  split; [exact Hshape|]. rewrite Hshape. discriminate.
Qed.

(** ** Unknown configuration names *)

(** C3, as the code has it.  An activation name that is in neither table
    stops the encoder constructor with [KeyError]; a scaling policy that is
    none of the two known strings stops nothing: the scorer is a plain
    function, skips both scaling branches and returns the unscaled masked
    similarity sums. *)
Theorem unknown_configuration_names init_weights (encoder_cfg scorer_cfg : Config)
    (q s : tensor3) (m : list (list bool)) (n : list nat) :
  activation_function_mapping !! activation (encoder encoder_cfg) = None →
  scaling (similarityModule scorer_cfg) ≠ "1/N" →
  scaling (similarityModule scorer_cfg) ≠ "1/sqrt(N)" →
  EncoderBlock_init init_weights encoder_cfg
  = Raise (KeyError (activation (encoder encoder_cfg))) ∧
  SimilarityModule q s m n scorer_cfg
  = Ret (unscaled_similarity_sums scorer_cfg q s m).
Proof.
  intros Hact H1 H2. split.
  - by apply EncoderBlock_init_KeyError, unknown_activation_not_in_dropout_mapping.
  - by apply SimilarityModule_other_policy.
Qed.

Lemma unknown_configuration_names_witness :
  EncoderBlock_init (λ _, Ret ()) tanh_cfg = Raise (KeyError "tanh") ∧
  SimilarityModule [[[1; 2]]]%R [[[3; 4]; [5; 6]]]%R [[true; false]] [1]
                   (small_cfg 2 1 false "N")
  = Ret (unscaled_similarity_sums (small_cfg 2 1 false "N")
           [[[1; 2]]]%R [[[3; 4]; [5; 6]]]%R [[true; false]]).
Proof.
  exact (unknown_configuration_names (λ _, Ret ()) tanh_cfg (small_cfg 2 1 false "N")
           [[[1; 2]]]%R [[[3; 4]; [5; 6]]]%R [[true; false]] [1]
           eq_refl ltac:(discriminate) ltac:(discriminate)).
Defined.

(** C3, as stated, fails: with the unknown policy ["N"] the scorer returns a
    value (the unscaled sum [1*3 + 2*4 = 11] over the one real slot) and
    raises nothing. *)
Lemma unknown_scaling_policy_returns :
  let result := SimilarityModule [[[1; 2]]]%R [[[3; 4]; [5; 6]]]%R
                  [[true; false]] [1] (small_cfg 2 1 false "N") in
  scaling (similarityModule (small_cfg 2 1 false "N")) ≠ "1/N" ∧
  scaling (similarityModule (small_cfg 2 1 false "N")) ≠ "1/sqrt(N)" ∧
  result = Ret [[11%R]] ∧
  ¬ ∃ e, result = Raise e.
Proof.
  intros result.
  assert (result = Ret [[11%R]]) as Hres.
  { subst result. eval_tensor. repeat f_equal. lra. }
  repeat split; try discriminate; [exact Hres|].
  intros [e He]. rewrite Hres in He. discriminate.
Qed.

(* ===================================================================== *)
(** * Part III: further properties of the modules *)
(* ===================================================================== *)

(** ** The encoder: construction *)

Lemma hidden_layers_known (e : EncoderCfg) (n : nat) d a :
  dropout_mapping !! activation e = Some d →
  activation_function_mapping !! activation e = Some a →
  hidden_layers e n
  = Ret (replicate n {| dropout_class := d; p := dropout e |},
         replicate n {| in_features := number_hidden_neurons e;
                        out_features := number_hidden_neurons e |},
         replicate n a).
Proof.
  intros Hd Ha. induction n as [|n IH]; [reflexivity|].
  simpl. unfold py_getitem at 1 2. rewrite Hd, Ha. simpl. rewrite IH. reflexivity.
Qed.

Lemma dropout_mapping_activation (name : string) d :
  dropout_mapping !! name = Some d →
  (name = "relu" ∧ d = Dropout ∧ activation_function_mapping !! name = Some ReLU) ∨
  (name = "selu" ∧ d = AlphaDropout
   ∧ activation_function_mapping !! name = Some SELU).
Proof.
  rewrite dropout_mapping_lookup. repeat case_decide; subst; intros Hd;
    [left|right|done]; by injection Hd as <-.
Qed.

(** The constructor on an activation name that both tables know. *)
Lemma EncoderBlock_init_Ret init_weights (cfg : Config) d a u :
  dropout_mapping !! activation (encoder cfg) = Some d →
  activation_function_mapping !! activation (encoder cfg) = Some a →
  init_weights (activation (encoder cfg)) = Ret u →
  let e := encoder cfg in
  EncoderBlock_init init_weights cfg
  = Ret {| enc_dropout := {| dropout_class := d; p := input_dropout e |};
           enc_fc := {| in_features := input_dim e;
                        out_features := number_hidden_neurons e |};
           enc_act := a;
           hidden_dropout_layers :=
             replicate (number_hidden_layers e)
                       {| dropout_class := d; p := dropout e |};
           hidden_linear_layers :=
             replicate (number_hidden_layers e)
                       {| in_features := number_hidden_neurons e;
                          out_features := number_hidden_neurons e |};
           hidden_activations := replicate (number_hidden_layers e) a;
           dropout_o := {| dropout_class := d; p := dropout e |};
           fc_o := {| in_features := number_hidden_neurons e;
                      out_features := associationSpace_dim cfg |};
           act_o := a |}.
Proof.
  intros Hd Ha Hu e. unfold EncoderBlock_init. fold e.
  rewrite (hidden_layers_known e _ d a Hd Ha).
  unfold py_getitem. subst e. rewrite Hd, Ha. simpl. rewrite Hu. reflexivity.
Qed.

Lemma EncoderBlock_init_inv init_weights (cfg : Config) blk :
  EncoderBlock_init init_weights cfg = Ret blk →
  ∃ d a u,
    dropout_mapping !! activation (encoder cfg) = Some d ∧
    activation_function_mapping !! activation (encoder cfg) = Some a ∧
    init_weights (activation (encoder cfg)) = Ret u.
Proof.
  intros Hinit.
  destruct (dropout_mapping !! activation (encoder cfg)) as [d|] eqn:Hd.
  2:{ by rewrite (EncoderBlock_init_KeyError _ _ Hd) in Hinit. }
  destruct (dropout_mapping_activation _ _ Hd) as [(Hn & -> & Ha)|(Hn & -> & Ha)].
  - destruct (init_weights (activation (encoder cfg))) as [u|e] eqn:Hu; [by eauto 6|].
    exfalso. revert Hinit. unfold EncoderBlock_init.
    rewrite (hidden_layers_known _ _ _ _ Hd Ha). unfold py_getitem.
    rewrite Hd, Ha. simpl. by rewrite Hu.
  - destruct (init_weights (activation (encoder cfg))) as [u|e] eqn:Hu; [by eauto 6|].
    exfalso. revert Hinit. unfold EncoderBlock_init.
    rewrite (hidden_layers_known _ _ _ _ Hd Ha). unfold py_getitem.
    rewrite Hd, Ha. simpl. by rewrite Hu.
Qed.

(** X1.  The constructor returns an encoder exactly when the activation
    name is ["relu"] or ["selu"] and the weight initialiser returns for
    that name; every other name, ["sigmoid"] included, and every failure
    of the initialiser makes it raise. *)
Theorem EncoderBlock_init_succeeds_iff init_weights (cfg : Config) :
  (∃ blk, EncoderBlock_init init_weights cfg = Ret blk) ↔
  (activation (encoder cfg) = "relu" ∨ activation (encoder cfg) = "selu") ∧
  ∃ u, init_weights (activation (encoder cfg)) = Ret u.
Proof.
  split.
  - intros [blk Hinit].
    destruct (EncoderBlock_init_inv _ _ _ Hinit) as (d & a & u & Hd & _ & Hu).
    split; [|by eauto].
    destruct (dropout_mapping_activation _ _ Hd) as [(Hn & _)|(Hn & _)]; auto.
  - intros [Hname [u Hu]].
    destruct Hname as [Hn|Hn].
    + eexists. apply (EncoderBlock_init_Ret _ _ Dropout ReLU u); [| |done];
        by rewrite Hn.
    + eexists. apply (EncoderBlock_init_Ret _ _ AlphaDropout SELU u); [| |done];
        by rewrite Hn.
Qed.

(** X2.  An encoder that was constructed has exactly
    [number_hidden_layers] hidden rounds; its layer sizes chain from
    [input_dim] over [number_hidden_neurons] to [associationSpace_dim]; all
    its activations are the one of the configured name; and all its
    regularisation layers are of one class, [Dropout] for ["relu"] and
    [AlphaDropout] for ["selu"], the first with rate [input_dropout] and the
    others with rate [dropout]. *)
Theorem EncoderBlock_init_structure init_weights (cfg : Config) (blk : EncoderBlock) :
  EncoderBlock_init init_weights cfg = Ret blk →
  let e := encoder cfg in
  let n := number_hidden_layers e in
  ∃ d a,
    ((activation e = "relu" ∧ d = Dropout ∧ a = ReLU) ∨
     (activation e = "selu" ∧ d = AlphaDropout ∧ a = SELU)) ∧
    enc_dropout blk = {| dropout_class := d; p := input_dropout e |} ∧
    hidden_dropout_layers blk = replicate n {| dropout_class := d; p := dropout e |} ∧
    dropout_o blk = {| dropout_class := d; p := dropout e |} ∧
    enc_act blk = a ∧ hidden_activations blk = replicate n a ∧ act_o blk = a ∧
    enc_fc blk = {| in_features := input_dim e;
                    out_features := number_hidden_neurons e |} ∧
    hidden_linear_layers blk
    = replicate n {| in_features := number_hidden_neurons e;
                     out_features := number_hidden_neurons e |} ∧
    fc_o blk = {| in_features := number_hidden_neurons e;
                  out_features := associationSpace_dim cfg |}.
Proof.
  intros Hinit e n.
  destruct (EncoderBlock_init_inv _ _ _ Hinit) as (d & a & u & Hd & Ha & Hu).
  rewrite (EncoderBlock_init_Ret _ _ d a u Hd Ha Hu) in Hinit.
  injection Hinit as <-. exists d, a. simpl.
  split; [|by repeat split].
  destruct (dropout_mapping_activation _ _ Hd) as [(Hn & -> & Ha')|(Hn & -> & Ha')];
    rewrite Ha' in Ha; injection Ha as <-; auto.
Qed.

Lemma EncoderBlock_init_structure_witness :
  ∃ blk, EncoderBlock_init (λ _, Ret ()) (encoder_cfg "selu" 3) = Ret blk ∧
         dropout_class (enc_dropout blk) = AlphaDropout ∧
         length (hidden_linear_layers blk) = 3 ∧ act_o blk = SELU.
Proof.
  pose proof (EncoderBlock_init_Ret (λ _, Ret ()) (encoder_cfg "selu" 3)
                AlphaDropout SELU () eq_refl eq_refl eq_refl) as Hblk.
  cbv zeta in Hblk. eexists. split; [exact Hblk|].
  destruct (EncoderBlock_init_structure _ _ _ Hblk)
    as (d & a & Hcase & Hd & _ & _ & _ & _ & Ha & _ & Hl & _).
  rewrite Hd, Hl, Ha. simpl.
  destruct Hcase as [(Hn & _)|(_ & -> & ->)]; [discriminate Hn|done].
Defined.

(** ** The encoder: the forward pass in evaluation mode *)

Lemma length_Linear_forward (w : LinearWeights) (x : tensor2) :
  length (Linear_forward w x) = length x.
Proof. unfold Linear_forward. by rewrite length_fmap. Qed.

Lemma length_Activation_forward (a : Activation) (x : tensor2) :
  length (Activation_forward a x) = length x.
Proof. unfold Activation_forward. by rewrite length_fmap. Qed.

Lemma length_hidden_rounds layers (x : tensor2) :
  length (foldl hidden_round x layers) = length x.
Proof.
  revert x. induction layers as [|layer layers IH]; intros x; [done|].
  simpl. rewrite IH. unfold hidden_round, Dropout_forward_eval.
  by rewrite length_Activation_forward, length_Linear_forward.
Qed.

(** The last two steps fix the width of the result: one entry per row of
    the output weight. *)
Lemma has_shape2_output_layer (a : Activation) (l : Linear) (w : LinearWeights)
    (x : tensor2) :
  Linear_fits l w →
  has_shape2 (Activation_forward a (Linear_forward w x)) (length x) (out_features l).
Proof.
  intros [[Hw _] Hb]. unfold Activation_forward, Linear_forward. split.
  - by rewrite !length_fmap.
  - apply Forall_fmap, Forall_fmap, Forall_forall. intros row _. simpl.
    rewrite length_fmap, length_zip_with, length_fmap. lia.
Qed.

(** X3.  In evaluation mode, a constructed encoder whose weights have the
    declared sizes maps a batch of [B] descriptors of width [input_dim] to
    [B] embeddings of width [associationSpace_dim], whatever the number of
    hidden layers. *)
Theorem EncoderBlock_forward_eval_shape init_weights (cfg : Config)
    (blk : EncoderBlock) (weights : EncoderWeights) (x : tensor2) (B : nat) :
  EncoderBlock_init init_weights cfg = Ret blk →
  weights_fit blk weights →
  has_shape2 x B (input_dim (encoder cfg)) →
  has_shape2 (EncoderBlock_forward_eval blk weights x) B (associationSpace_dim cfg).
Proof.
  intros Hinit (_ & _ & Hfit) [Hlen _].
  destruct (EncoderBlock_init_inv _ _ _ Hinit) as (d & a & u & Hd & Ha & Hu).
  pose proof Hinit as Hblk.
  rewrite (EncoderBlock_init_Ret _ _ d a u Hd Ha Hu) in Hblk.
  assert (out_features (fc_o blk) = associationSpace_dim cfg) as <-.
  { injection Hblk as <-. reflexivity. }
  unfold EncoderBlock_forward_eval.
  set (h := foldl hidden_round _ _).
  assert (length h = B) as <-.
  { subst h. rewrite length_hidden_rounds, length_Activation_forward,
      length_Linear_forward. exact Hlen. }
  by apply has_shape2_output_layer.
Qed.

Lemma EncoderBlock_forward_eval_shape_witness :
  ∃ blk, EncoderBlock_init (λ _, Ret ()) (encoder_cfg "relu" 1) = Ret blk ∧
         has_shape2 (EncoderBlock_forward_eval blk small_encoder_weights
                       [[1; 2]; [3; 4]; [5; 6]]%R) 3 1.
Proof.
  pose proof (EncoderBlock_init_Ret (λ _, Ret ()) (encoder_cfg "relu" 1)
                Dropout ReLU () eq_refl eq_refl eq_refl) as Hblk.
  cbv zeta in Hblk. eexists. split; [exact Hblk|].
  apply (EncoderBlock_forward_eval_shape (λ _, Ret ()) (encoder_cfg "relu" 1) _
           small_encoder_weights _ 3 Hblk).
  - repeat split; simpl; repeat constructor.
  - split; [reflexivity|]. repeat constructor.
Defined.

(** ** The layer-normalising block with normalisation switched on *)

(** A freshly constructed affine layer (weight ones, bias zeros) computes
    what the layer without affine parameters computes. *)
Lemma affine_ones_zeros (y : tensor1) (D : nat) :
  length y = D →
  zip_with Rplus (zip_with Rmult y (replicate D 1%R)) (replicate D 0%R) = y.
Proof.
  revert D. induction y as [|x y IH]; intros D Hlen; [by destruct D|].
  destruct D as [|D]; [done|]. simpl. f_equal; [lra|]. apply IH. by injection Hlen.
Qed.

Lemma layer_norm_vec_init (D : nat) (aff : bool) (v : tensor1) :
  length v = D →
  layer_norm_vec (LayerNorm_init D aff) v
  = layer_norm_vec (LayerNorm_init D false) v.
Proof.
  intros Hlen. destruct aff; [|done]. unfold layer_norm_vec. simpl.
  apply affine_ones_zeros. by rewrite length_fmap.
Qed.

Lemma LayerNormalizingBlock_forward_init_eq (cfg : Config) (q a : tensor3)
    (i : option tensor3) :
  LayerNormalizingBlock_forward (LayerNormalizingBlock_init cfg) q a i
  = Ret (block_normalisation cfg q, block_normalisation cfg a,
         block_normalisation cfg <$> i).
Proof.
  unfold LayerNormalizingBlock_forward, LayerNormalizingBlock_init,
    block_normalisation.
  destruct (usage (layerNormBlock cfg)) eqn:Hu; simpl; rewrite Hu; [|by destruct i].
  by destruct i.
Qed.

Lemma has_shape3_block_normalisation (cfg : Config) (t : tensor3) B P :
  has_shape3 t B P (associationSpace_dim cfg) →
  has_shape3 (block_normalisation cfg t) B P (associationSpace_dim cfg).
Proof.
  intros [Hlen Hrows]. unfold block_normalisation.
  destruct (usage (layerNormBlock cfg)); [|by split].
  unfold LayerNorm_forward. split; [by rewrite length_fmap|].
  apply Forall_fmap. eapply Forall_impl; [exact Hrows|].
  intros row [Hrow Hvs]. simpl. split; [by rewrite length_fmap|].
  apply Forall_fmap. eapply Forall_impl; [exact Hvs|].
  intros v Hv. simpl. rewrite layer_norm_vec_init by done.
  unfold layer_norm_vec. simpl. by rewrite length_fmap.
Qed.

(** X5.  On a block built by [__init__], [forward] never raises: it applies
    one and the same shape-preserving map to the query, to the actives and,
    when present, to the inactives (an absent inactive embedding stays
    [None]); the map is the identity when [usage] is off. *)
Theorem LayerNormalizingBlock_forward_init (cfg : Config) (q a : tensor3)
    (i : option tensor3) :
  LayerNormalizingBlock_forward (LayerNormalizingBlock_init cfg) q a i
  = Ret (block_normalisation cfg q, block_normalisation cfg a,
         block_normalisation cfg <$> i) ∧
  (∀ t B P, has_shape3 t B P (associationSpace_dim cfg) →
            has_shape3 (block_normalisation cfg t) B P (associationSpace_dim cfg)) ∧
  (usage (layerNormBlock cfg) = false → ∀ t, block_normalisation cfg t = t).
Proof.
  split; [apply LayerNormalizingBlock_forward_init_eq|].
  split; [intros t B P; apply has_shape3_block_normalisation|].
  intros Hoff t. unfold block_normalisation. by rewrite Hoff.
Qed.

(** ** The context module: splitting undoes stacking *)







(** ** The cross-attention module: residual and removal of the encoding *)

Lemma has_shape3_transpose01 (t : tensor3) R C E :
  has_shape3 t (S R) C E → has_shape3 (transpose01 t) C (S R) E.
Proof.
  intros Ht. pose proof (has_shape3_outer _ _ _ _ Ht) as Ht2.
  destruct (has_shape2_transpose [] t R C Ht2) as [Hlen _].
  apply has_shape3_intro; [exact Hlen|]. intros j col Hcol.
  unfold transpose01 in *.
  assert (j < C) as Hj by (apply lookup_lt_Some in Hcol; by rewrite Hlen in Hcol).
  rewrite (lookup_transpose [] t R C j Ht2 Hj) in Hcol. injection Hcol as <-.
  destruct Ht as [Hl Hrows]. split; [by rewrite length_fmap|].
  apply Forall_fmap. eapply Forall_impl; [exact Hrows|].
  intros row [Hrow Hvs]. simpl. rewrite nth_lookup.
  destruct (lookup_lt_is_Some_2 row j) as [v Hv]; [lia|]. rewrite Hv. simpl.
  apply (Forall_lookup_1 _ _ _ _ Hvs Hv).
Qed.

Lemma has_shape3_slice_dim2_to {A : Type} (w : nat) (t : list (list (list A))) B P E :
  w ≤ E → has_shape3 t B P E → has_shape3 (slice_dim2_to w t) B P w.
Proof.
  intros Hw [Hlen Hrows]. unfold slice_dim2_to. split; [by rewrite length_fmap|].
  apply Forall_fmap. eapply Forall_impl; [exact Hrows|].
  intros row [Hrow Hvs]. simpl. split; [by rewrite length_fmap|].
  apply Forall_fmap. eapply Forall_impl; [exact Hvs|].
  intros v Hv. simpl in *. rewrite length_take, Hv. lia.
Qed.

Lemma shape2_nonempty {A : Type} (t : list (list (list A))) B P D :
  has_shape3 t (S B) (S P) D → shape2 t = D.
Proof.
  intros [Hlen Hrows]. unfold shape2. destruct t as [|row t]; [done|].
  apply Forall_inv in Hrows as [Hrow Hvs]. destruct row as [|v row]; [done|].
  by apply Forall_inv in Hvs.
Qed.

Lemma take_vadd_encoded (D w : nat) (c : R) (v r : tensor1) :
  length v = D → take D (vadd (append_encoding w c v) r) = vadd v (take D r).
Proof.
  intros Hlen. unfold vadd, append_encoding. rewrite zip_with_take.
  by rewrite take_app_length'.
Qed.

(** X9.  For a non-empty batch with at least one active slot and a
    transformer whose result has the shape of its input: the three results
    have the shapes [[B,1,D]], [[B,P_a,D]], [[B,P_i,D]] of the inputs, for
    every activity-encoding width, and every result vector is the input
    vector at the same role and slot plus the first [D] entries of the
    transformer output for its position; the activity-encoding columns
    leave no trace in the result. *)
Theorem CrossAttentionModule_forward_residual (self : CrossAttentionModule)
    (q a i : tensor3) (am im : list (list bool)) (B Pa Pi D : nat) :
  0 < B → 0 < Pa →
  has_shape3 q B 1 D → has_shape3 a B Pa D → has_shape3 i B Pi D →
  let cfg := cam_cfg self in
  let E := D + min (activity_embedding_dim (transformer_cfg cfg)) D in
  let t := transformer self (transpose01 (CrossAttention_sequence cfg q a i))
                       (CrossAttention_padding_mask am im) in
  let out := CrossAttentionModule_forward self q a i am im in
  has_shape3 t (1 + Pa + Pi) B E →
  has_shape3 out.1.1 B 1 D ∧ has_shape3 out.1.2 B Pa D ∧ has_shape3 out.2 B Pi D ∧
  (∀ b v r, at2 q b 0 = Some v → at2 t 0 b = Some r →
            at2 out.1.1 b 0 = Some (vadd v (take D r))) ∧
  (∀ b k v r, at2 a b k = Some v → at2 t (1 + k) b = Some r →
              at2 out.1.2 b k = Some (vadd v (take D r))) ∧
  (∀ b k v r, at2 i b k = Some v → at2 t (1 + Pa + k) b = Some r →
              at2 out.2 b k = Some (vadd v (take D r))).
Proof.
  intros HB HPa Hq Ha Hi cfg E t out Ht.
  destruct B as [|B]; [lia|]. destruct Pa as [|Pa]; [lia|]. clear HB HPa.
  set (w := activity_embedding_dim (transformer_cfg cfg)) in *.
  set (N := 1 + S Pa + Pi) in *.
  set (s := CrossAttention_sequence cfg q a i) in *.
  pose proof (CrossAttention_sequence_shape cfg q a i _ _ _ _ Hq Ha Hi) as Hs.
  fold s w N E in Hs.
  pose proof (has_shape3_outer _ _ _ _ Hs) as Hs2.
  pose proof (has_shape3_outer _ _ _ _ Ht) as Ht2.
  set (U := add3 (transpose01 (transpose01 s)) (transpose01 t)).
  assert (transpose01 (transpose01 s) = s) as Hss.
  { unfold transpose01. apply (transpose_transpose [] s N); [by destruct Hs2|].
    subst N. lia. }
  assert (has_shape3 U (S B) N E) as HU.
  { subst U. rewrite Hss. apply has_shape3_add3; [done|].
    by apply (has_shape3_transpose01 t (S Pa + Pi) (S B) E). }
  assert (∀ b j u r, at2 s b j = Some u → at2 t j b = Some r →
                     at2 U b j = Some (vadd u r)) as HUat.
  { intros b j u r Hu Hr. subst U. rewrite Hss. apply at2_add3; [done|].
    destruct (at2_lt _ _ _ _ _ _ Hs2 Hu) as [Hb Hj]. unfold transpose01.
    by rewrite (at2_transpose [] t (S Pa + Pi) (S B)). }
  assert (shape2 a = D) as Hed by apply (shape2_nonempty a B Pa D Ha).
  assert (shape1 (actives_with_encoding cfg a) = S Pa) as Hpa.
  { apply (shape1_nonempty _ B). rewrite actives_with_encoding_rows.
    apply (has_shape2_fmap_rows _ _ _ (S Pa)); [intros; by rewrite length_fmap|].
    by apply (has_shape3_outer _ _ _ D). }
  assert (has_shape3 (slice_dim2_to D (slice_dim1 1 (S Pa + 1) U)) (S B) (S Pa) D)
    as Hout_a.
  { apply (has_shape3_slice_dim2_to D _ _ _ E); [subst E; lia|].
    apply (has_shape3_slice_dim1 1 (S Pa) U (S B) N E); [subst N; lia|done]. }
  assert (shape1 (slice_dim2_to D (slice_dim1 1 (S Pa + 1) U)) = S Pa) as Hpa2.
  { apply (shape1_nonempty _ B), (has_shape3_outer _ _ _ D), Hout_a. }
  subst out. unfold CrossAttentionModule_forward.
  fold cfg s t U. rewrite Hed, Hpa, Hpa2. simpl.
  split; [|split; [exact Hout_a|split]].
  - destruct HU as [HUl HUr]. unfold unsqueeze1, index_dim1. split.
    + by rewrite !length_fmap.
    + apply Forall_fmap, Forall_fmap, Forall_fmap.
      eapply Forall_impl; [exact HUr|]. intros row [Hrow Hvs]. simpl.
      split; [done|]. repeat constructor.
      destruct row as [|v row]; [done|]. simpl. apply Forall_inv in Hvs.
      rewrite length_take. subst E. lia.
  - apply (has_shape3_slice_dim2_to D _ _ _ E); [subst E; lia|].
    apply (has_shape3_slice_dim1_from (S Pa + 1) U (S B) Pi E).
    by replace (S Pa + 1 + Pi) with N by (subst N; lia).
  - split; [|split].
    + intros b v r Hv Hr.
      destruct (at2_lt _ _ _ _ _ _ (has_shape3_outer _ _ _ _ Hq) Hv) as [Hb _].
      destruct (CrossAttention_sequence_at cfg q a i _ _ _ _ b Hq Ha Hi Hb)
        as (Hs0 & _ & _). fold s w in Hs0. rewrite Hv in Hs0. simpl in Hs0.
      pose proof (HUat b 0 _ r Hs0 Hr) as HU0.
      assert (length v = D) as Hlv.
      { unfold at2 in Hv. destruct (q !! b) as [row|] eqn:Hrow; [|done].
        destruct Hq as [_ Hq]. destruct (Forall_lookup_1 _ _ _ _ Hq Hrow) as [_ Hvs].
        apply (Forall_lookup_1 _ _ _ _ Hvs Hv). }
      unfold at2, unsqueeze1, index_dim1 in *. rewrite !list_lookup_fmap.
      destruct (U !! b) as [row|]; [|done]. simpl in *.
      destruct row as [|u row]; [done|]. simpl in *. injection HU0 as ->.
      by rewrite take_vadd_encoded.
    + intros b k v r Hv Hr.
      destruct (at2_lt _ _ _ _ _ _ (has_shape3_outer _ _ _ _ Ha) Hv) as [Hb Hk].
      destruct (CrossAttention_sequence_at cfg q a i _ _ _ _ b Hq Ha Hi Hb)
        as (_ & Hsa & _). fold s w in Hsa. specialize (Hsa k Hk).
      rewrite Hv in Hsa. simpl in Hsa.
      assert (length v = D) as Hlv.
      { unfold at2 in Hv. destruct (a !! b) as [row|] eqn:Hrow; [|done].
        destruct Ha as [_ Ha]. destruct (Forall_lookup_1 _ _ _ _ Ha Hrow) as [_ Hvs].
        apply (Forall_lookup_1 _ _ _ _ Hvs Hv). }
      rewrite at2_slice_dim2_to, at2_slice_dim1 by lia.
      rewrite (HUat b (1 + k) _ r Hsa Hr). simpl.
      by rewrite take_vadd_encoded.
    + intros b k v r Hv Hr.
      destruct (at2_lt _ _ _ _ _ _ (has_shape3_outer _ _ _ _ Hi) Hv) as [Hb Hk].
      destruct (CrossAttention_sequence_at cfg q a i _ _ _ _ b Hq Ha Hi Hb)
        as (_ & _ & Hsi). fold s w in Hsi. specialize (Hsi k Hk).
      rewrite Hv in Hsi. simpl in Hsi.
      assert (length v = D) as Hlv.
      { unfold at2 in Hv. destruct (i !! b) as [row|] eqn:Hrow; [|done].
        destruct Hi as [_ Hi]. destruct (Forall_lookup_1 _ _ _ _ Hi Hrow) as [_ Hvs].
        apply (Forall_lookup_1 _ _ _ _ Hvs Hv). }
      rewrite at2_slice_dim2_to, at2_slice_dim1_from.
      match goal with
      | |- context [at2 U b ?j] => replace j with (1 + S Pa + k) by lia
      end.
      rewrite (HUat b (1 + S Pa + k) _ r Hsi Hr). simpl.
      by rewrite take_vadd_encoded.
Qed.

Lemma CrossAttentionModule_forward_residual_witness :
  let self := {| cam_cfg := small_cfg 1 1 false "1/N";
                 transformer := uniform_attention |} in
  let out := CrossAttentionModule_forward self [[[1]]]%R [[[2]]]%R [[[0]]]%R
               [[true]] [[false]] in
  has_shape3 out.1.1 1 1 1 ∧ has_shape3 out.1.2 1 1 1 ∧ has_shape3 out.2 1 1 1.
Proof.
  intros self out.
  destruct (CrossAttentionModule_forward_residual self [[[1]]]%R [[[2]]]%R [[[0]]]%R
              [[true]] [[false]] 1 1 1 1) as (Hq & Ha & Hi & _); try lia;
    try (split; [reflexivity|]; repeat constructor).
  exact (conj Hq (conj Ha Hi)).
Defined.

(* ===================================================================== *)
(** * Part IV: the similarity scorer in binary32 arithmetic *)
(* ===================================================================== *)

(** The stabilizer is the binary32 value nearest to [1e-8]. *)
Lemma stabilizer_value : Float32.stabilizer = S754_finite false 11258999 (-50).
Proof. reflexivity. Qed.

(** ** Zeros, infinities and NaN *)

Lemma mul_zero_finite (x z : spec_float) :
  Float32.is_finite x = true → Float32.is_zero z = true →
  Float32.is_zero (Float32.mul x z) = true.
Proof. destruct x, z; simpl; intros; done. Qed.

Lemma mul_zero_nonfinite (x z : spec_float) :
  Float32.is_finite x = false → Float32.is_zero z = true →
  Float32.mul x z = S754_nan.
Proof. destruct x, z; simpl; intros; done. Qed.

Lemma mul_nan_r (c : spec_float) : Float32.mul c S754_nan = S754_nan.
Proof. destruct c; reflexivity. Qed.

Lemma add_nan_r (x : spec_float) : Float32.add x S754_nan = S754_nan.
Proof. destruct x; reflexivity. Qed.

Lemma same_value_refl (x : spec_float) : Float32.same_value x x.
Proof. by left. Qed.

Lemma same_value_trans (x y z : spec_float) :
  Float32.same_value x y → Float32.same_value y z → Float32.same_value x z.
Proof.
  intros [->|[Hx Hy]] [->|[Hy' Hz]]; unfold Float32.same_value; eauto.
Qed.

Lemma add_zero_r (acc z : spec_float) :
  Float32.is_zero z = true → Float32.same_value (Float32.add acc z) acc.
Proof.
  destruct z; try done. intros _.
  destruct acc as [s'| | |]; try (by left).
  right. by destruct s', s.
Qed.

Lemma add_same_value (acc acc' t : spec_float) :
  Float32.same_value acc acc' →
  Float32.same_value (Float32.add acc t) (Float32.add acc' t).
Proof.
  intros [->|[Hz Hz']]; [by left|].
  destruct acc as [s| | |]; try done. destruct acc' as [s'| | |]; try done.
  destruct t as [st| | |]; try (by left).
  right. by destruct s, s', st.
Qed.

Lemma mul_same_value (c z z' : spec_float) :
  Float32.same_value z z' →
  Float32.same_value (Float32.mul c z) (Float32.mul c z').
Proof.
  intros [->|[Hz Hz']]; [by left|].
  destruct z as [s| | |]; try done. destruct z' as [s'| | |]; try done.
  destruct c as [sc|sc| |sc mc ec]; try (by left); by right.
Qed.

(** ** Sums *)

Lemma foldl_add_nan (v : Float32.tensor1) : foldl Float32.add S754_nan v = S754_nan.
Proof. induction v as [|x v IH]; [done|]. simpl. exact IH. Qed.

Lemma foldl_add_nan_term (acc : spec_float) (v : Float32.tensor1) :
  S754_nan ∈ v → foldl Float32.add acc v = S754_nan.
Proof.
  intros Hin. revert acc. induction v as [|x v IH]; intros acc.
  - by apply elem_of_nil in Hin.
  - apply elem_of_cons in Hin as [<-|Hin]; simpl.
    + rewrite add_nan_r. apply foldl_add_nan.
    + by apply IH.
Qed.

Lemma foldl_add_zeros (acc : spec_float) (v : Float32.tensor1) :
  Float32.is_zero acc = true → Forall (λ x, Float32.is_zero x = true) v →
  Float32.is_zero (foldl Float32.add acc v) = true.
Proof.
  intros Hacc Hv. revert acc Hacc.
  induction Hv as [|x v Hx _ IH]; intros acc Hacc; [done|].
  simpl. apply IH. destruct acc as [s| | |], x as [s'| | |]; try done.
  by destruct s, s'.
Qed.

(** ** Multiplying and dividing by one *)

Lemma shr_fexp_canonical (m : positive) (e : Z) :
  canonical_mantissa Float32.prec Float32.emax m e = true →
  shr_fexp Float32.prec Float32.emax (Zpos m) e loc_Exact
  = ({| shr_m := Zpos m; shr_r := false; shr_s := false |}, e).
Proof.
  intros Hc. apply Z.eqb_eq in Hc.
  unfold shr_fexp. cbn [Zdigits2]. rewrite Hc, Z.sub_diag. reflexivity.
Qed.

(** Rounding a representable mantissa and exponent changes nothing. *)
Lemma binary_round_aux_representable (s : bool) (m : positive) (e : Z) :
  bounded Float32.prec Float32.emax m e = true →
  binary_round_aux Float32.prec Float32.emax s (Zpos m) e loc_Exact
  = S754_finite s m e.
Proof.
  intros Hb. apply andb_true_iff in Hb as [Hc He].
  unfold binary_round_aux. rewrite (shr_fexp_canonical m e Hc).
  cbn [shr_m loc_of_shr_record round_nearest_even].
  rewrite (shr_fexp_canonical m e Hc). cbn [shr_m].
  by rewrite He.
Qed.

Lemma mul_one (x : spec_float) :
  Float32.representable x = true → Float32.mul x Float32.one = x.
Proof.
  destruct x as [s|s| |s m e]; try (by destruct s); try done.
  intros Hb. pose proof Hb as Hb'.
  apply andb_true_iff in Hb' as [Hc He]. apply Z.eqb_eq in Hc.
  change (Float32.mul (S754_finite s m e) Float32.one)
    with (binary_round_aux Float32.prec Float32.emax (xorb s false)
            (Zpos (m * 8388608)) (e + -23) loc_Exact).
  rewrite xorb_false_r. unfold binary_round_aux.
  assert (shr_fexp Float32.prec Float32.emax (Zpos (m * 8388608)) (e + -23) loc_Exact
          = ({| shr_m := Zpos m; shr_r := false; shr_s := false |}, e)) as ->.
  { unfold shr_fexp. rewrite Pos.mul_comm.
    let t := eval cbv in (8388608 * m)%positive in
      change (8388608 * m)%positive with t.
    cbn [Zdigits2 digits2_pos]. rewrite !Pos2Z.inj_succ.
    match goal with
    | |- context [fexp _ _ ?a] =>
        replace a with (Z.pos (digits2_pos m) + e)%Z by lia
    end.
    rewrite Hc. replace (e - (e + -23))%Z with 23%Z by lia.
    cbn. f_equal. lia. }
  cbn [shr_m loc_of_shr_record round_nearest_even].
  rewrite (shr_fexp_canonical m e) by (by apply Z.eqb_eq).
  cbn [shr_m]. by rewrite He.
Qed.

Lemma div_eucl_exact (q : Z) (k : positive) :
  Z.div_eucl (q * Zpos k) (Zpos k) = (q, 0%Z).
Proof.
  pose proof (Z_div_mod (q * Zpos k) (Zpos k) ltac:(lia)) as H.
  destruct (Z.div_eucl (q * Z.pos k) (Z.pos k)) as [q' r]. destruct H as [H Hr].
  assert (q' = q) as -> by nia. f_equal. lia.
Qed.

Lemma div_one (x : spec_float) :
  Float32.representable x = true → Float32.div x Float32.one = x.
Proof.
  destruct x as [s|s| |s m e]; try (by destruct s); try done.
  intros Hb. pose proof Hb as Hb'.
  apply andb_true_iff in Hb' as [Hc He]. pose proof Hc as Hc'. apply Z.eqb_eq in Hc'.
  change (Float32.div (S754_finite s m e) Float32.one)
    with (let '(mz, ez, lz) :=
            SFdiv_core_binary Float32.prec Float32.emax (Zpos m) e (Zpos 8388608) (-23)
          in binary_round_aux Float32.prec Float32.emax (xorb s false) mz ez lz).
  rewrite xorb_false_r. unfold SFdiv_core_binary.
  cbn [Zdigits2]. change (digits2_pos 8388608) with 24%positive.
  set (e' := Z.min _ _).
  assert (e' = e ∨ e' = (e - 1)%Z ∧
          fexp Float32.prec Float32.emax (Z.pos (digits2_pos m) + 1 + (e - 1)) = e)
    as [He'|[He' Hfexp]].
  { subst e'. revert Hc'. unfold fexp, emin, Float32.prec, Float32.emax. lia. }
  - replace (e - -23 - e')%Z with 23%Z by lia.
    rewrite Z.shiftl_mul_pow2 by lia.
    change (2 ^ 23)%Z with (Zpos 8388608). rewrite div_eucl_exact.
    change (new_location (Zpos 8388608) 0) with loc_Exact.
    rewrite He'. by apply binary_round_aux_representable.
  - replace (e - -23 - e')%Z with 24%Z by lia.
    rewrite Z.shiftl_mul_pow2 by lia.
    replace (Z.pos m * 2 ^ 24)%Z with (Zpos m~0 * Zpos 8388608)%Z by lia.
    rewrite div_eucl_exact.
    change (new_location (Zpos 8388608) 0) with loc_Exact.
    rewrite He'. unfold binary_round_aux.
    assert (shr_fexp Float32.prec Float32.emax (Zpos m~0) (e - 1) loc_Exact
            = ({| shr_m := Zpos m; shr_r := false; shr_s := false |}, e)) as ->.
    { unfold shr_fexp. cbn [Zdigits2 digits2_pos]. rewrite Pos2Z.inj_succ.
      replace (Z.succ (Z.pos (digits2_pos m)) + (e - 1))%Z
        with (Z.pos (digits2_pos m) + 1 + (e - 1))%Z by lia.
      rewrite Hfexp. replace (e - (e - 1))%Z with 1%Z by lia.
      cbn. f_equal. lia. }
    cbn [shr_m loc_of_shr_record round_nearest_even].
    rewrite (shr_fexp_canonical m e Hc). cbn [shr_m]. by rewrite He.
Qed.

(** ** Mantissa sizes and shifts *)

Lemma digits2_pos_size (p : positive) : digits2_pos p = Pos.size p.
Proof. induction p as [p IH|p IH|]; simpl; by rewrite ?IH. Qed.

Lemma digits2_pos_bounds (p : positive) :
  (2 ^ (Zpos (digits2_pos p) - 1) <= Zpos p < 2 ^ Zpos (digits2_pos p))%Z.
Proof.
  rewrite digits2_pos_size.
  pose proof (Pos.size_gt p) as Hgt. pose proof (Pos.size_le p) as Hle.
  apply Pos2Z.pos_lt_pos in Hgt. apply Pos2Z.pos_le_pos in Hle.
  rewrite Pos2Z.inj_pow in Hgt, Hle. change (Z.pos p~0) with (2 * Z.pos p)%Z in Hle.
  split; [|exact Hgt].
  replace (2 ^ Z.pos (Pos.size p))%Z
    with (2 * 2 ^ (Z.pos (Pos.size p) - 1))%Z in Hle; [lia|].
  rewrite <- Z.pow_succ_r by lia. f_equal. lia.
Qed.

Lemma digits2_pos_unique (p : positive) (k : Z) :
  (2 ^ (k - 1) <= Zpos p < 2 ^ k)%Z → Zpos (digits2_pos p) = k.
Proof.
  intros [Hlo Hhi]. pose proof (digits2_pos_bounds p) as [Hlo' Hhi'].
  assert (0 < k)%Z as Hk.
  { destruct (Z.lt_trichotomy k 0) as [Hneg|[->|Hpos]]; [|simpl in Hhi; lia|done].
    rewrite Z.pow_neg_r in Hhi by done. lia. }
  destruct (Z.lt_trichotomy (Zpos (digits2_pos p)) k) as [Hlt|[Heq|Hgt]]; [|done|].
  - assert (2 ^ Zpos (digits2_pos p) <= 2 ^ (k - 1))%Z
      by (apply Z.pow_le_mono_r; lia). lia.
  - assert (2 ^ k <= 2 ^ (Zpos (digits2_pos p) - 1))%Z
      by (apply Z.pow_le_mono_r; lia). lia.
Qed.

Lemma iter_xO_mul (p k : positive) :
  Zpos (Pos.iter xO p k) = (Zpos p * 2 ^ Zpos k)%Z.
Proof.
  induction k as [|k IH] using Pos.peano_ind.
  - simpl. lia.
  - rewrite Pos.iter_succ, Pos2Z.inj_xO, IH, Pos2Z.inj_succ, Z.pow_succ_r by lia. lia.
Qed.

Lemma digits2_pos_iter_xO (p k : positive) :
  Zpos (digits2_pos (Pos.iter xO p k)) = (Zpos (digits2_pos p) + Zpos k)%Z.
Proof.
  apply digits2_pos_unique. rewrite iter_xO_mul.
  pose proof (digits2_pos_bounds p) as [Hlo Hhi].
  replace (Z.pos (digits2_pos p) + Z.pos k - 1)%Z
    with ((Z.pos (digits2_pos p) - 1) + Z.pos k)%Z by lia.
  rewrite !Z.pow_add_r by lia.
  assert (0 < 2 ^ Z.pos k)%Z by (apply Z.pow_pos_nonneg; lia). nia.
Qed.

Lemma iter_pos_iter {A : Type} (f : A → A) (p : positive) (x : A) :
  SpecFloat.iter_pos f p x = Pos.iter f x p.
Proof.
  revert x. induction p as [p IH|p IH|]; intros x; simpl; [|by rewrite !IH|done].
  by rewrite !IH, <- !Pos.iter_swap.
Qed.

Lemma shr_1_nonneg (M : Z) (r s : bool) :
  (0 <= M)%Z →
  shr_1 {| shr_m := M; shr_r := r; shr_s := s |}
  = {| shr_m := M / 2; shr_r := Z.odd M; shr_s := r || s |}.
Proof.
  intros HM. rewrite <- Z.div2_div.
  destruct M as [|p|p]; [done| |lia]. by destruct p.
Qed.

(** After [k] one-bit shifts the record holds the quotient by [2^k], the
    last bit shifted out, and whether a lower bit was set. *)
Lemma iter_shr_1 (k : positive) (M : Z) :
  (0 <= M)%Z →
  SpecFloat.iter_pos shr_1 k {| shr_m := M; shr_r := false; shr_s := false |}
  = {| shr_m := M / 2 ^ Zpos k;
       shr_r := Z.odd (M / 2 ^ (Zpos k - 1));
       shr_s := negb (M mod 2 ^ (Zpos k - 1) =? 0)%Z |}.
Proof.
  intros HM. rewrite iter_pos_iter.
  induction k as [|k IH] using Pos.peano_ind.
  - change (Pos.iter shr_1 {| shr_m := M; shr_r := false; shr_s := false |} 1)
      with (shr_1 {| shr_m := M; shr_r := false; shr_s := false |}).
    rewrite shr_1_nonneg by done.
    change (2 ^ (1 - 1))%Z with 1%Z. change (2 ^ 1)%Z with 2%Z.
    by rewrite Z.div_1_r, Z.mod_1_r.
  - rewrite Pos.iter_succ, IH.
    assert (0 < 2 ^ (Zpos k - 1))%Z as Hpos by (apply Z.pow_pos_nonneg; lia).
    assert (2 ^ Zpos k = 2 * 2 ^ (Zpos k - 1))%Z as Hpow.
    { rewrite <- Z.pow_succ_r by lia. f_equal. lia. }
    rewrite shr_1_nonneg by (apply Z.div_pos; lia).
    rewrite Pos2Z.inj_succ.
    replace (Z.succ (Z.pos k) - 1)%Z with (Zpos k) by lia.
    rewrite Z.pow_succ_r by lia.
    f_equal.
    + rewrite Z.div_div by lia. f_equal. lia.
    + set (P := (2 ^ (Zpos k - 1))%Z) in *. rewrite Hpow.
      pose proof (Z.div_mod M P ltac:(lia)) as HMP.
      pose proof (Z.mod_pos_bound M P ltac:(lia)) as Hr.
      pose proof (Z.div_mod (M / P) 2 ltac:(lia)) as Hq.
      pose proof (Z.mod_pos_bound (M / P) 2 ltac:(lia)) as Hb.
      assert (M mod (2 * P) = P * ((M / P) mod 2) + M mod P)%Z as ->.
      { symmetry. apply (Z.mod_unique_pos _ _ (M / P / 2)); nia. }
      rewrite Zodd_mod.
      destruct (Z.eqb_spec ((M / P) mod 2) 1) as [H1|H1],
               (Z.eqb_spec (M mod P) 0) as [H0|H0],
               (Z.eqb_spec (P * ((M / P) mod 2) + M mod P) 0) as [H2|H2];
        simpl; try reflexivity; exfalso; nia.
Qed.

(** ** Rounding gives no NaN *)

Lemma shr_1_m_nonneg (mrs : shr_record) :
  (0 <= shr_m mrs)%Z → (0 <= shr_m (shr_1 mrs))%Z.
Proof.
  destruct mrs as [M r s]. simpl shr_m at 1. intros HM.
  rewrite shr_1_nonneg by done. simpl. by apply Z.div_pos.
Qed.

Lemma shr_m_nonneg (mrs : shr_record) (e n : Z) :
  (0 <= shr_m mrs)%Z → (0 <= shr_m (shr mrs e n).1)%Z.
Proof.
  intros HM. destruct n as [|k|k]; simpl; try done.
  rewrite iter_pos_iter.
  induction k as [|k IH] using Pos.peano_ind.
  - by apply shr_1_m_nonneg.
  - rewrite Pos.iter_succ. by apply shr_1_m_nonneg.
Qed.

Lemma shr_fexp_m_nonneg (M e : Z) (l : location) :
  (0 <= M)%Z → (0 <= shr_m (shr_fexp Float32.prec Float32.emax M e l).1)%Z.
Proof.
  intros HM. unfold shr_fexp. apply shr_m_nonneg. by destruct l as [|[]].
Qed.

Lemma round_nearest_even_nonneg (M : Z) (l : location) :
  (0 <= M)%Z → (0 <= round_nearest_even M l)%Z.
Proof.
  intros HM. destruct l as [|[]]; simpl; try done; [|lia].
  destruct (Z.even M); lia.
Qed.

(** Rounding a non-negative mantissa gives a zero, a finite value or an
    infinity of the given sign, never NaN. *)
Lemma binary_round_aux_class (sx : bool) (M e : Z) (l : location) :
  (0 <= M)%Z →
  match binary_round_aux Float32.prec Float32.emax sx M e l with
  | S754_zero s | S754_infinity s | S754_finite s _ _ => s = sx
  | S754_nan => False
  end.
Proof.
  intros HM. unfold binary_round_aux.
  pose proof (shr_fexp_m_nonneg M e l HM) as H1.
  destruct (shr_fexp Float32.prec Float32.emax M e l) as [mrs' e'].
  simpl in H1.
  pose proof (shr_fexp_m_nonneg _ e' loc_Exact
                (round_nearest_even_nonneg _ (loc_of_shr_record mrs') H1)) as H2.
  destruct (shr_fexp _ _ _ e' loc_Exact) as [mrs'' e''].
  simpl in H2. destruct (shr_m mrs'') as [|p|p]; [done| |lia].
  by destruct (e'' <=? Float32.emax - Float32.prec)%Z.
Qed.

(** ** Results are binary32 values *)

Lemma shr_m_iter (k : positive) (mrs : shr_record) :
  (0 <= shr_m mrs)%Z →
  shr_m (SpecFloat.iter_pos shr_1 k mrs) = (shr_m mrs / 2 ^ Zpos k)%Z.
Proof.
  intros HM. rewrite iter_pos_iter.
  induction k as [|k IH] using Pos.peano_ind.
  - destruct mrs as [M r s]. simpl in HM.
    change (Pos.iter shr_1 {| shr_m := M; shr_r := r; shr_s := s |} 1)
      with (shr_1 {| shr_m := M; shr_r := r; shr_s := s |}).
    by rewrite shr_1_nonneg.
  - rewrite Pos.iter_succ.
    assert (0 <= shr_m (Pos.iter shr_1 mrs k))%Z as Hk.
    { rewrite IH. apply Z.div_pos; [done|]. apply Z.pow_pos_nonneg; lia. }
    destruct (Pos.iter shr_1 mrs k) as [M r s]. simpl in IH, Hk.
    rewrite shr_1_nonneg by done. simpl. rewrite IH, Pos2Z.inj_succ.
    rewrite Z.pow_succ_r by lia.
    assert (0 < 2 ^ Zpos k)%Z as Hpow by (apply Z.pow_pos_nonneg; lia).
    rewrite Z.div_div by lia. f_equal. lia.
Qed.

Lemma Zdigits2_bounds (M : Z) :
  (0 < M)%Z → (2 ^ (Zdigits2 M - 1) <= M < 2 ^ Zdigits2 M)%Z.
Proof. destruct M as [|p|p]; try lia. intros _. apply digits2_pos_bounds. Qed.

Lemma Zdigits2_unique (M k : Z) :
  (2 ^ (k - 1) <= M < 2 ^ k)%Z → (0 < M)%Z → Zdigits2 M = k.
Proof. destruct M as [|p|p]; try lia. intros H _. by apply digits2_pos_unique. Qed.

Lemma Zdigits2_nonneg (M : Z) : (0 <= Zdigits2 M)%Z.
Proof. destruct M; simpl; lia. Qed.

Lemma Zdigits2_mono (M M' : Z) :
  (0 <= M <= M')%Z → (Zdigits2 M <= Zdigits2 M')%Z.
Proof.
  intros [H0 Hle]. destruct (Z.eq_dec M 0%Z) as [->|HM].
  { apply Zdigits2_nonneg. }
  pose proof (Zdigits2_bounds M ltac:(lia)) as [Hlo _].
  pose proof (Zdigits2_bounds M' ltac:(lia)) as [_ Hhi].
  destruct (Z.le_gt_cases (Zdigits2 M) (Zdigits2 M')) as [|Hgt]; [done|].
  assert (2 ^ Zdigits2 M' <= 2 ^ (Zdigits2 M - 1))%Z
    by (apply Z.pow_le_mono_r; lia). lia.
Qed.

(** The digits of a quotient by a power of two. *)
Lemma Zdigits2_div_pow2 (M n : Z) :
  (0 < M)%Z → (0 <= n)%Z → (0 < M / 2 ^ n)%Z →
  Zdigits2 (M / 2 ^ n) = (Zdigits2 M - n)%Z.
Proof.
  intros HM Hn Hq.
  pose proof (Zdigits2_bounds M HM) as [Hlo Hhi].
  assert (0 < 2 ^ n)%Z as Hpow by (apply Z.pow_pos_nonneg; lia).
  assert (n < Zdigits2 M)%Z as Hlt.
  { destruct (Z.lt_ge_cases n (Zdigits2 M)) as [|Hge]; [done|].
    assert (2 ^ Zdigits2 M <= 2 ^ n)%Z
      by (apply Z.pow_le_mono_r; [lia|]; pose proof (Zdigits2_nonneg M); lia).
    rewrite Z.div_small in Hq by lia. lia. }
  apply Zdigits2_unique; [|done]. split.
  - apply Z.div_le_lower_bound; [done|].
    rewrite <- Z.pow_add_r by lia.
    by replace (n + (Zdigits2 M - n - 1))%Z with (Zdigits2 M - 1)%Z by lia.
  - apply Z.div_lt_upper_bound; [done|].
    rewrite <- Z.pow_add_r by lia.
    by replace (n + (Zdigits2 M - n))%Z with (Zdigits2 M) by lia.
Qed.

(** One shift to the target exponent leaves a mantissa that fits it. *)
Lemma shr_fexp_canonical_out (M e : Z) (l : location) :
  (0 <= M)%Z →
  (e <= fexp Float32.prec Float32.emax (Zdigits2 M + e))%Z →
  let out := shr_fexp Float32.prec Float32.emax M e l in
  (0 <= shr_m out.1)%Z ∧ (shr_m out.1 <= M)%Z ∧
  fexp Float32.prec Float32.emax (Zdigits2 (shr_m out.1) + out.2) = out.2.
Proof.
  intros HM He. unfold shr_fexp.
  set (E := fexp Float32.prec Float32.emax (Zdigits2 M + e)) in *.
  assert (shr_m (shr_record_of_loc M l) = M) as Hrec by (by destruct l as [|[]]).
  destruct (E - e)%Z as [|k|k] eqn:Hn; [| |lia].
  - simpl. rewrite Hrec. split; [done|]. split; [lia|].
    change (E = e). lia.
  - cbn [shr fst snd]. rewrite shr_m_iter by (rewrite Hrec; done). rewrite Hrec.
    assert (0 < 2 ^ Zpos k)%Z as Hpow by (apply Z.pow_pos_nonneg; lia).
    assert (0 <= M / 2 ^ Zpos k)%Z as Hq0 by (by apply Z.div_pos).
    split; [done|]. split.
    { apply Z.div_le_upper_bound; [done|]. nia. }
    replace (e + Zpos k)%Z with E by lia.
    destruct (Z.eq_dec (M / 2 ^ Zpos k)%Z 0%Z) as [Hz|Hnz].
    + rewrite Hz. simpl Zdigits2.
      assert (E = emin Float32.prec Float32.emax) as HE.
      { destruct (Z.eq_dec M 0%Z) as [->|HM0].
        - subst E. revert Hn. simpl Zdigits2.
          unfold fexp, emin, Float32.prec, Float32.emax. lia.
        - pose proof (Zdigits2_bounds M ltac:(lia)) as [Hlo _].
          assert (M < 2 ^ Zpos k)%Z as Hsmall.
          { destruct (Z.lt_ge_cases M (2 ^ Zpos k)) as [|Hge]; [done|].
            assert (1 <= M / 2 ^ Zpos k)%Z
              by (apply Z.div_le_lower_bound; lia). lia. }
          assert (Zdigits2 M <= Zpos k)%Z as Hd.
          { destruct (Z.le_gt_cases (Zdigits2 M) (Zpos k)) as [|Hgt]; [done|].
            assert (2 ^ Zpos k <= 2 ^ (Zdigits2 M - 1))%Z
              by (apply Z.pow_le_mono_r; lia). lia. }
          subst E. revert Hn Hd. unfold fexp, emin, Float32.prec, Float32.emax. lia. }
      rewrite HE. unfold fexp, emin, Float32.prec, Float32.emax. lia.
    + assert (0 < M)%Z as HM0.
      { destruct (Z.eq_dec M 0%Z) as [->|]; [|lia]. by rewrite Z.div_0_l in Hnz by lia. }
      rewrite Zdigits2_div_pow2 by lia.
      by replace (Zdigits2 M - Zpos k + E)%Z with (Zdigits2 M + e)%Z by lia.
Qed.

Lemma round_nearest_even_bounds (M : Z) (l : location) :
  (M <= round_nearest_even M l <= M + 1)%Z.
Proof. destruct l as [|[]]; simpl; try lia. destruct (Z.even M); lia. Qed.

Lemma fexp_mono (a b : Z) :
  (a <= b)%Z →
  (fexp Float32.prec Float32.emax a <= fexp Float32.prec Float32.emax b)%Z.
Proof. unfold fexp. lia. Qed.

(** Rounding a non-negative mantissa whose exponent is not above the target
    exponent gives a binary32 value. *)
Lemma binary_round_aux_valid (sx : bool) (M e : Z) (l : location) :
  (0 <= M)%Z →
  (e <= fexp Float32.prec Float32.emax (Zdigits2 M + e))%Z →
  Float32.representable (binary_round_aux Float32.prec Float32.emax sx M e l) = true.
Proof.
  intros HM He. unfold binary_round_aux.
  pose proof (shr_fexp_canonical_out M e l HM He) as (H1 & _ & Hc1).
  destruct (shr_fexp Float32.prec Float32.emax M e l) as [mrs' e']. simpl in H1, Hc1.
  pose proof (round_nearest_even_bounds (shr_m mrs') (loc_of_shr_record mrs')) as Hr.
  set (M' := round_nearest_even (shr_m mrs') (loc_of_shr_record mrs')) in *.
  assert (e' <= fexp Float32.prec Float32.emax (Zdigits2 M' + e'))%Z as He'.
  { rewrite <- Hc1 at 1. apply fexp_mono.
    pose proof (Zdigits2_mono (shr_m mrs') M' ltac:(lia)). lia. }
  pose proof (shr_fexp_canonical_out M' e' loc_Exact ltac:(lia) He') as (H2 & _ & Hc2).
  destruct (shr_fexp Float32.prec Float32.emax M' e' loc_Exact) as [mrs'' e''].
  simpl in H2, Hc2. destruct (shr_m mrs'') as [|q|q] eqn:Hq; [done| |lia].
  destruct (e'' <=? Float32.emax - Float32.prec)%Z eqn:Hle; [|done].
  unfold Float32.representable, valid_binary, bounded, canonical_mantissa.
  apply andb_true_iff. split; [|exact Hle]. apply Z.eqb_eq. exact Hc2.
Qed.

Lemma binary_round_valid (sx : bool) (p : positive) (e : Z) :
  Float32.representable (binary_round Float32.prec Float32.emax sx p e) = true.
Proof.
  unfold binary_round, shl_align.
  set (E := fexp Float32.prec Float32.emax (Zpos (digits2_pos p) + e)).
  destruct (E - e)%Z as [|k|k] eqn:Hk.
  - apply binary_round_aux_valid; [lia|]. cbn [Zdigits2]. fold E. lia.
  - apply binary_round_aux_valid; [lia|]. cbn [Zdigits2]. fold E. lia.
  - apply binary_round_aux_valid; [lia|]. cbn [Zdigits2].
    rewrite digits2_pos_iter_xO.
    replace (Zpos (digits2_pos p) + Zpos k + E)%Z with (Zpos (digits2_pos p) + e)%Z
      by lia.
    fold E. lia.
Qed.

Lemma add_representable (x y : spec_float) :
  Float32.representable x = true → Float32.representable y = true →
  Float32.representable (Float32.add x y) = true.
Proof.
  intros Hx Hy.
  destruct x as [sx|sx| |sx mx ex], y as [sy|sy| |sy my ey]; try done;
    try (by destruct sx, sy).
  unfold Float32.add, SFadd, binary_normalize.
  destruct (_ + _)%Z; [done|apply binary_round_valid..].
Qed.

Lemma digits2_pos_mul (p q : positive) :
  (Zpos (digits2_pos p) + Zpos (digits2_pos q) - 1 <= Zpos (digits2_pos (p * q)))%Z.
Proof.
  pose proof (digits2_pos_bounds p) as [Hp _].
  pose proof (digits2_pos_bounds q) as [Hq _].
  pose proof (digits2_pos_bounds (p * q)) as [_ Hpq].
  destruct (Z.le_gt_cases (Zpos (digits2_pos p) + Zpos (digits2_pos q) - 1)
              (Zpos (digits2_pos (p * q)))) as [|Hgt]; [done|].
  assert (2 ^ Zpos (digits2_pos (p * q))
          <= 2 ^ (Zpos (digits2_pos p) - 1 + (Zpos (digits2_pos q) - 1)))%Z as Hle
    by (apply Z.pow_le_mono_r; lia).
  rewrite Z.pow_add_r in Hle by lia. rewrite Pos2Z.inj_mul in Hpq.
  assert (0 < 2 ^ (Zpos (digits2_pos p) - 1))%Z by (apply Z.pow_pos_nonneg; lia).
  assert (0 < 2 ^ (Zpos (digits2_pos q) - 1))%Z by (apply Z.pow_pos_nonneg; lia).
  nia.
Qed.

Lemma mul_representable (x y : spec_float) :
  Float32.representable x = true → Float32.representable y = true →
  Float32.representable (Float32.mul x y) = true.
Proof.
  intros Hx Hy.
  destruct x as [sx|sx| |sx mx ex], y as [sy|sy| |sy my ey]; try done.
  apply andb_true_iff in Hx as [Hcx _]. apply andb_true_iff in Hy as [Hcy _].
  apply Z.eqb_eq in Hcx, Hcy.
  apply binary_round_aux_valid; [lia|]. cbn [Zdigits2].
  pose proof (digits2_pos_mul mx my) as Hd.
  revert Hcx Hcy Hd. unfold fexp, emin, Float32.prec, Float32.emax.
  pose proof (Pos2Z.is_pos (digits2_pos mx)). pose proof (Pos2Z.is_pos (digits2_pos my)).
  lia.
Qed.

Lemma fsum_representable (v : Float32.tensor1) :
  Forall (λ x, Float32.representable x = true) v →
  Float32.representable (Float32.fsum v) = true.
Proof.
  intros Hv. unfold Float32.fsum.
  assert (Float32.representable Float32.zero = true) as Hacc by done.
  revert Hacc. generalize Float32.zero.
  induction Hv as [|x v Hx _ IH]; intros acc Hacc; [done|].
  simpl. apply IH. by apply add_representable.
Qed.

(** The similarities of binary32 vectors are binary32 values. *)
Lemma similarities_representable (qv : Float32.tensor1) (sv : Float32.tensor2) :
  Forall (λ x, Float32.representable x = true) qv →
  Forall (Forall (λ x, Float32.representable x = true)) sv →
  Forall (λ x, Float32.representable x = true) (Float32.similarities qv sv).
Proof.
  intros Hq Hs. apply Forall_fmap. eapply Forall_impl; [exact Hs|].
  intros u Hu. simpl. apply fsum_representable.
  clear Hs. revert u Hu. induction Hq as [|x qv Hx _ IH]; intros [|y u] Hu; try done.
  apply Forall_cons in Hu as [Hy Hu]. simpl. constructor; [|by apply IH].
  by apply mul_representable.
Qed.

Lemma Zdigits2_lower (M k : Z) :
  (0 <= k)%Z → (2 ^ k <= M)%Z → (k + 1 <= Zdigits2 M)%Z.
Proof.
  intros Hk HM.
  assert (0 < 2 ^ k)%Z by (apply Z.pow_pos_nonneg; lia).
  pose proof (Zdigits2_bounds M ltac:(lia)) as [_ Hhi].
  destruct (Z.le_gt_cases (k + 1) (Zdigits2 M)) as [|Hgt]; [done|].
  assert (2 ^ Zdigits2 M <= 2 ^ k)%Z
    by (apply Z.pow_le_mono_r; [lia|]; pose proof (Zdigits2_nonneg M); lia). lia.
Qed.

Lemma div_representable (x y : spec_float) :
  Float32.representable x = true → Float32.representable y = true →
  Float32.representable (Float32.div x y) = true.
Proof.
  intros Hx Hy.
  destruct x as [sx|sx| |sx mx ex], y as [sy|sy| |sy my ey]; try done.
  apply andb_true_iff in Hx as [Hcx _]. apply andb_true_iff in Hy as [Hcy _].
  apply Z.eqb_eq in Hcx, Hcy.
  unfold Float32.div, SFdiv, SFdiv_core_binary. cbn [Zdigits2].
  set (d1 := Zpos (digits2_pos mx)) in *. set (d2 := Zpos (digits2_pos my)) in *.
  set (F := fexp Float32.prec Float32.emax (d1 + ex - (d2 + ey))).
  set (e' := Z.min F (ex - ey)).
  set (s := (ex - ey - e')%Z).
  set (m' := match s with
             | Zpos _ => Z.shiftl (Zpos mx) s
             | Z0 => Zpos mx
             | Zneg _ => 0%Z
             end).
  assert (0 <= s)%Z as Hs by (subst s e'; lia).
  assert (m' = Zpos mx * 2 ^ s)%Z as Hm'.
  { subst m'. destruct s as [|k|k] eqn:Hsk; [simpl; lia| |lia].
    by rewrite Z.shiftl_mul_pow2 by lia. }
  clearbody m'.
  pose proof (digits2_pos_bounds mx) as [Hlo1 Hhi1]. fold d1 in Hlo1, Hhi1.
  pose proof (digits2_pos_bounds my) as [Hlo2 Hhi2]. fold d2 in Hlo2, Hhi2.
  assert (1 <= d1)%Z as Hd1 by (subst d1; lia).
  assert (1 <= d2)%Z as Hd2 by (subst d2; lia).
  assert (0 < 2 ^ s)%Z as Hps by (apply Z.pow_pos_nonneg; lia).
  pose proof (Z_div_mod m' (Zpos my) ltac:(lia)) as Hdiv.
  destruct (Z.div_eucl m' (Z.pos my)) as [q r]. destruct Hdiv as [Hq Hr].
  assert (0 <= q)%Z as Hq0 by nia.
  apply binary_round_aux_valid; [done|].
  assert (e' <= F)%Z as HeF by (subst e'; lia).
  destruct (Z.eq_dec q 0%Z) as [->|Hqnz].
  - (* the quotient is zero: the exponent is at most the smallest one *)
    simpl Zdigits2.
    assert (Zpos mx * 2 ^ s < Zpos my)%Z as Hsmall by lia.
    assert (d1 + s <= d2)%Z as Hds.
    { destruct (Z.le_gt_cases (d1 + s) d2) as [|Hgt]; [done|].
      assert (2 ^ d2 <= 2 ^ (d1 - 1 + s))%Z as Hle
        by (apply Z.pow_le_mono_r; lia).
      rewrite Z.pow_add_r in Hle by lia.
      assert (0 < 2 ^ (d1 - 1))%Z by (apply Z.pow_pos_nonneg; lia). nia. }
    subst s e' F. revert Hcx Hcy Hds HeF.
    unfold fexp, emin, Float32.prec, Float32.emax. lia.
  - (* the quotient has at least [d1 + s - d2] digits *)
    assert (d1 + s - d2 <= Zdigits2 q)%Z as Hdq.
    { destruct (Z.le_gt_cases (d1 + s - d2) 1) as [Hle1|Hgt1].
      - pose proof (Zdigits2_bounds q ltac:(lia)) as [Hlo _].
        destruct (Z.le_gt_cases 1 (Zdigits2 q)) as [|Hlt]; [lia|].
        pose proof (Zdigits2_nonneg q).
        assert (Zdigits2 q = 0)%Z as H0 by lia.
        destruct q; simpl in H0; lia.
      - pose proof (Zdigits2_lower q (d1 + s - d2 - 1) ltac:(lia)) as Hlow.
        assert (2 ^ (d1 + s - d2 - 1) <= q)%Z; [|lia].
        assert (2 ^ (d1 - 1 + s) = 2 ^ (d1 + s - d2 - 1) * 2 ^ d2)%Z as Hsplit.
        { rewrite <- Z.pow_add_r by lia. f_equal. lia. }
        assert (2 ^ (d1 - 1 + s) <= m')%Z as Hm'lo.
        { rewrite Z.pow_add_r by lia.
          assert (0 < 2 ^ (d1 - 1))%Z by (apply Z.pow_pos_nonneg; lia). nia. }
        assert (0 < 2 ^ (d1 + s - d2 - 1))%Z by (apply Z.pow_pos_nonneg; lia).
        nia. }
    apply (Z.le_trans _ F); [exact HeF|]. subst F. apply fexp_mono.
    subst s. lia.
Qed.

Lemma sqrt_representable (x : spec_float) :
  Float32.representable x = true → Float32.representable (Float32.sqrt x) = true.
Proof.
  intros Hx. destruct x as [sx|[]| |[] m e]; try done.
  unfold Float32.sqrt, SFsqrt, SFsqrt_core_binary. cbn [Zdigits2].
  set (d := Zpos (digits2_pos m)).
  set (F := fexp Float32.prec Float32.emax (Z.div2 (d + e + 1))).
  set (e' := Z.min F (Z.div2 e)).
  set (s := (e - 2 * e')%Z).
  set (m' := match s with
             | Zpos _ => Z.shiftl (Zpos m) s
             | Z0 => Zpos m
             | Zneg _ => 0%Z
             end).
  assert (0 <= s)%Z as Hs.
  { subst s e'. pose proof (Z.div2_div e) as He. rewrite He.
    pose proof (Z.div_mod e 2 ltac:(lia)). pose proof (Z.mod_pos_bound e 2 ltac:(lia)).
    lia. }
  assert (m' = Zpos m * 2 ^ s)%Z as Hm'.
  { subst m'. destruct s as [|k|k] eqn:Hsk; [simpl; lia| |lia].
    by rewrite Z.shiftl_mul_pow2 by lia. }
  clearbody m'.
  pose proof (digits2_pos_bounds m) as [Hlo Hhi]. fold d in Hlo, Hhi.
  assert (1 <= d)%Z as Hd by (subst d; lia).
  assert (0 < 2 ^ s)%Z as Hps by (apply Z.pow_pos_nonneg; lia).
  assert (0 <= m')%Z as Hm'0 by nia.
  pose proof (Z.sqrtrem_spec m' Hm'0) as Hspec.
  destruct (Z.sqrtrem m') as [q r]. destruct Hspec as [Hq Hr].
  apply binary_round_aux_valid; [lia|].
  assert (e' <= F)%Z as HeF by (subst e'; lia).
  set (k := ((d + s - 1) / 2)%Z).
  assert (0 <= k)%Z as Hk by (subst k; apply Z.div_pos; lia).
  assert (2 ^ k <= q)%Z as Hqk.
  { destruct (Z.le_gt_cases (2 ^ k) q) as [|Hlt]; [done|].
    assert (2 ^ k * 2 ^ k <= 2 ^ (d - 1 + s))%Z as Hsq.
    { rewrite <- Z.pow_add_r by lia. apply Z.pow_le_mono_r; [lia|].
      subst k. pose proof (Z.div_mod (d + s - 1) 2 ltac:(lia)).
      pose proof (Z.mod_pos_bound (d + s - 1) 2 ltac:(lia)). lia. }
    rewrite Z.pow_add_r in Hsq by lia.
    assert (0 < 2 ^ (d - 1))%Z by (apply Z.pow_pos_nonneg; lia).
    assert (0 < 2 ^ k)%Z by (apply Z.pow_pos_nonneg; lia).
    nia. }
  pose proof (Zdigits2_lower q k Hk Hqk) as Hdq.
  apply (Z.le_trans _ F); [exact HeF|]. subst F. apply fexp_mono.
  subst k s. rewrite Z.div2_div.
  pose proof (Z.div_mod (d + e + 1) 2 ltac:(lia)).
  pose proof (Z.mod_pos_bound (d + e + 1) 2 ltac:(lia)).
  pose proof (Z.div_mod (d + (e - 2 * e') - 1) 2 ltac:(lia)).
  pose proof (Z.mod_pos_bound (d + (e - 2 * e') - 1) 2 ltac:(lia)).
  lia.
Qed.

Lemma euclidean_norm_representable (v : Float32.tensor1) :
  Forall (λ x, Float32.representable x = true) v →
  Float32.representable (Float32.euclidean_norm v) = true.
Proof.
  intros Hv. apply sqrt_representable, fsum_representable, Forall_fmap.
  eapply Forall_impl; [exact Hv|]. intros x Hx. simpl. by apply mul_representable.
Qed.

(** ** The scorer, row by row *)

(** The L2 step, vector by vector. *)
Lemma f32_l2_normalize_rows (t : Float32.tensor3) :
  Float32.l2_normalize t
  = (λ row : Float32.tensor2,
       (λ v : Float32.tensor1,
          (λ x, Float32.div x
                  (if Float32.eqb (Float32.euclidean_norm v) Float32.zero
                   then Float32.one else Float32.euclidean_norm v)) <$> v)
       <$> row) <$> t.
Proof.
  unfold Float32.l2_normalize, Float32.div3, Float32.l2_div, Float32.fill_where_zero,
    Float32.map3, Float32.unsqueeze2, Float32.norm_dim2.
  rewrite <- !list_fmap_compose.
  rewrite (zip_with_fmap_same (zip_with Float32.div_last)).
  apply list_fmap_ext. intros _ row _. simpl.
  rewrite <- !list_fmap_compose.
  rewrite (zip_with_fmap_same Float32.div_last).
  apply list_fmap_ext. intros _ v _. reflexivity.
Qed.

Lemma f32_at2_l2_normalize (t : Float32.tensor3) (b k : nat) (v : Float32.tensor1) :
  at2 t b k = Some v →
  at2 (Float32.l2_normalize t) b k
  = Some ((λ x, Float32.div x
                  (if Float32.eqb (Float32.euclidean_norm v) Float32.zero
                   then Float32.one else Float32.euclidean_norm v)) <$> v).
Proof.
  intros Hv. rewrite f32_l2_normalize_rows. unfold at2 in *.
  rewrite list_lookup_fmap.
  destruct (t !! b) as [row|]; simpl in *; [|done].
  rewrite list_lookup_fmap, Hv. reflexivity.
Qed.

Lemma f32_has_shape3_l2_normalize (t : Float32.tensor3) B P D :
  has_shape3 t B P D → has_shape3 (Float32.l2_normalize t) B P D.
Proof.
  intros [Hlen Hrows]. rewrite f32_l2_normalize_rows. split; [by rewrite length_fmap|].
  apply Forall_fmap. eapply Forall_impl; [exact Hrows|].
  intros row [Hrow Hvs]. simpl. split; [by rewrite length_fmap|].
  apply Forall_fmap. eapply Forall_impl; [exact Hvs|].
  intros v Hv. simpl. by rewrite length_fmap.
Qed.

Lemma f32_has_shape3_similarity_operand (cfg : Config) (t : Float32.tensor3) B P D :
  has_shape3 t B P D → has_shape3 (Float32.similarity_operand cfg t) B P D.
Proof.
  intros Ht. unfold Float32.similarity_operand.
  destruct (l2Norm (similarityModule cfg)); [by apply f32_has_shape3_l2_normalize|done].
Qed.

Lemma f32_SimilarityModule_other_policy (q s : Float32.tensor3) m n (cfg : Config) :
  scaling (similarityModule cfg) ≠ "1/N" →
  scaling (similarityModule cfg) ≠ "1/sqrt(N)" →
  Float32.SimilarityModule q s m n cfg
  = Ret (Float32.unscaled_similarity_sums cfg q s m).
Proof.
  intros H1 H2. unfold Float32.SimilarityModule.
  apply String.eqb_neq in H1, H2. rewrite H1, H2. reflexivity.
Qed.

Lemma f32_SimilarityModule_policy_N (q s : Float32.tensor3) m n (cfg : Config) :
  scaling (similarityModule cfg) = "1/N" →
  Float32.SimilarityModule q s m n cfg
  = Ret (Float32.mul2
           ((λ row : Float32.tensor1,
               (λ x, Float32.div Float32.one
                       (Float32.add (Float32.mul Float32.two x) Float32.stabilizer))
               <$> row) <$> Float32.size_column n)
           (Float32.unscaled_similarity_sums cfg q s m)).
Proof. intros Hp. unfold Float32.SimilarityModule. rewrite Hp. reflexivity. Qed.

Lemma f32_SimilarityModule_policy_sqrtN (q s : Float32.tensor3) m n (cfg : Config) :
  scaling (similarityModule cfg) = "1/sqrt(N)" →
  Float32.SimilarityModule q s m n cfg
  = Ret (Float32.mul2
           ((λ row : Float32.tensor1,
               (λ x, Float32.div Float32.one
                       (Float32.add (Float32.mul Float32.two (Float32.sqrt x))
                                    Float32.stabilizer))
               <$> row) <$> Float32.size_column n)
           (Float32.unscaled_similarity_sums cfg q s m)).
Proof. intros Hp. unfold Float32.SimilarityModule. rewrite Hp. reflexivity. Qed.

(** The product of a one-row query matrix with the transposed support
    matrix is the row of similarities with the support vectors. *)
Lemma f32_matmul_query_transposed (u : Float32.tensor1) (sv : Float32.tensor2)
    (D : nat) :
  Forall (λ v, length v = D) sv → 0 < D →
  Float32.matmul [u] (transpose Float32.zero sv) = [Float32.similarities u sv].
Proof.
  intros Hrect HD. unfold Float32.matmul, Float32.similarities. simpl.
  by rewrite (transpose_transpose Float32.zero sv D).
Qed.

(** Row [b] of the masked sums before scaling. *)
Lemma f32_unscaled_similarity_sums_row (cfg : Config) (q s : Float32.tensor3)
    (m : list (list bool)) B P D b qv sv mrow :
  has_shape3 s B P D → 0 < D →
  Float32.similarity_operand cfg q !! b = Some [qv] →
  Float32.similarity_operand cfg s !! b = Some sv →
  m !! b = Some mrow →
  Float32.unscaled_similarity_sums cfg q s m !! b
  = Some [Float32.masked_similarity_sum qv sv mrow].
Proof.
  intros Hs HD Hq Hsv Hm.
  assert (Forall (λ v, length v = D) sv) as Hrect.
  { pose proof (f32_has_shape3_similarity_operand cfg s B P D Hs) as [_ Hrows].
    by destruct (Forall_lookup_1 _ _ _ _ Hrows Hsv). }
  unfold Float32.unscaled_similarity_sums, Float32.sum_dim2, Float32.mul3,
    Float32.bmm, Float32.transpose12, unsqueeze1, Float32.mask_float.
  rewrite list_lookup_fmap, lookup_zip_with, lookup_zip_with, Hq.
  cbn -[Float32.matmul transpose Float32.fsum].
  rewrite !list_lookup_fmap, Hsv, Hm. cbn -[Float32.matmul transpose Float32.fsum].
  rewrite (f32_matmul_query_transposed qv sv D) by done.
  reflexivity.
Qed.

Lemma f32_scaled_row (f : spec_float → spec_float) (n : list nat)
    (sums : Float32.tensor2) b N x :
  n !! b = Some N → sums !! b = Some [x] →
  at2 (Float32.mul2 ((λ row : Float32.tensor1, f <$> row) <$> Float32.size_column n)
                    sums) b 0
  = Some (Float32.mul (f (Float32.of_nat N)) x).
Proof.
  intros Hn Hx. unfold at2, Float32.mul2, Float32.size_column.
  rewrite lookup_zip_with, !list_lookup_fmap, Hn. simpl. by rewrite Hx.
Qed.

(** The shape of the result does not depend on the arithmetic: on inputs of
    the documented shapes the binary32 scorer returns a [[B, 1]] tensor. *)
Lemma f32_has_shape2_unscaled_similarity_sums (cfg : Config) (q s : Float32.tensor3)
    (m : list (list bool)) B P D :
  has_shape3 q B 1 D → has_shape3 s B P D → has_shape2 m B P →
  has_shape2 (Float32.unscaled_similarity_sums cfg q s m) B 1.
Proof.
  intros Hq Hs Hm.
  unfold Float32.unscaled_similarity_sums, Float32.sum_dim2, Float32.mul3, Float32.bmm.
  apply (has_shape2_fmap_rows _ _ B 1 1); [intros row Hrow; by rewrite length_fmap|].
  apply (has_shape2_zip_with_rows _ _ _ B 1 1 1).
  - intros r r' Hr Hr'. rewrite length_zip_with. lia.
  - apply (has_shape2_zip_with_l _ _ _ B 1 1).
    + intros r r' Hr. unfold Float32.matmul. by rewrite length_fmap.
    + apply (has_shape3_outer _ B 1 D), f32_has_shape3_similarity_operand, Hq.
    + unfold Float32.transpose12. rewrite length_fmap.
      apply (f32_has_shape3_similarity_operand cfg) in Hs. by destruct Hs.
  - unfold unsqueeze1, Float32.mask_float. destruct Hm as [Hlen _]. split.
    + by rewrite !length_fmap.
    + apply Forall_fmap, Forall_fmap, Forall_forall. by intros.
Qed.

Lemma f32_has_shape2_scaled (f : spec_float → spec_float) (n : list nat)
    (sums : Float32.tensor2) B :
  length n = B → has_shape2 sums B 1 →
  has_shape2 (Float32.mul2 ((λ row : Float32.tensor1, f <$> row)
                              <$> Float32.size_column n) sums) B 1.
Proof.
  intros Hn Hs. unfold Float32.mul2.
  apply (has_shape2_zip_with_rows _ _ _ B 1 1 1); [| |exact Hs].
  - intros r r' Hr Hr'. rewrite length_zip_with. lia.
  - unfold Float32.size_column. split; [by rewrite !length_fmap|].
    apply Forall_fmap, Forall_fmap, Forall_forall. by intros.
Qed.

Lemma f32_SimilarityModule_shape (q s : Float32.tensor3) (m : list (list bool))
    (n : list nat) (cfg : Config) (B P D : nat) :
  has_shape3 q B 1 D → has_shape3 s B P D → has_shape2 m B P → length n = B →
  ∃ out, Float32.SimilarityModule q s m n cfg = Ret out ∧ has_shape2 out B 1.
Proof.
  intros Hq Hs Hm Hn.
  pose proof (f32_has_shape2_unscaled_similarity_sums cfg q s m B P D Hq Hs Hm) as Hu.
  destruct (decide (scaling (similarityModule cfg) = "1/N")) as [HN|HN].
  { rewrite (f32_SimilarityModule_policy_N _ _ _ _ _ HN). eexists.
    split; [reflexivity|]. by apply f32_has_shape2_scaled. }
  destruct (decide (scaling (similarityModule cfg) = "1/sqrt(N)")) as [HS|HS].
  { rewrite (f32_SimilarityModule_policy_sqrtN _ _ _ _ _ HS). eexists.
    split; [reflexivity|]. by apply f32_has_shape2_scaled. }
  rewrite (f32_SimilarityModule_other_policy _ _ _ _ _ HN HS). eauto.
Qed.

(** The normalised form of a tensor of binary32 values holds binary32
    values. *)
Lemma l2_normalize_representable (t : Float32.tensor3) :
  Float32.representable3 t → Float32.representable3 (Float32.l2_normalize t).
Proof.
  unfold Float32.representable3. intros Ht. rewrite f32_l2_normalize_rows.
  apply Forall_fmap. eapply Forall_impl; [exact Ht|]. intros row Hrow. simpl.
  apply Forall_fmap. eapply Forall_impl; [exact Hrow|]. intros v Hv. simpl.
  apply Forall_fmap. eapply Forall_impl; [exact Hv|]. intros x Hx. simpl.
  apply div_representable; [exact Hx|].
  destruct (Float32.eqb _ _); [done|by apply euclidean_norm_representable].
Qed.

Lemma similarity_operand_representable (cfg : Config) (t : Float32.tensor3) :
  Float32.representable3 t → Float32.representable3 (Float32.similarity_operand cfg t).
Proof.
  intros Ht. unfold Float32.similarity_operand.
  destruct (l2Norm (similarityModule cfg)); [by apply l2_normalize_representable|done].
Qed.

(** ** The L2 normalisation and its guard *)

Lemma f32_SimilarityModule_l2Norm (q s : Float32.tensor3) m n (cfg : Config) :
  l2Norm (similarityModule cfg) = true →
  Float32.SimilarityModule q s m n cfg
  = Float32.SimilarityModule (Float32.l2_normalize q) (Float32.l2_normalize s) m n
      (without_l2Norm cfg).
Proof. intros Hl2. unfold Float32.SimilarityModule. rewrite Hl2. reflexivity. Qed.

(** The computed norm of a vector of zeros is a zero. *)
Lemma euclidean_norm_zeros (v : Float32.tensor1) :
  Forall (λ x, Float32.is_zero x = true) v →
  Float32.eqb (Float32.euclidean_norm v) Float32.zero = true.
Proof.
  intros Hv. unfold Float32.euclidean_norm.
  assert (Float32.is_zero (Float32.fsum ((λ x, Float32.mul x x) <$> v)) = true) as Hz.
  { apply foldl_add_zeros; [done|]. apply Forall_fmap.
    eapply Forall_impl; [exact Hv|]. intros x Hx. simpl.
    by apply mul_zero_finite; destruct x. }
  destruct (Float32.fsum _) as [s| | |]; try done.
Qed.

Lemma div_one_zeros (v : Float32.tensor1) :
  Forall (λ x, Float32.is_zero x = true) v →
  (λ x, Float32.div x Float32.one) <$> v = v.
Proof.
  induction 1 as [|x v Hx _ IH]; [done|].
  simpl. f_equal; [|exact IH]. destruct x as [s| | |]; try done. by destruct s.
Qed.

Lemma div_one_representable (v : Float32.tensor1) :
  Forall (λ x, Float32.representable x = true) v →
  (λ x, Float32.div x Float32.one) <$> v = v.
Proof.
  induction 1 as [|x v Hx _ IH]; [done|].
  simpl. f_equal; [by apply div_one|exact IH].
Qed.

(** C8, as the code has it.  With L2 normalisation enabled the scorer works
    on the normalised query and support embeddings.  The normalisation
    divides every entry of an embedding vector by the vector's computed
    Euclidean norm, except that a computed norm that compares equal to zero
    is replaced by the divisor [1.0].  The divisor never compares equal to
    zero.  A vector of zeros has the computed norm zero and remains the
    vector of zeros; every vector of binary32 values whose computed norm is
    zero is returned as it is. *)
Theorem l2_normalize_vector (q s : Float32.tensor3) m n (cfg : Config) :
  l2Norm (similarityModule cfg) = true →
  Float32.SimilarityModule q s m n cfg
  = Float32.SimilarityModule (Float32.l2_normalize q) (Float32.l2_normalize s) m n
      (without_l2Norm cfg) ∧
  ∀ (t : Float32.tensor3) (b k : nat) (v : Float32.tensor1),
    at2 t b k = Some v →
    let norm := Float32.euclidean_norm v in
    let divisor := if Float32.eqb norm Float32.zero then Float32.one else norm in
    at2 (Float32.l2_normalize t) b k = Some ((λ x, Float32.div x divisor) <$> v) ∧
    Float32.eqb divisor Float32.zero = false ∧
    (Forall (λ x, Float32.is_zero x = true) v →
     Float32.eqb norm Float32.zero = true ∧
     at2 (Float32.l2_normalize t) b k = Some v) ∧
    (Float32.eqb norm Float32.zero = true →
     Forall (λ x, Float32.representable x = true) v →
     at2 (Float32.l2_normalize t) b k = Some v).
Proof.
  intros Hl2. split; [by apply f32_SimilarityModule_l2Norm|].
  intros t b k v Hv norm divisor.
  pose proof (f32_at2_l2_normalize t b k v Hv) as Hrow.
  fold norm in Hrow. fold divisor in Hrow.
  split; [exact Hrow|]. split.
  { subst divisor. destruct (Float32.eqb norm Float32.zero) eqn:Hn; [reflexivity|done]. }
  split.
  - intros Hz. pose proof (euclidean_norm_zeros v Hz) as Hn. fold norm in Hn.
    split; [exact Hn|]. rewrite Hrow. subst divisor. rewrite Hn.
    by rewrite div_one_zeros.
  - intros Hn Hrep. rewrite Hrow. subst divisor. rewrite Hn.
    by rewrite div_one_representable.
Qed.

Lemma l2_normalize_vector_witness :
  let t := [[[S754_zero false; S754_zero true];
             [Float32.of_Z 3; Float32.of_Z 4];
             [Float32.div Float32.one (Float32.of_Z (2 ^ 100)); Float32.zero]]] in
  at2 (Float32.l2_normalize t) 0 0 = Some [S754_zero false; S754_zero true] ∧
  at2 (Float32.l2_normalize t) 0 1
  = Some [Float32.div (Float32.of_Z 3) (Float32.of_Z 5);
          Float32.div (Float32.of_Z 4) (Float32.of_Z 5)] ∧
  at2 (Float32.l2_normalize t) 0 2
  = Some [Float32.div Float32.one (Float32.of_Z (2 ^ 100)); Float32.zero].
Proof.
  intros t.
  destruct (l2_normalize_vector [[[Float32.of_Z 1; Float32.zero]]] t
              [[false; true; true]] [2] (small_cfg 2 1 true "1/N") eq_refl)
    as [_ Hvec].
  split; [|split].
  - destruct (Hvec t 0 0 [S754_zero false; S754_zero true] eq_refl)
      as (_ & _ & Hzero & _).
    apply Hzero. repeat constructor.
  - destruct (Hvec t 0 1 [Float32.of_Z 3; Float32.of_Z 4] eq_refl) as (Hrow & _).
    exact Hrow.
  - destruct (Hvec t 0 2 [Float32.div Float32.one (Float32.of_Z (2 ^ 100)); Float32.zero]
                eq_refl) as (_ & _ & _ & Hunder).
    apply Hunder; [reflexivity|repeat constructor].
Defined.

(** C8, as stated, fails: the guard looks at the computed norm.  The vector
    [[2^-100, 0]] has the Euclidean norm [2^-100], but its square [2^-200]
    is below the smallest binary32 value and rounds to zero, so that the
    computed norm is exactly zero: the vector is divided by [1.0] and
    returned as it is.  It is not divided by its Euclidean norm (that would
    give [[1, 0]]), and what is returned is not the zero vector. *)
Lemma l2_normalize_underflow :
  let x := Float32.div Float32.one (Float32.of_Z (2 ^ 100)) in
  let v := [x; Float32.zero] in
  Float32.representable x = true ∧ Float32.is_zero x = false ∧
  Float32.div x x = Float32.one ∧
  Float32.eqb (Float32.euclidean_norm v) Float32.zero = true ∧
  at2 (Float32.l2_normalize [[v]]) 0 0 = Some v ∧
  at2 (Float32.l2_normalize [[v]]) 0 0 ≠ Some [Float32.one; Float32.zero] ∧
  at2 (Float32.l2_normalize [[v]]) 0 0 ≠ Some [Float32.zero; Float32.zero].
Proof.
  intros x v.
  assert (at2 (Float32.l2_normalize [[v]]) 0 0 = Some v) as Hres by reflexivity.
  repeat split; try reflexivity; rewrite Hres; discriminate.
Qed.

(** ** No NaN from the normalisation *)

Lemma mul_self_nonneg (x : spec_float) :
  Float32.is_finite x = true → Float32.is_nonneg (Float32.mul x x) = true.
Proof.
  destruct x as [s|s| |s m e]; try done; intros _; [by destruct s|].
  change (Float32.mul (S754_finite s m e) (S754_finite s m e))
    with (binary_round_aux Float32.prec Float32.emax (xorb s s)
            (Zpos (m * m)) (e + e) loc_Exact).
  rewrite xorb_nilpotent.
  pose proof (binary_round_aux_class false (Zpos (m * m)) (e + e) loc_Exact
                ltac:(lia)) as Hc.
  destruct (binary_round_aux _ _ _ _ _ _) as [s'|s'| |s' m' e']; try done;
    by subst s'.
Qed.

Lemma add_nonneg (x y : spec_float) :
  Float32.is_nonneg x = true → Float32.is_nonneg y = true →
  Float32.is_nonneg (Float32.add x y) = true.
Proof.
  destruct x as [[]|[]| |[] mx ex]; try done;
    destruct y as [[]|[]| |[] my ey]; try done.
  intros _ _. unfold Float32.add, SFadd. cbn [cond_Zopp].
  rewrite <- Pos2Z.inj_add. unfold binary_normalize, binary_round.
  destruct (shl_align _ _ _) as [mz ez].
  pose proof (binary_round_aux_class false (Zpos mz) ez loc_Exact ltac:(lia)) as Hc.
  destruct (binary_round_aux _ _ _ _ _ _) as [s'|s'| |s' m' e']; try done;
    by subst s'.
Qed.

Lemma foldl_add_nonneg (acc : spec_float) (v : Float32.tensor1) :
  Float32.is_nonneg acc = true → Forall (λ x, Float32.is_nonneg x = true) v →
  Float32.is_nonneg (foldl Float32.add acc v) = true.
Proof.
  intros Hacc Hv. revert acc Hacc.
  induction Hv as [|x v Hx _ IH]; intros acc Hacc; [done|].
  simpl. apply IH. by apply add_nonneg.
Qed.

Lemma sqrt_nonneg (x : spec_float) :
  Float32.is_nonneg x = true → Float32.is_nonneg (Float32.sqrt x) = true.
Proof.
  destruct x as [[]|[]| |[] m e]; try done. intros _.
  unfold Float32.sqrt, SFsqrt, SFsqrt_core_binary.
  set (s := (e - 2 * _)%Z). set (e' := Z.min _ _).
  set (m' := match s with Zpos _ => Z.shiftl (Zpos m) s | Z0 => Zpos m | Zneg _ => 0%Z end).
  assert (0 <= m')%Z as Hm'.
  { subst m'. destruct s; try lia. apply Z.shiftl_nonneg. lia. }
  pose proof (Z.sqrtrem_spec m' Hm') as Hspec.
  destruct (Z.sqrtrem m') as [q r]. destruct Hspec as [_ Hr].
  pose proof (binary_round_aux_class false q e'
                (if (r =? 0)%Z then loc_Exact
                 else loc_Inexact (if (r <=? q)%Z then Lt else Gt)) ltac:(lia)) as Hc.
  destruct (binary_round_aux _ _ _ _ _ _) as [s'|s'| |s' mq eq']; try done;
    by subst s'.
Qed.

(** The norm a finite vector is divided by is positive or plus infinity. *)
Lemma euclidean_norm_nonneg (v : Float32.tensor1) :
  Forall (λ x, Float32.is_finite x = true) v →
  Float32.is_nonneg (Float32.euclidean_norm v) = true.
Proof.
  intros Hv. apply sqrt_nonneg, foldl_add_nonneg; [done|].
  apply Forall_fmap. eapply Forall_impl; [exact Hv|]. intros x Hx. simpl.
  by apply mul_self_nonneg.
Qed.

Lemma div_finite_no_nan (x d : spec_float) :
  Float32.is_finite x = true → Float32.is_nonneg d = true →
  Float32.eqb d Float32.zero = false →
  Float32.is_nan (Float32.div x d) = false.
Proof.
  destruct x as [sx|sx| |sx mx ex]; try done;
    destruct d as [[]|[]| |[] md ed]; try done.
  intros _ _ _. unfold Float32.div, SFdiv, SFdiv_core_binary.
  set (s := (ex - ed - _)%Z).
  set (m' := match s with Zpos _ => Z.shiftl (Zpos mx) s | Z0 => Zpos mx | Zneg _ => 0%Z end).
  assert (0 <= m')%Z as Hm'.
  { subst m'. destruct s; try lia. apply Z.shiftl_nonneg. lia. }
  pose proof (Z_div_mod m' (Zpos md) ltac:(lia)) as Hdiv.
  destruct (Z.div_eucl m' (Z.pos md)) as [q r]. destruct Hdiv as [Hq Hr].
  assert (0 <= q)%Z as Hq0 by nia.
  match goal with
  | |- context [binary_round_aux _ _ ?sg q ?e ?l] =>
      pose proof (binary_round_aux_class sg q e l Hq0) as Hc;
      destruct (binary_round_aux Float32.prec Float32.emax sg q e l); done
  end.
Qed.

(** X11.  The normalisation step creates no NaN: whatever the finite
    entries of an embedding vector are (zeros, values whose squares
    underflow or overflow), every entry of the normalised vector is a number
    or an infinity.  Without the replacement of a zero norm by [1.0] the
    zero vector would give [0/0]. *)
Theorem l2_normalize_no_nan (t : Float32.tensor3) (b k : nat) (v : Float32.tensor1) :
  at2 t b k = Some v →
  Forall (λ x, Float32.is_finite x = true) v →
  ∃ w, at2 (Float32.l2_normalize t) b k = Some w ∧ length w = length v ∧
       Forall (λ y, Float32.is_nan y = false) w.
Proof.
  intros Hv Hfin. rewrite (f32_at2_l2_normalize t b k v Hv).
  eexists. split; [reflexivity|]. split; [by rewrite length_fmap|].
  pose proof (euclidean_norm_nonneg v Hfin) as Hnorm.
  set (d := if Float32.eqb (Float32.euclidean_norm v) Float32.zero
            then Float32.one else Float32.euclidean_norm v).
  assert (Float32.is_nonneg d = true ∧ Float32.eqb d Float32.zero = false) as [Hd Hnz].
  { subst d. by destruct (Float32.eqb (Float32.euclidean_norm v) Float32.zero) eqn:Hn. }
  apply Forall_fmap. eapply Forall_impl; [exact Hfin|]. intros x Hx. simpl.
  by apply div_finite_no_nan.
Qed.

Lemma l2_normalize_no_nan_witness :
  ∃ w, at2 (Float32.l2_normalize
              [[[Float32.zero; S754_zero true];
                [Float32.of_Z (10 ^ 30); Float32.of_Z (-3)]]]) 0 0 = Some w ∧
       length w = 2 ∧ Forall (λ y, Float32.is_nan y = false) w.
Proof.
  apply (l2_normalize_no_nan _ 0 0 [Float32.zero; S754_zero true]);
    [reflexivity|repeat constructor].
Defined.

(** ** Masking by multiplication *)

(** A padded slot whose similarity is finite adds a zero to the sum, and a
    kept slot adds its similarity, the factor [1.0] changing nothing: up to
    the sign of a zero result, the masked sum is the sum over the kept
    slots. *)
Lemma foldl_add_masked (sims : Float32.tensor1) (mask_row : list bool)
    (acc acc' : spec_float) :
  Float32.finite_where_padded sims mask_row →
  Forall (λ x, Float32.representable x = true) sims →
  Float32.same_value acc acc' →
  Float32.same_value
    (foldl Float32.add acc (zip_with Float32.mul sims (Float32.mask_values mask_row)))
    (foldl Float32.add acc'
       (fst <$> List.filter (λ sm : spec_float * bool, sm.2) (zip sims mask_row))).
Proof.
  intros Hfin Hrep. revert mask_row acc acc' Hfin.
  induction Hrep as [|x sims Hx _ IH]; intros [|m mask_row] acc acc' Hfin Hacc;
    try done.
  apply Forall_cons in Hfin as [Hxf Hfin]. destruct m.
  - change (Float32.same_value
              (foldl Float32.add (Float32.add acc (Float32.mul x Float32.one))
                 (zip_with Float32.mul sims (Float32.mask_values mask_row)))
              (foldl Float32.add (Float32.add acc' x)
                 (fst <$> List.filter (λ sm : spec_float * bool, sm.2)
                                      (zip sims mask_row)))).
    rewrite (mul_one x Hx). apply IH; [exact Hfin|]. by apply add_same_value.
  - change (Float32.same_value
              (foldl Float32.add (Float32.add acc (Float32.mul x Float32.zero))
                 (zip_with Float32.mul sims (Float32.mask_values mask_row)))
              (foldl Float32.add acc'
                 (fst <$> List.filter (λ sm : spec_float * bool, sm.2)
                                      (zip sims mask_row)))).
    apply IH; [exact Hfin|].
    apply (same_value_trans _ acc); [|exact Hacc].
    apply add_zero_r, mul_zero_finite; [by apply Hxf|done].
Qed.

Lemma masked_similarity_sum_unmasked (qv : Float32.tensor1) (sv : Float32.tensor2)
    (mask_row : list bool) :
  Forall (λ x, Float32.representable x = true) qv →
  Forall (Forall (λ x, Float32.representable x = true)) sv →
  Float32.finite_where_padded (Float32.similarities qv sv) mask_row →
  Float32.same_value (Float32.masked_similarity_sum qv sv mask_row)
                     (Float32.unmasked_similarity_sum qv sv mask_row).
Proof.
  intros Hq Hs Hfin.
  apply foldl_add_masked; [exact Hfin| |apply same_value_refl].
  by apply similarities_representable.
Qed.

(** With every slot padded and every similarity finite the masked sum is a
    zero. *)
Lemma masked_similarity_sum_all_padding (qv : Float32.tensor1) (sv : Float32.tensor2)
    (mask_row : list bool) :
  Forall (λ m, m = false) mask_row →
  Float32.finite_where_padded (Float32.similarities qv sv) mask_row →
  Float32.is_zero (Float32.masked_similarity_sum qv sv mask_row) = true.
Proof.
  intros Hall Hfin. unfold Float32.masked_similarity_sum, Float32.fsum.
  apply foldl_add_zeros; [done|].
  generalize dependent (Float32.similarities qv sv). intros sims.
  revert sims. induction Hall as [|m mask_row -> _ IH]; intros [|x sims] Hfin;
    try (by constructor).
  apply Forall_cons in Hfin as [Hx Hfin]. simpl. constructor.
  - apply mul_zero_finite; [by apply Hx|done].
  - by apply IH.
Qed.

(** A padded slot whose similarity is infinite or NaN turns the masked sum
    into NaN. *)
Lemma masked_similarity_sum_nonfinite (qv : Float32.tensor1) (sv : Float32.tensor2)
    (mask_row : list bool) (j : nat) (sim : spec_float) :
  mask_row !! j = Some false →
  Float32.similarities qv sv !! j = Some sim →
  Float32.is_finite sim = false →
  Float32.masked_similarity_sum qv sv mask_row = S754_nan.
Proof.
  intros Hm Hsim Hnf. unfold Float32.masked_similarity_sum, Float32.fsum.
  apply foldl_add_nan_term, list_elem_of_lookup. exists j.
  rewrite lookup_zip_with, Hsim. simpl.
  unfold Float32.mask_values. rewrite list_lookup_fmap, Hm. simpl.
  f_equal. by apply mul_zero_nonfinite.
Qed.

Lemma scale_N_0 : Float32.scale_N 0 = S754_finite false 12500000 3.
Proof. reflexivity. Qed.

Lemma scale_sqrtN_0 : Float32.scale_sqrtN 0 = S754_finite false 12500000 3.
Proof. reflexivity. Qed.

(** ** The scaled sum *)

(** X15.  For a batch entry [b] of inputs of the documented shapes that hold
    binary32 values, the returned value is, in binary32 arithmetic, the
    factor [1/(2N + eps)] (policy ["1/N"]) or [1/(2 sqrt(N) + eps)] (policy
    ["1/sqrt(N)"]) times the sum over all support slots of the similarity
    times the mask value [1.0] or [0.0]; [N] is the entry of
    [support_set_size] and [eps] the binary32 value of [1e-8].  When the
    similarities at the padded slots are finite, this is, up to the sign of
    a zero, the factor times the sum of the similarities at the slots the
    mask keeps.  With [N = 0], a mask that keeps no slot and finite
    similarities the value is a zero. *)
Theorem SimilarityModule_scaled_masked_sum (q s : Float32.tensor3)
    (m : list (list bool)) (n : list nat) (cfg : Config) (B P D b : nat)
    (qv : Float32.tensor1) (sv : Float32.tensor2) (mrow : list bool) (N : nat) :
  has_shape3 q B 1 D → has_shape3 s B P D → has_shape2 m B P → length n = B →
  0 < D →
  Float32.representable3 q → Float32.representable3 s →
  Float32.similarity_operand cfg q !! b = Some [qv] →
  Float32.similarity_operand cfg s !! b = Some sv →
  m !! b = Some mrow → n !! b = Some N →
  ∃ out, Float32.SimilarityModule q s m n cfg = Ret out ∧
    (scaling (similarityModule cfg) = "1/N" →
     at2 out b 0
     = Some (Float32.mul (Float32.scale_N N)
               (Float32.masked_similarity_sum qv sv mrow)) ∧
     (Float32.finite_where_padded (Float32.similarities qv sv) mrow →
      ∃ z, at2 out b 0 = Some z ∧
           Float32.same_value z
             (Float32.mul (Float32.scale_N N)
                (Float32.unmasked_similarity_sum qv sv mrow)))) ∧
    (scaling (similarityModule cfg) = "1/sqrt(N)" →
     at2 out b 0
     = Some (Float32.mul (Float32.scale_sqrtN N)
               (Float32.masked_similarity_sum qv sv mrow)) ∧
     (Float32.finite_where_padded (Float32.similarities qv sv) mrow →
      ∃ z, at2 out b 0 = Some z ∧
           Float32.same_value z
             (Float32.mul (Float32.scale_sqrtN N)
                (Float32.unmasked_similarity_sum qv sv mrow)))) ∧
    (scaling (similarityModule cfg) = "1/N"
     ∨ scaling (similarityModule cfg) = "1/sqrt(N)" →
     N = 0 → Forall (λ x, x = false) mrow →
     Float32.finite_where_padded (Float32.similarities qv sv) mrow →
     ∃ z, at2 out b 0 = Some z ∧ Float32.is_zero z = true).
Proof.
  intros _ Hs _ _ HD Hqrep Hsrep Hq Hsv Hm Hn.
  pose proof (f32_unscaled_similarity_sums_row cfg q s m B P D b qv sv mrow
                Hs HD Hq Hsv Hm) as Hrow.
  assert (Forall (λ x, Float32.representable x = true) qv) as Hqv.
  { pose proof (Forall_lookup_1 _ _ _ _
                  (similarity_operand_representable cfg q Hqrep) Hq) as Hr.
    by apply Forall_cons in Hr as [Hr _]. }
  assert (Forall (Forall (λ x, Float32.representable x = true)) sv) as Hsvrep
    by exact (Forall_lookup_1 _ _ _ _
                (similarity_operand_representable cfg s Hsrep) Hsv).
  assert (∀ out,
    Float32.SimilarityModule q s m n cfg = Ret out →
    (scaling (similarityModule cfg) = "1/N" →
     at2 out b 0
     = Some (Float32.mul (Float32.scale_N N)
               (Float32.masked_similarity_sum qv sv mrow))) ∧
    (scaling (similarityModule cfg) = "1/sqrt(N)" →
     at2 out b 0
     = Some (Float32.mul (Float32.scale_sqrtN N)
               (Float32.masked_similarity_sum qv sv mrow)))) as Hscaled.
  { intros out Hout. split; intros Hp.
    - rewrite (f32_SimilarityModule_policy_N _ _ _ _ _ Hp) in Hout.
      injection Hout as <-. by rewrite (f32_scaled_row _ n _ b N _ Hn Hrow).
    - rewrite (f32_SimilarityModule_policy_sqrtN _ _ _ _ _ Hp) in Hout.
      injection Hout as <-. by rewrite (f32_scaled_row _ n _ b N _ Hn Hrow). }
  eexists. split; [reflexivity|].
  destruct (Hscaled _ eq_refl) as [HN HS].
  split; [|split].
  - intros Hp. split; [exact (HN Hp)|]. intros Hfin. eexists. split; [exact (HN Hp)|].
    by apply mul_same_value, masked_similarity_sum_unmasked.
  - intros Hp. split; [exact (HS Hp)|]. intros Hfin. eexists. split; [exact (HS Hp)|].
    by apply mul_same_value, masked_similarity_sum_unmasked.
  - intros Hp -> Hall Hfin.
    pose proof (masked_similarity_sum_all_padding qv sv mrow Hall Hfin) as Hzero.
    destruct Hp as [Hp|Hp]; eexists.
    + split; [exact (HN Hp)|]. rewrite scale_N_0. by apply mul_zero_finite.
    + split; [exact (HS Hp)|]. rewrite scale_sqrtN_0. by apply mul_zero_finite.
Qed.

Lemma SimilarityModule_scaled_masked_sum_witness :
  (∃ out, Float32.SimilarityModule
            [[[Float32.of_Z 1; Float32.of_Z 2]]]
            [[[Float32.of_Z 3; Float32.of_Z 4]; [Float32.of_Z 5; Float32.of_Z 6]]]
            [[true; false]] [1] (small_cfg 2 1 false "1/N") = Ret out ∧
          at2 out 0 0 = Some (Float32.div (Float32.of_Z 11) (Float32.of_Z 2))) ∧
  (∃ out, Float32.SimilarityModule
            [[[Float32.of_Z 1; Float32.of_Z 2]]]
            [[[Float32.of_Z 3; Float32.of_Z 4]; [Float32.of_Z 5; Float32.of_Z 6]]]
            [[false; false]] [0] (small_cfg 2 1 false "1/sqrt(N)") = Ret out ∧
          ∃ z, at2 out 0 0 = Some z ∧ Float32.is_zero z = true).
Proof.
  pose (qv := [Float32.of_Z 1; Float32.of_Z 2]).
  pose (sv := [[Float32.of_Z 3; Float32.of_Z 4]; [Float32.of_Z 5; Float32.of_Z 6]]).
  assert (has_shape3 [[qv]] 1 1 2) as Hq by (split; [reflexivity|]; repeat constructor).
  assert (has_shape3 [sv] 1 2 2) as Hs by (split; [reflexivity|]; repeat constructor).
  assert (∀ mrow : list bool, length mrow = 2 → has_shape2 [mrow] 1 2) as Hm
    by (intros mrow Hlen; split; [reflexivity|]; repeat constructor; exact Hlen).
  assert (Float32.representable3 [[qv]]) as Hqrep by repeat constructor.
  assert (Float32.representable3 [sv]) as Hsrep by repeat constructor.
  split.
  - destruct (SimilarityModule_scaled_masked_sum [[qv]] [sv] [[true; false]] [1]
                (small_cfg 2 1 false "1/N") 1 2 2 0 qv sv [true; false] 1
                Hq Hs (Hm [true; false] eq_refl) eq_refl ltac:(lia)
                Hqrep Hsrep eq_refl eq_refl eq_refl eq_refl)
      as (out & Hout & HN & _ & _).
    exists out. split; [exact Hout|]. exact (proj1 (HN eq_refl)).
  - destruct (SimilarityModule_scaled_masked_sum [[qv]] [sv] [[false; false]] [0]
                (small_cfg 2 1 false "1/sqrt(N)") 1 2 2 0 qv sv [false; false] 0
                Hq Hs (Hm [false; false] eq_refl) eq_refl ltac:(lia)
                Hqrep Hsrep eq_refl eq_refl eq_refl eq_refl)
      as (out & Hout & _ & _ & Hzero).
    exists out. split; [exact Hout|].
    apply Hzero; [by right|reflexivity|repeat constructor..].
Defined.

(** ** Padded slots are read *)

(** C6.  The scorer multiplies by the mask instead of leaving padded slots
    out.  A task without real support molecules ([N = 0], its one slot
    padded) whose padded slot holds the finite value [1e20] has the
    similarity [1e20 * 1e20], which overflows to infinity; infinity times
    the mask value [0.0] is NaN, and NaN is what the scorer returns, under
    both policies, where the claim has exactly zero.  With the value [3] in
    the padded slot the result is zero. *)
Theorem SimilarityModule_padded_overflow :
  let x := Float32.of_Z (10 ^ 20) in
  let result policy :=
    Float32.SimilarityModule [[[x]]] [[[x]]] [[false]] [0] (small_cfg 1 1 false policy) in
  Float32.is_finite x = true ∧
  result "1/N" = Ret [[S754_nan]] ∧
  result "1/sqrt(N)" = Ret [[S754_nan]] ∧
  (¬ ∃ z, result "1/N" = Ret [[z]] ∧ Float32.is_finite z = true) ∧
  Float32.SimilarityModule [[[x]]] [[[Float32.of_Z 3]]] [[false]] [0]
    (small_cfg 1 1 false "1/N") = Ret [[Float32.zero]].
Proof.
  intros x result.
  assert (result "1/N" = Ret [[S754_nan]]) as Hres by reflexivity.
  split; [reflexivity|]. split; [exact Hres|]. split; [reflexivity|].
  split; [|reflexivity].
  intros (z & Hz & Hfin). rewrite Hres in Hz. by injection Hz as <-.
Qed.

(** X10.  The scorer reads the padded slots: a padded slot whose similarity
    with the query is infinite or NaN makes the result for its task NaN,
    with or without L2 normalisation and under every scaling policy, the
    unknown ones included. *)
Theorem SimilarityModule_nonfinite_padded_slot (q s : Float32.tensor3)
    (m : list (list bool)) (n : list nat) (cfg : Config) (B P D b j : nat)
    (qv : Float32.tensor1) (sv : Float32.tensor2) (mrow : list bool) (N : nat)
    (sim : spec_float) :
  has_shape3 q B 1 D → has_shape3 s B P D → has_shape2 m B P → length n = B →
  0 < D →
  Float32.similarity_operand cfg q !! b = Some [qv] →
  Float32.similarity_operand cfg s !! b = Some sv →
  m !! b = Some mrow → n !! b = Some N →
  mrow !! j = Some false →
  Float32.similarities qv sv !! j = Some sim →
  Float32.is_finite sim = false →
  ∃ out, Float32.SimilarityModule q s m n cfg = Ret out ∧
         at2 out b 0 = Some S754_nan.
Proof.
  intros _ Hs _ _ HD Hq Hsv Hm Hn Hj Hsim Hnf.
  pose proof (f32_unscaled_similarity_sums_row cfg q s m B P D b qv sv mrow
                Hs HD Hq Hsv Hm) as Hrow.
  rewrite (masked_similarity_sum_nonfinite qv sv mrow j sim Hj Hsim Hnf) in Hrow.
  destruct (decide (scaling (similarityModule cfg) = "1/N")) as [HN|HN].
  { rewrite (f32_SimilarityModule_policy_N _ _ _ _ _ HN). eexists.
    split; [reflexivity|].
    by rewrite (f32_scaled_row _ n _ b N _ Hn Hrow), mul_nan_r. }
  destruct (decide (scaling (similarityModule cfg) = "1/sqrt(N)")) as [HS|HS].
  { rewrite (f32_SimilarityModule_policy_sqrtN _ _ _ _ _ HS). eexists.
    split; [reflexivity|].
    by rewrite (f32_scaled_row _ n _ b N _ Hn Hrow), mul_nan_r. }
  rewrite (f32_SimilarityModule_other_policy _ _ _ _ _ HN HS). eexists.
  split; [reflexivity|]. unfold at2. by rewrite Hrow.
Qed.

Lemma SimilarityModule_nonfinite_padded_slot_witness :
  ∃ out, Float32.SimilarityModule
           [[[Float32.of_Z (10 ^ 20); Float32.of_Z 1]]]
           [[[Float32.of_Z 1; Float32.of_Z 1];
             [Float32.of_Z (10 ^ 20); Float32.of_Z 1]]]
           [[true; false]] [1] (small_cfg 2 1 false "1/sqrt(N)") = Ret out ∧
         at2 out 0 0 = Some S754_nan.
Proof.
  pose (qv := [Float32.of_Z (10 ^ 20); Float32.of_Z 1]).
  pose (sv := [[Float32.of_Z 1; Float32.of_Z 1];
               [Float32.of_Z (10 ^ 20); Float32.of_Z 1]]).
  assert (has_shape3 [[qv]] 1 1 2) as Hq by (split; [reflexivity|]; repeat constructor).
  assert (has_shape3 [sv] 1 2 2) as Hs by (split; [reflexivity|]; repeat constructor).
  assert (has_shape2 [[true; false]] 1 2) as Hm
    by (split; [reflexivity|]; repeat constructor).
  exact (SimilarityModule_nonfinite_padded_slot [[qv]] [sv] [[true; false]] [1]
           (small_cfg 2 1 false "1/sqrt(N)") 1 2 2 0 1 qv sv [true; false] 1
           (S754_infinity false)
           Hq Hs Hm eq_refl ltac:(lia) eq_refl eq_refl eq_refl eq_refl eq_refl
           eq_refl eq_refl).
Defined.

(** ** The stabilizer next to a support-set size *)

(** A size below [2^24] is a binary32 value with a full mantissa. *)
Lemma of_nat_normal (n : nat) :
  1 ≤ n → (Z.of_nat n < 2 ^ 24)%Z →
  ∃ m e, Float32.of_nat n = S754_finite false m e ∧
         Zpos (digits2_pos m) = 24%Z ∧ (-23 <= e <= 0)%Z.
Proof.
  intros Hn Hlt. unfold Float32.of_nat, Float32.of_Z, binary_normalize.
  destruct (Z.of_nat n) as [|p|p] eqn:Hp; [lia| |lia].
  unfold binary_round.
  pose proof (digits2_pos_bounds p) as [Hlo Hhi].
  assert (1 <= Zpos (digits2_pos p) <= 24)%Z as Hd.
  { split; [lia|]. destruct (Z.le_gt_cases (Zpos (digits2_pos p)) 24) as [|Hgt]; [done|].
    assert (2 ^ 24 <= 2 ^ (Zpos (digits2_pos p) - 1))%Z
      by (apply Z.pow_le_mono_r; lia). lia. }
  assert (fexp Float32.prec Float32.emax (Zpos (digits2_pos p) + 0)
          = Zpos (digits2_pos p) - 24)%Z as ->.
  { unfold fexp, emin, Float32.prec, Float32.emax. lia. }
  unfold shl_align.
  destruct (Zpos (digits2_pos p) - 24 - 0)%Z as [|k|k] eqn:Hk; [|lia|].
  - exists p, 0%Z. split; [|lia].
    apply binary_round_aux_representable. unfold bounded, canonical_mantissa.
    apply andb_true_iff. split; [|done].
    apply Z.eqb_eq. unfold fexp, emin, Float32.prec, Float32.emax. lia.
  - exists (Pos.iter xO p k), (Zpos (digits2_pos p) - 24)%Z.
    pose proof (digits2_pos_iter_xO p k) as Hdk.
    split; [|lia].
    apply binary_round_aux_representable. unfold bounded, canonical_mantissa.
    apply andb_true_iff. split.
    + apply Z.eqb_eq. rewrite Hdk. unfold fexp, emin, Float32.prec, Float32.emax. lia.
    + apply Z.leb_le. unfold Float32.prec, Float32.emax. lia.
Qed.

(** Doubling a value with a full mantissa raises its exponent by one. *)
Lemma mul_two_normal (s : bool) (m : positive) (e : Z) :
  Zpos (digits2_pos m) = 24%Z → (-150 <= e <= 103)%Z →
  Float32.mul Float32.two (S754_finite s m e) = S754_finite s m (e + 1).
Proof.
  intros Hd He.
  change (Float32.mul Float32.two (S754_finite s m e))
    with (binary_round_aux Float32.prec Float32.emax (xorb false s)
            (Zpos (8388608 * m)) (-22 + e) loc_Exact).
  rewrite xorb_false_l.
  assert (canonical_mantissa Float32.prec Float32.emax m (e + 1) = true) as Hc.
  { apply Z.eqb_eq. rewrite Hd. unfold fexp, emin, Float32.prec, Float32.emax. lia. }
  unfold binary_round_aux.
  assert (shr_fexp Float32.prec Float32.emax (Zpos (8388608 * m)) (-22 + e) loc_Exact
          = ({| shr_m := Zpos m; shr_r := false; shr_s := false |}, (e + 1)%Z)) as ->.
  { unfold shr_fexp.
    let t := eval cbv in (8388608 * m)%positive in
      change (8388608 * m)%positive with t.
    cbn [Zdigits2 digits2_pos]. rewrite !Pos2Z.inj_succ, Hd.
    match goal with
    | |- context [fexp _ _ ?a] => replace a with (25 + e)%Z by lia
    end.
    replace (fexp Float32.prec Float32.emax (25 + e)) with (e + 1)%Z
      by (unfold fexp, emin, Float32.prec, Float32.emax; lia).
    replace (e + 1 - (-22 + e))%Z with 23%Z by lia.
    cbn. f_equal. lia. }
  cbn [shr_m loc_of_shr_record round_nearest_even].
  rewrite (shr_fexp_canonical m (e + 1) Hc). cbn [shr_m].
  replace (e + 1 <=? Float32.emax - Float32.prec)%Z with true; [done|].
  symmetry. apply Z.leb_le. unfold Float32.prec, Float32.emax. lia.
Qed.

(** Next to a value with a full mantissa that is at least two, the
    stabilizer is below half a unit in the last place: adding it changes
    nothing. *)
Lemma add_stabilizer_absorbed (m : positive) (e : Z) :
  Zpos (digits2_pos m) = 24%Z → (-22 <= e <= 104)%Z →
  Float32.add (S754_finite false m e) Float32.stabilizer = S754_finite false m e.
Proof.
  intros Hd He.
  pose proof (digits2_pos_bounds m) as [Hlo Hhi]. rewrite Hd in Hlo, Hhi.
  change (2 ^ (24 - 1))%Z with 8388608%Z in Hlo. change (2 ^ 24)%Z with 16777216%Z in Hhi.
  assert (canonical_mantissa Float32.prec Float32.emax m e = true) as Hc.
  { apply Z.eqb_eq. rewrite Hd. unfold fexp, emin, Float32.prec, Float32.emax. lia. }
  change Float32.stabilizer with (S754_finite false 11258999 (-50)).
  unfold Float32.add, SFadd.
  rewrite (Z.min_r e (-50)) by lia.
  change (shl_align 11258999 (-50) (-50)) with (11258999%positive, (-50)%Z).
  set (k := Z.to_pos (e + 50)).
  assert (Zpos k = e + 50)%Z as Hk by (subst k; rewrite Z2Pos.id; lia).
  assert (shl_align m e (-50) = (Pos.iter xO m k, (-50)%Z)) as ->.
  { unfold shl_align. replace (-50 - e)%Z with (Zneg k) by lia. reflexivity. }
  cbn [fst cond_Zopp]. rewrite <- Pos2Z.inj_add.
  set (M := (Pos.iter xO m k + 11258999)%positive).
  assert (Zpos M = Zpos m * 2 ^ Zpos k + 11258999)%Z as HM.
  { subst M. by rewrite Pos2Z.inj_add, iter_xO_mul. }
  assert (2 ^ Zpos k = 2 ^ 28 * 2 ^ (Zpos k - 28))%Z as Hpow.
  { rewrite <- Z.pow_add_r by lia. f_equal. lia. }
  assert (1 <= 2 ^ (Zpos k - 28))%Z as Hpow1.
  { assert (0 < 2 ^ (Zpos k - 28))%Z by (apply Z.pow_pos_nonneg; lia). lia. }
  change (2 ^ 28)%Z with 268435456%Z in Hpow.
  assert (Zpos (digits2_pos M) = 24 + Zpos k)%Z as HdM.
  { apply digits2_pos_unique. rewrite HM.
    replace (24 + Z.pos k - 1)%Z with (23 + Zpos k)%Z by lia.
    rewrite !Z.pow_add_r by lia.
    change (2 ^ 23)%Z with 8388608%Z. change (2 ^ 24)%Z with 16777216%Z. nia. }
  unfold binary_normalize, binary_round.
  assert (fexp Float32.prec Float32.emax (Zpos (digits2_pos M) + -50) = e) as Hfexp.
  { rewrite HdM. unfold fexp, emin, Float32.prec, Float32.emax. lia. }
  rewrite Hfexp.
  assert (shl_align M (-50) e = (M, (-50)%Z)) as ->.
  { unfold shl_align. replace (e - -50)%Z with (Zpos k) by lia. reflexivity. }
  unfold binary_round_aux.
  assert (shr_fexp Float32.prec Float32.emax (Zpos M) (-50) loc_Exact
          = ({| shr_m := Zpos m; shr_r := false; shr_s := true |}, e)) as ->.
  { unfold shr_fexp. cbn [Zdigits2]. rewrite Hfexp.
    replace (e - -50)%Z with (Zpos k) by lia.
    cbn [shr shr_record_of_loc]. rewrite iter_shr_1 by lia.
    assert (2 ^ Zpos k = 2 * 2 ^ (Zpos k - 1))%Z as Hpow2.
    { rewrite <- Z.pow_succ_r by lia. f_equal. lia. }
    assert (2 ^ (Zpos k - 1) = 134217728 * 2 ^ (Zpos k - 28))%Z as Hpow3.
    { change 134217728%Z with (2 ^ 27)%Z. rewrite <- Z.pow_add_r by lia. f_equal. lia. }
    f_equal; [|lia]. f_equal.
    - symmetry. apply (Z.div_unique_pos _ _ _ 11258999); lia.
    - replace (Zpos M / 2 ^ (Zpos k - 1))%Z with (2 * Zpos m)%Z.
      + by rewrite Z.odd_mul.
      + apply (Z.div_unique_pos _ _ _ 11258999); nia.
    - replace (Zpos M mod 2 ^ (Zpos k - 1))%Z with 11258999%Z; [done|].
      apply (Z.mod_unique_pos _ _ (2 * Zpos m)); nia. }
  cbn [shr_m loc_of_shr_record round_nearest_even].
  rewrite (shr_fexp_canonical m e Hc). cbn [shr_m].
  replace (e <=? Float32.emax - Float32.prec)%Z with true; [done|].
  symmetry. apply Z.leb_le. unfold Float32.prec, Float32.emax. lia.
Qed.

(** For a support set of [1 ≤ N < 2^24] molecules the denominator of the
    ["1/N"] policy is [2N]: the stabilizer is rounded away. *)
Lemma scale_N_absorbed (N : nat) :
  1 ≤ N → (Z.of_nat N < 2 ^ 24)%Z →
  Float32.add (Float32.mul Float32.two (Float32.of_nat N)) Float32.stabilizer
  = Float32.mul Float32.two (Float32.of_nat N).
Proof.
  intros HN Hlt. destruct (of_nat_normal N HN Hlt) as (m & e & -> & Hd & He).
  rewrite (mul_two_normal false m e Hd) by lia.
  apply add_stabilizer_absorbed; [exact Hd|lia].
Qed.

(** X13.  Under the policy ["1/N"] a task with [1 ≤ N < 2^24] support
    molecules is scaled by exactly [1/(2N)]: in binary32 the stabilizer is
    below half a unit in the last place of [2N] and does not enter the
    result.  It decides the factor only for [N = 0]. *)
Theorem SimilarityModule_stabilizer_absorbed (q s : Float32.tensor3)
    (m : list (list bool)) (n : list nat) (cfg : Config) (B P D b : nat)
    (qv : Float32.tensor1) (sv : Float32.tensor2) (mrow : list bool) (N : nat) :
  has_shape3 q B 1 D → has_shape3 s B P D → has_shape2 m B P → length n = B →
  0 < D →
  Float32.similarity_operand cfg q !! b = Some [qv] →
  Float32.similarity_operand cfg s !! b = Some sv →
  m !! b = Some mrow → n !! b = Some N →
  scaling (similarityModule cfg) = "1/N" →
  1 ≤ N → (Z.of_nat N < 2 ^ 24)%Z →
  ∃ out, Float32.SimilarityModule q s m n cfg = Ret out ∧
         at2 out b 0
         = Some (Float32.mul
                   (Float32.div Float32.one (Float32.mul Float32.two (Float32.of_nat N)))
                   (Float32.masked_similarity_sum qv sv mrow)).
Proof.
  intros _ Hs _ _ HD Hq Hsv Hm Hn Hp HN Hlt.
  pose proof (f32_unscaled_similarity_sums_row cfg q s m B P D b qv sv mrow
                Hs HD Hq Hsv Hm) as Hrow.
  rewrite (f32_SimilarityModule_policy_N _ _ _ _ _ Hp). eexists. split; [reflexivity|].
  rewrite (f32_scaled_row _ n _ b N _ Hn Hrow).
  by rewrite (scale_N_absorbed N HN Hlt).
Qed.

Lemma SimilarityModule_stabilizer_absorbed_witness :
  ∃ out, Float32.SimilarityModule
           [[[Float32.of_Z 1; Float32.zero]]] [[[Float32.of_Z 1; Float32.zero]]]
           [[true]] [1] (small_cfg 2 1 true "1/N") = Ret out ∧
         at2 out 0 0 = Some (Float32.div Float32.one Float32.two).
Proof.
  pose (v := [Float32.of_Z 1; Float32.zero]).
  assert (has_shape3 [[v]] 1 1 2) as Hv by (split; [reflexivity|]; repeat constructor).
  assert (has_shape2 [[true]] 1 1) as Hm by (split; [reflexivity|]; repeat constructor).
  exact (SimilarityModule_stabilizer_absorbed [[v]] [[v]] [[true]] [1]
           (small_cfg 2 1 true "1/N") 1 1 2 0 v [v] [true] 1
           Hv Hv Hm eq_refl ltac:(lia) eq_refl eq_refl eq_refl eq_refl eq_refl
           ltac:(lia) ltac:(lia)).
Defined.
